(** * Logic-gate circuits: evaluation, truth tables and expression synthesis

    A shallow embedding of [src/utils/circuitLogic.ts] (with the data types of
    the repository's [types] module) and the properties of its three exported
    operations [simulateCircuit], [generateTruthTable] and
    [generateExpression].

    Conventions of the embedding.
    - JavaScript strings are byte strings; only equality, emptiness and
      concatenation are used by the code.
    - Pin indices, coordinates and loop counters are mathematical integers;
      the two 32-bit operators of the code ([<<] and [>>]) have their
      wrap-around written out.
    - [Array.prototype.sort] is the stable sort of ES2019: an element is
      placed before the first element it does not compare greater than.
    - A [Record<string, boolean>] is a plain object, modelled by the finite
      map of its own properties; an assignment to the key ["__proto__"]
      creates none. *)

From Stdlib Require Import ZArith String List Relations Sorted.
From stdpp Require Import base list gmap strings sorting.

Local Open Scope string_scope.
Local Open Scope Z_scope.

(** ** Data model (the repository's [types] module) *)

Inductive GateType : Set :=
| AND | OR | NOT | NAND | NOR | XOR | INPUT | OUTPUT.

#[global] Instance GateType_eq_dec : EqDecision GateType.
Proof. solve_decision. Defined.

Record CircuitNode : Set := mkNode {
  id : string;
  type : GateType;
  x : Z;
  y : Z;
  label : string;
  value : bool
}.

Record Wire : Set := mkWire {
  wire_id : string;
  sourceNodeId : string;
  sourcePinIndex : Z;
  targetNodeId : string;
  targetPinIndex : Z
}.

#[global] Instance CircuitNode_eq_dec : EqDecision CircuitNode.
Proof. solve_decision. Defined.

#[global] Instance Wire_eq_dec : EqDecision Wire.
Proof. solve_decision. Defined.

(** [{ ...node, value: v }] *)
Definition with_value (node : CircuitNode) (v : bool) : CircuitNode :=
  {| id := id node; type := type node; x := x node; y := y node;
     label := label node; value := v |}.

(** ** JavaScript array helpers *)

(** [arr.find(n => n.id === nodeId)] *)
Definition find_node (nodeId : string) (allNodes : list CircuitNode)
  : option CircuitNode :=
  List.find (λ n, String.eqb (id n) nodeId) allNodes.

(** Stable sort with a numeric comparator, [arr.sort((a, b) => cmp a b)]. *)
Fixpoint sort_insert {A : Type} (cmp : A → A → Z) (a : A) (l : list A)
  : list A :=
  match l with
  | [] => [a]
  | b :: l' => if cmp a b <=? 0 then a :: b :: l' else b :: sort_insert cmp a l'
  end.

Definition js_sort {A : Type} (cmp : A → A → Z) (l : list A) : list A :=
  foldr (sort_insert cmp) [] l.

(** [(a, b) => a.targetPinIndex - b.targetPinIndex] *)
Definition by_pin (a b : Wire) : Z := targetPinIndex a - targetPinIndex b.

(** ** getNodeInputs *)

(** The local two-slot array [inputs]; [inputs[pin] = v] for [pin < 2].
    A negative index creates a property that no reader looks at. *)
Definition set_slot (inputs : option bool * option bool) (pin : Z) (v : bool)
  : option bool * option bool :=
  if pin =? 0 then (Some v, inputs.2)
  else if pin =? 1 then (inputs.1, Some v)
  else inputs.

Definition inputWires_of (nodeId : string) (wires : list Wire) : list Wire :=
  js_sort by_pin (filter (λ w, targetNodeId w = nodeId) wires).

(** The callback of [inputWires.forEach]. *)
Definition read_wire (allNodes : list CircuitNode)
    (inputs : option bool * option bool) (w : Wire)
  : option bool * option bool :=
  match find_node (sourceNodeId w) allNodes with
  | Some sourceNode =>
      if targetPinIndex w <? 2
      then set_slot inputs (targetPinIndex w) (value sourceNode)
      else inputs
  | None => inputs
  end.

Definition getNodeInputs (nodeId : string) (wires : list Wire)
    (allNodes : list CircuitNode) : option bool * option bool :=
  let inputWires := inputWires_of nodeId wires in
  foldl (read_wire allNodes) (None, None) inputWires.

(** Slot [k] of the array [inputs], for [k] 0 or 1. *)
Definition slot (k : Z) (inputs : option bool * option bool) : option bool :=
  if k =? 0 then inputs.1 else inputs.2.

(** ** evaluateGate *)

(** [v === true] on a [boolean | undefined]. *)
Definition is_true (v : option bool) : bool :=
  match v with Some true => true | _ => false end.

Definition evaluateGate (t : GateType) (inputs : option bool * option bool)
  : bool :=
  let a := is_true inputs.1 in
  let b := is_true inputs.2 in
  match t with
  | AND => a && b
  | OR => a || b
  | NOT => negb a
  | NAND => negb (a && b)
  | NOR => negb (a || b)
  | XOR => (a && negb b) || (negb a && b)
  | INPUT => a
  | OUTPUT => a
  end.

(** ** simulateCircuit *)

Definition MAX_ITERATIONS : nat := 50.

(** The callback of [newNodes.map]: the new node and whether it raised the
    [changed] flag. *)
Definition update_node (wires : list Wire) (newNodes : list CircuitNode)
    (node : CircuitNode) : CircuitNode * bool :=
  match type node with
  | INPUT => (node, false)
  | _ =>
      let inputs := getNodeInputs (id node) wires newNodes in
      let newValue := evaluateGate (type node) inputs in
      if negb (Bool.eqb newValue (value node))
      then (with_value node newValue, true)
      else (node, false)
  end.

(** One execution of the body of the [while] loop: [nextNodes] and the final
    state of [changed]. *)
Definition pass (wires : list Wire) (newNodes : list CircuitNode)
  : list CircuitNode * bool :=
  let r := update_node wires newNodes <$> newNodes in
  (r.*1, existsb snd r).

Definition next_nodes (wires : list Wire) (newNodes : list CircuitNode)
  : list CircuitNode := (pass wires newNodes).1.

(** The [while (changed && iterations < MAX_ITERATIONS)] loop, unrolled at
    most [fuel] times; the state is ([newNodes], [changed], [iterations]). *)
Fixpoint simulate_loop (wires : list Wire) (fuel : nat)
    (newNodes : list CircuitNode) (changed : bool) (iterations : nat)
  : list CircuitNode * bool * nat :=
  match fuel with
  | O => (newNodes, changed, iterations)
  | S fuel' =>
      if changed && (iterations <? MAX_ITERATIONS)%nat then
        let '(nextNodes, changed') := pass wires newNodes in
        simulate_loop wires fuel' nextNodes changed' (S iterations)
      else (newNodes, changed, iterations)
  end.

Definition simulate_run (nodes : list CircuitNode) (wires : list Wire)
  : list CircuitNode * bool * nat :=
  simulate_loop wires MAX_ITERATIONS nodes true 0.

Definition simulateCircuit (nodes : list CircuitNode) (wires : list Wire)
  : list CircuitNode := (simulate_run nodes wires).1.1.

(** Number of passes the call performs. *)
Definition passes (nodes : list CircuitNode) (wires : list Wire) : nat :=
  (simulate_run nodes wires).2.

(** The node list after [k] passes. *)
Definition after_passes (wires : list Wire) (k : nat)
    (nodes : list CircuitNode) : list CircuitNode :=
  Nat.iter k (next_nodes wires) nodes.

(** ** Arrays as mutable objects

    [simulateCircuit] receives two arrays by reference. To state that it does
    not write to them, the arrays live in a store and the code is threaded
    through it: [filter], [map] and the spread of [nodes] allocate a new
    array, [sort] overwrites the array it is called on. A reference is the
    index of an array in the store. Node and wire objects are never assigned
    to by the code and stay plain values. *)

Record Store : Type := mkStore {
  nodeArrays : list (list CircuitNode);
  wireArrays : list (list Wire)
}.

Definition St (A : Type) : Type := Store → A * Store.

#[global] Instance St_ret : MRet St := λ A a s, (a, s).
#[global] Instance St_bind : MBind St :=
  λ A B k m s, let '(a, s') := m s in k a s'.

Definition alloc_nodes (l : list CircuitNode) : St nat :=
  λ s, (length (nodeArrays s),
        {| nodeArrays := nodeArrays s ++ [l]; wireArrays := wireArrays s |}).

Definition read_nodes (r : nat) : St (list CircuitNode) :=
  λ s, (default [] (nodeArrays s !! r), s).

Definition alloc_wires (l : list Wire) : St nat :=
  λ s, (length (wireArrays s),
        {| nodeArrays := nodeArrays s; wireArrays := wireArrays s ++ [l] |}).

Definition read_wires (r : nat) : St (list Wire) :=
  λ s, (default [] (wireArrays s !! r), s).

Definition write_wires (r : nat) (l : list Wire) : St unit :=
  λ s, ((), {| nodeArrays := nodeArrays s;
               wireArrays := <[r := l]> (wireArrays s) |}).

(** [getNodeInputs]: [wires.filter] returns a new array, and
    [inputWires.sort] overwrites that array and no other. *)
Definition getNodeInputs_st (nodeId : string) (wiresRef allNodesRef : nat)
  : St (option bool * option bool) :=
  wires ← read_wires wiresRef;
  inputWires ← alloc_wires (filter (λ w, targetNodeId w = nodeId) wires);
  unsorted ← read_wires inputWires;
  _ ← write_wires inputWires (js_sort by_pin unsorted);
  sorted ← read_wires inputWires;
  allNodes ← read_nodes allNodesRef;
  mret (foldl (read_wire allNodes) (None, None) sorted).

(** The callback of [newNodes.map]; it reads the array [newNodes] that the
    loop variable refers to. *)
Definition update_node_st (wiresRef newNodesRef : nat) (node : CircuitNode)
  : St (CircuitNode * bool) :=
  match type node with
  | INPUT => mret (node, false)
  | _ =>
      inputs ← getNodeInputs_st (id node) wiresRef newNodesRef;
      let newValue := evaluateGate (type node) inputs in
      if negb (Bool.eqb newValue (value node))
      then mret (with_value node newValue, true)
      else mret (node, false)
  end.

(** The [while] loop: [newNodes.map] returns a new array, to which the
    variable [newNodes] is then rebound. *)
Fixpoint simulate_loop_st (wiresRef : nat) (fuel : nat) (newNodesRef : nat)
    (changed : bool) (iterations : nat) : St nat :=
  match fuel with
  | O => mret newNodesRef
  | S fuel' =>
      if changed && (iterations <? MAX_ITERATIONS)%nat then
        newNodes ← read_nodes newNodesRef;
        r ← mapM (update_node_st wiresRef newNodesRef) newNodes;
        nextNodes ← alloc_nodes r.*1;
        simulate_loop_st wiresRef fuel' nextNodes (existsb snd r) (S iterations)
      else mret newNodesRef
  end.

(** [simulateCircuit]: [let newNodes = [...nodes]] copies the argument into a
    new array before the loop; the reference of the final [newNodes] is
    returned. *)
Definition simulateCircuit_st (nodesRef wiresRef : nat) : St nat :=
  nodes ← read_nodes nodesRef;
  newNodes ← alloc_nodes nodes;
  simulate_loop_st wiresRef MAX_ITERATIONS newNodes true 0.

(** Every array of [s] is in [s'] with the same content. *)
Definition extends (s s' : Store) : Prop :=
  nodeArrays s `prefix_of` nodeArrays s' ∧
  wireArrays s `prefix_of` wireArrays s'.

(** ** Wire graph *)

(** The target pin of a wire. *)
Definition pin_of (w : Wire) : string * Z := (targetNodeId w, targetPinIndex w).

(** Invariant of the data model: at most one wire ends at a given pin. *)
Definition single_driver (wires : list Wire) : Prop := NoDup (pin_of <$> wires).

(** The value read on pin [k] of node [nodeId]: the value of the node that
    the wire ending at that pin comes from, and false when the pin is absent,
    that is when no wire ends there or the wire's source matches no node. *)
Definition pin_value (nodes : list CircuitNode) (wires : list Wire)
    (nodeId : string) (k : Z) : bool :=
  match List.find (λ w, bool_decide (pin_of w = (nodeId, k))) wires with
  | Some w =>
      match find_node (sourceNodeId w) nodes with
      | Some sourceNode => value sourceNode
      | None => false
      end
  | None => false
  end.

(** [drives wires s t]: some wire goes from node id [s] to node id [t]. *)
Definition drives (wires : list Wire) : relation string :=
  λ s t, ∃ w, w ∈ wires ∧ sourceNodeId w = s ∧ targetNodeId w = t.

(** The wire graph has no cycle. *)
Definition acyclic (wires : list Wire) : Prop :=
  ∀ nodeId, ¬ tc (drives wires) nodeId nodeId.

(** The value currently carried by the node that [find] returns for an id. *)
Definition value_of (nodeId : string) (nodes : list CircuitNode)
  : option bool := value <$> find_node nodeId nodes.

(** The value found for [nodeId] differs before and after pass [S k]. *)
Definition changing (wires : list Wire) (nodes : list CircuitNode) (k : nat)
    (nodeId : string) : Prop :=
  value_of nodeId (after_passes wires (S k) nodes)
  ≠ value_of nodeId (after_passes wires k nodes).

(** [sources] lists ancestors of [nodeId]: each one drives the one before. *)
Fixpoint chain (wires : list Wire) (nodeId : string) (sources : list string)
  : Prop :=
  match sources with
  | [] => True
  | s :: sources' => drives wires s nodeId ∧ chain wires s sources'
  end.

(** ** 32-bit integer operators *)

(** ToInt32: reduction into [-2^31, 2^31). *)
Definition toInt32 (z : Z) : Z := (z + 2 ^ 31) mod 2 ^ 32 - 2 ^ 31.

(** [a << n]: the shift count is taken modulo 32 and the result wraps. *)
Definition shl32 (a n : Z) : Z := toInt32 (Z.shiftl (toInt32 a) (n mod 32)).

(** [a >> n]: sign-propagating, the shift count is taken modulo 32. *)
Definition shr32 (a n : Z) : Z := Z.shiftr (toInt32 a) (n mod 32).

(** [a & b] *)
Definition and32 (a b : Z) : Z := Z.land (toInt32 a) (toInt32 b).

(** ** generateTruthTable *)

(** A [Record<string, boolean>] is a plain object; it is modelled by the map
    of its own properties, which is what [Object.keys] and the table view
    read. *)
Record TruthTableRow : Type := mkRow {
  inputs : gmap string bool;
  outputs : gmap string bool
}.

(** [obj[key] = v] on a plain object created by [{}]. The key ["__proto__"]
    names the accessor that every plain object inherits from
    [Object.prototype]; its setter ignores a value that is neither an object
    nor [null], so the assignment of a boolean creates no own property. Any
    other key becomes, or overwrites, an own property. *)
Definition obj_set (key : string) (v : bool) (obj : gmap string bool)
  : gmap string bool :=
  if decide (key = "__proto__") then obj else <[key := v]> obj.

(** [arr.findIndex(p)], [-1] when no element satisfies [p]. *)
Definition findIndex {A : Type} (p : A → bool) (l : list A) : Z :=
  match list_find (λ a, p a = true) l with
  | Some (i, _) => Z.of_nat i
  | None => -1
  end.

(** [((i >> (len - 1 - idx)) & 1) === 1] *)
Definition input_bit (i len idx : Z) : bool :=
  and32 (shr32 i (len - 1 - idx)) 1 =? 1.

Section TruthTable.

(** The host's collation, [String.prototype.localeCompare]; it is not part
    of the repository. *)
Variable localeCompare : string → string → Z.

Definition by_label (a b : CircuitNode) : Z :=
  localeCompare (label a) (label b).

(** [nodes.filter(n => n.type === t).sort(by label)] *)
Definition sorted_of_type (t : GateType) (nodes : list CircuitNode)
  : list CircuitNode :=
  js_sort by_label (filter (λ n, type n = t) nodes).

(** Step 1 of the loop body: the working copy [tempNodes] of row [i]. *)
Definition set_input_states (nodes inps : list CircuitNode) (i : Z)
  : list CircuitNode :=
  (λ node,
     match type node with
     | INPUT =>
         let inputIndex := findIndex (λ inp, String.eqb (id inp) (id node)) inps in
         let val := input_bit i (Z.of_nat (length inps)) inputIndex in
         with_value node val
     | _ => node
     end) <$> nodes.

(** [inputs.forEach((inp, idx) => rowInputs[inp.label] = ...)], started at
    index [idx]. *)
Fixpoint record_inputs (i len idx : Z) (inps : list CircuitNode)
    (rowInputs : gmap string bool) : gmap string bool :=
  match inps with
  | [] => rowInputs
  | inp :: rest =>
      record_inputs i len (idx + 1) rest
        (obj_set (label inp) (input_bit i len idx) rowInputs)
  end.

(** [outputs.forEach(out => rowOutputs[out.label] = ...)] *)
Definition record_outputs (tempNodes outs : list CircuitNode)
  : gmap string bool :=
  foldl (λ rowOutputs out,
           let computedNode := find_node (id out) tempNodes in
           obj_set (label out)
             match computedNode with
             | Some c => value c
             | None => false
             end rowOutputs)
        ∅ outs.

(** The body of the [for] loop: the row pushed for index [i]. *)
Definition table_row (nodes : list CircuitNode) (wires : list Wire)
    (inps outs : list CircuitNode) (i : Z) : TruthTableRow :=
  let tempNodes := set_input_states nodes inps i in
  let tempNodes := simulateCircuit tempNodes wires in
  let rowInputs := record_inputs i (Z.of_nat (length inps)) 0 inps ∅ in
  let rowOutputs := record_outputs tempNodes outs in
  {| inputs := rowInputs; outputs := rowOutputs |}.

Definition generateTruthTable (nodes : list CircuitNode) (wires : list Wire)
  : list TruthTableRow :=
  let inps := sorted_of_type INPUT nodes in
  let outs := sorted_of_type OUTPUT nodes in
  if (length inps =? 0)%nat then []
  else
    let numRows := shl32 1 (Z.of_nat (length inps)) in
    table_row nodes wires inps outs <$> seqZ 0 numRows.

End TruthTable.

(** ** generateExpression *)

(** [s || d] on a [string | undefined]: the empty string is falsy. *)
Definition or_else (s : option string) (d : string) : string :=
  match s with
  | Some EmptyString | None => d
  | Some s' => s'
  end.

Definition render (t : GateType) (sources : list string) : string :=
  let a := or_else (sources !! 0%nat) "0" in
  let b := or_else (sources !! 1%nat) "0" in
  match t with
  | AND => "(" ++ a ++ " · " ++ b ++ ")"
  | OR => "(" ++ a ++ " + " ++ b ++ ")"
  | NOT => "¬" ++ a
  | NAND => "¬(" ++ a ++ " · " ++ b ++ ")"
  | NOR => "¬(" ++ a ++ " + " ++ b ++ ")"
  | XOR => "(" ++ a ++ " ⊕ " ++ b ++ ")"
  | OUTPUT => or_else (sources !! 0%nat) "?"
  | INPUT => "?"
  end.

(** The recursive closure [buildExpr]; [fuel] bounds the recursion depth and
    [None] means that the bound was hit. [visited] is the caller's set after
    [visited.add(nodeId)]: every recursive call receives its own copy
    [new Set(visited)], so the set is passed by value. *)
Fixpoint buildExpr (nodes : list CircuitNode) (wires : list Wire) (fuel : nat)
    (nodeId : string) (visited : gset string) : option string :=
  match fuel with
  | O => None
  | S fuel' =>
      if decide (nodeId ∈ visited) then Some "[LOOP]"
      else
        let visited := {[nodeId]} ∪ visited in
        match find_node nodeId nodes with
        | None => Some "?"
        | Some node =>
            match type node with
            | INPUT => Some (label node)
            | _ =>
                let inputWires := inputWires_of nodeId wires in
                sources ← mapM (λ w, buildExpr nodes wires fuel'
                                        (sourceNodeId w) visited) inputWires;
                if (length sources =? 0)%nat
                then Some (or_else (Some (label node)) "?")
                else Some (render (type node) sources)
            end
        end
  end.

(** Recursion depth that is always enough (see [buildExpr_fuel]). *)
Definition expr_fuel (nodes : list CircuitNode) : nat := S (length nodes).

Definition generateExpression_fuel (fuel : nat) (nodes : list CircuitNode)
    (wires : list Wire) : option string :=
  let outs := filter (λ n, type n = OUTPUT) nodes in
  if (length outs =? 0)%nat then Some "No Output"
  else
    parts ← mapM (λ out, e ← buildExpr nodes wires fuel (id out) ∅;
                         Some (label out ++ " = " ++ e)) outs;
    Some (String.concat "; " parts).

Definition generateExpression (nodes : list CircuitNode) (wires : list Wire)
  : option string :=
  generateExpression_fuel (expr_fuel nodes) nodes wires.

(** ** Concrete circuits *)

Definition gate (i : string) (t : GateType) (l : string) (v : bool)
  : CircuitNode :=
  {| id := i; type := t; x := 0; y := 0; label := l; value := v |}.

Definition wire (s t : string) (pin : Z) : Wire :=
  {| wire_id := s ++ ">" ++ t; sourceNodeId := s; sourcePinIndex := 0;
     targetNodeId := t; targetPinIndex := pin |}.

(** Byte-wise comparison, used where a concrete collation is needed. *)
Definition byte_compare (a b : string) : Z :=
  match String.compare a b with Lt => -1 | Eq => 0 | Gt => 1 end.

(** INPUT "A" -> NOT -> OUTPUT "Y". *)
Definition case1_nodes : list CircuitNode :=
  [gate "a" INPUT "A" false; gate "n" NOT "" false; gate "y" OUTPUT "Y" false].
Definition case1_wires : list Wire := [wire "a" "n" 0; wire "n" "y" 0].

(** INPUT "A", INPUT "B" -> AND -> OUTPUT "Y". *)
Definition case2_nodes : list CircuitNode :=
  [gate "y" OUTPUT "Y" false; gate "g" AND "" false;
   gate "b" INPUT "B" false; gate "a" INPUT "A" false].
Definition case2_wires : list Wire :=
  [wire "g" "y" 0; wire "b" "g" 1; wire "a" "g" 0].

(** An AND gate wired back into its own pin 1. *)
Definition case3_nodes : list CircuitNode :=
  [gate "a" INPUT "A" true; gate "g" AND "" false; gate "y" OUTPUT "Y" false].
Definition case3_wires : list Wire :=
  [wire "a" "g" 0; wire "g" "g" 1; wire "g" "y" 0].

(** Two OUTPUT nodes fed from the same XOR gate. *)
Definition case4_nodes : list CircuitNode :=
  [gate "a" INPUT "A" false; gate "b" INPUT "B" false; gate "g" XOR "" false;
   gate "y1" OUTPUT "Y1" false; gate "y0" OUTPUT "Y0" false].
Definition case4_wires : list Wire :=
  [wire "a" "g" 0; wire "b" "g" 1; wire "g" "y1" 0; wire "g" "y0" 0].

(** A chain of [n] NOT gates, all false, each wired into pin 0 of the next.
    Gate [k] has the one-character id of code [48 + k]. *)
Definition chain_id (k : nat) : string :=
  String (Ascii.ascii_of_nat (48 + k)) EmptyString.

Definition not_chain_nodes (n : nat) : list CircuitNode :=
  (λ k, gate (chain_id k) NOT "" false) <$> seq 0 n.

Definition not_chain_wires (n : nat) : list Wire :=
  (λ k, wire (chain_id k) (chain_id (S k)) 0) <$> seq 0 (n - 1).

(** The code of the first character of an id, 0 for the empty id. *)
Definition first_code (s : string) : nat :=
  match s with
  | EmptyString => 0
  | String c _ => Ascii.nat_of_ascii c
  end.

(** Two INPUT nodes that carry the same label. *)
Definition dup_label_nodes : list CircuitNode :=
  [gate "p" INPUT "A" false; gate "q" INPUT "A" false].

(** One INPUT node whose label is the name of the prototype accessor. *)
Definition proto_label_nodes : list CircuitNode :=
  [gate "p" INPUT "__proto__" false].

(** A latch: an OR gate fed by INPUT "A" on pin 0 and by itself on pin 1,
    read by OUTPUT "Y"; [v] is the value the gate carries in the snapshot. *)
Definition latch_nodes (v : bool) : list CircuitNode :=
  [gate "a" INPUT "A" false; gate "g" OR "" v; gate "y" OUTPUT "Y" v].
Definition latch_wires : list Wire :=
  [wire "a" "g" 0; wire "g" "g" 1; wire "g" "y" 0].

(** INPUT "A" next to a chain of 51 NOT gates read by OUTPUT "Y"; the gates
    carry the values [vs] in the snapshot. *)
Definition long_chain_nodes (vs : list bool) : list CircuitNode :=
  gate "in" INPUT "A" false
  :: zip_with (λ k v, gate (chain_id k) NOT "" v) (seq 0 51) vs
  ++ [gate "out" OUTPUT "Y" false].
Definition long_chain_wires : list Wire :=
  not_chain_wires 51 ++ [wire (chain_id 50) "out" 0].

(** [n] INPUT nodes with distinct ids and labels. *)
Definition input_bank (n : nat) : list CircuitNode :=
  (λ k, gate (chain_id k) INPUT (chain_id k) false) <$> seq 0 n.

(** ** Expression synthesis: derived notions *)

(** The string that [buildExpr] returns (see [buildExpr_expr]). *)
Definition expr (nodes : list CircuitNode) (wires : list Wire)
    (nodeId : string) (visited : gset string) : string :=
  default "" (buildExpr nodes wires (expr_fuel nodes) nodeId visited).

(** The expansion without the cycle guard: [buildExpr] with the test on
    [visited] removed. It is the reference against which the guard is
    compared on acyclic circuits. *)
Fixpoint expandExpr (nodes : list CircuitNode) (wires : list Wire)
    (fuel : nat) (nodeId : string) : option string :=
  match fuel with
  | O => None
  | S fuel' =>
      match find_node nodeId nodes with
      | None => Some "?"
      | Some node =>
          match type node with
          | INPUT => Some (label node)
          | _ =>
              let inputWires := inputWires_of nodeId wires in
              sources ← mapM (λ w, expandExpr nodes wires fuel'
                                      (sourceNodeId w)) inputWires;
              if (length sources =? 0)%nat
              then Some (or_else (Some (label node)) "?")
              else Some (render (type node) sources)
          end
      end
  end.

(** The node ids not yet on the current path. *)
Definition unvisited (nodes : list CircuitNode) (visited : gset string)
  : gset string := list_to_set (id <$> nodes) ∖ visited.

(** A diamond: INPUT "A" feeds two NOT gates that meet again in an AND. *)
Definition diamond_nodes : list CircuitNode :=
  [gate "a" INPUT "A" false; gate "l" NOT "" false; gate "r" NOT "" false;
   gate "g" AND "" false; gate "y" OUTPUT "Y" false].
Definition diamond_wires : list Wire :=
  [wire "a" "l" 0; wire "a" "r" 0; wire "l" "g" 0; wire "r" "g" 1;
   wire "g" "y" 0].

(** An INPUT with an empty label, read by an OUTPUT directly and through an
    AND gate on both pins. *)
Definition blank_nodes : list CircuitNode :=
  [gate "i" INPUT "" false; gate "g" AND "" false;
   gate "y0" OUTPUT "Y0" false; gate "y1" OUTPUT "Y1" false].
Definition blank_wires : list Wire :=
  [wire "i" "y0" 0; wire "i" "g" 0; wire "i" "g" 1; wire "g" "y1" 0].

(** An AND gate driven on pin 1 only. *)
Definition pin1_nodes (l : string) : list CircuitNode :=
  [gate "a" INPUT l true; gate "g" AND "" false; gate "y" OUTPUT "Y" false].
Definition pin1_wires : list Wire := [wire "a" "g" 1; wire "g" "y" 0].

(** The notation of the gate kinds on two operand strings. *)
Definition notation (t : GateType) (a b : string) : string :=
  match t with
  | AND => "(" ++ a ++ " · " ++ b ++ ")"
  | OR => "(" ++ a ++ " + " ++ b ++ ")"
  | NAND => "¬(" ++ a ++ " · " ++ b ++ ")"
  | NOR => "¬(" ++ a ++ " + " ++ b ++ ")"
  | XOR => "(" ++ a ++ " ⊕ " ++ b ++ ")"
  | NOT => "¬" ++ a
  | OUTPUT => a
  | INPUT => a
  end.

(** The gate kinds with two input pins. *)
Definition two_input (t : GateType) : bool :=
  match t with
  | AND | OR | NAND | NOR | XOR => true
  | NOT | INPUT | OUTPUT => false
  end.

(** Two INPUT nodes, both on, into an AND gate. *)
Definition both_on_nodes : list CircuitNode :=
  [gate "a" INPUT "A" true; gate "b" INPUT "B" true; gate "g" AND "" false].
Definition both_on_wires : list Wire := [wire "a" "g" 0; wire "b" "g" 1].


(** * The rest of the code: derived notions, the application shell, the
      editor and the import of generated circuits *)

From stdpp Require Import pretty.

Local Open Scope string_scope.
Local Open Scope Z_scope.

(** ** Relations between node lists *)

(** Position by position the same id and type, and the same value on INPUT
    nodes: the same circuit driven by the same inputs. *)
Definition same_circuit (nodes1 nodes2 : list CircuitNode) : Prop :=
  Forall2 (λ a b, id a = id b ∧ type a = type b ∧
                  (type a = INPUT → value a = value b)) nodes1 nodes2.

(** Position by position the same id, type and label: the same circuit,
    whatever values and coordinates the nodes carry. *)
Definition same_structure (nodes1 nodes2 : list CircuitNode) : Prop :=
  Forall2 (λ a b, id a = id b ∧ type a = type b ∧ label a = label b)
    nodes1 nodes2.

(** What the wire [w] contributes to pin [k] of [nodeId]: the value of its
    source when it ends at that pin and its source is a node. *)
Definition drive_of (nodes : list CircuitNode) (nodeId : string) (k : Z)
    (w : Wire) : option bool :=
  if bool_decide (targetNodeId w = nodeId ∧ targetPinIndex w = k)
  then value_of (sourceNodeId w) nodes
  else None.

(** ** The application shell *)

(** [simulatedNodes.some((n, i) => n.value !== nodes[i].value)], from index
    [i] on; [None] stands for the TypeError of reading [.value] of an
    [undefined] element. *)
Fixpoint some_changed (i : nat) (simulatedNodes nodes : list CircuitNode)
  : option bool :=
  match simulatedNodes with
  | [] => Some false
  | n :: rest =>
      match nodes !! i with
      | None => None
      | Some m =>
          if negb (Bool.eqb (value n) (value m)) then Some true
          else some_changed (S i) rest nodes
      end
  end.

(** The state that the simulation effect of the application leaves. *)
Record EffectResult : Type := mkEffect {
  eff_nodes : list CircuitNode;
  eff_truthTable : list TruthTableRow;
  eff_expression : option string
}.

Section App.

(** The host's collation and [String.fromCharCode]; neither is part of the
    repository. *)
Variable localeCompare : string → string → Z.
Variable fromCharCode : Z → string.

(** The body of the simulation effect: [setNodes] is called only when
    [hasChanges] holds; the analysis is computed from [simulatedNodes]. *)
Definition simulation_effect (nodes : list CircuitNode) (wires : list Wire)
  : option EffectResult :=
  let simulatedNodes := simulateCircuit nodes wires in
  hasChanges ← some_changed 0 simulatedNodes nodes;
  let nodes' := if hasChanges : bool then simulatedNodes else nodes in
  let table := generateTruthTable localeCompare simulatedNodes wires in
  let expr := generateExpression simulatedNodes wires in
  Some {| eff_nodes := nodes'; eff_truthTable := table;
          eff_expression := expr |}.

(** [handleAddGate]; [newId] is the id built from the clock,
    [`node-${Date.now()}`]. The counts are taken from the node list of the
    render in which the handler runs, which is taken to be the list that
    [setNodes] appends to (one drop per render). *)
Definition handleAddGate (t : GateType) (x0 y0 : Z) (newId : string)
    (nodes : list CircuitNode) : list CircuitNode :=
  let inputCount := length (filter (λ n, type n = INPUT) nodes) in
  let outputCount := length (filter (λ n, type n = OUTPUT) nodes) in
  let label0 := "" in
  let label1 :=
    if decide (t = INPUT) then fromCharCode (65 + Z.of_nat inputCount)
    else label0 in
  let label2 :=
    if decide (t = OUTPUT) then "Y" ++ pretty outputCount else label1 in
  nodes ++ [{| id := newId; type := t; x := x0; y := y0; label := label2;
               value := false |}].

End App.

(** The node lists that [handleAddGate] builds from the empty circuit. *)
Inductive added_only (fromCharCode : Z → string) : list CircuitNode → Prop :=
| added_nil : added_only fromCharCode []
| added_gate t x0 y0 newId nodes :
    added_only fromCharCode nodes →
    added_only fromCharCode (handleAddGate fromCharCode t x0 y0 newId nodes).

(** [handleToggleInput] *)
Definition handleToggleInput (nodeId : string) (nodes : list CircuitNode)
  : list CircuitNode :=
  (λ n, if String.eqb (id n) nodeId && bool_decide (type n = INPUT)
        then with_value n (negb (value n)) else n) <$> nodes.

(** ** The editor *)

Inductive PinType : Set := pin_input | pin_output.

#[global] Instance PinType_eq_dec : EqDecision PinType.
Proof. solve_decision. Defined.

(** The pin on which a wire gesture started ([tempWireStart]) or ended. *)
Record PinRef : Set := mkPin {
  pin_nodeId : string;
  pin_pinIndex : Z;
  pin_type : PinType
}.

(** The pin on which the gesture ends, as the pair [{ nodeId, pinIndex }]. *)
Definition end_pin (nodeId : string) (pinIndex : Z) (type_ : PinType)
  : PinRef :=
  {| pin_nodeId := nodeId; pin_pinIndex := pinIndex; pin_type := type_ |}.

(** [const source = tempWireStart.type === 'output' ? tempWireStart : ...] *)
Definition gesture_source (tempWireStart here : PinRef) : PinRef :=
  if decide (pin_type tempWireStart = pin_output) then tempWireStart else here.

(** [const target = tempWireStart.type === 'input' ? tempWireStart : ...] *)
Definition gesture_target (tempWireStart here : PinRef) : PinRef :=
  if decide (pin_type tempWireStart = pin_input) then tempWireStart else here.

Definition new_wire (newId : string) (source target : PinRef) : Wire :=
  {| wire_id := newId;
     sourceNodeId := pin_nodeId source;
     sourcePinIndex := pin_pinIndex source;
     targetNodeId := pin_nodeId target;
     targetPinIndex := pin_pinIndex target |}.

(** The updater passed to [setWires] in [handlePinMouseUp]; [newId] is the
    id built from the clock, [`wire-${Date.now()}`]. *)
Definition connect_wires (source target : PinRef) (newId : string)
    (prev : list Wire) : list Wire :=
  let exists_ :=
    List.find (λ w, String.eqb (targetNodeId w) (pin_nodeId target)
                    && (targetPinIndex w =? pin_pinIndex target)) prev in
  let newWire := new_wire newId source target in
  match exists_ with
  | Some e => (λ w, if String.eqb (wire_id w) (wire_id e) then newWire else w)
                <$> prev
  | None => prev ++ [newWire]
  end.

(** [handlePinMouseUp]: the wire list after the gesture ends on pin
    [pinIndex] of kind [type_] of node [nodeId]. *)
Definition handlePinMouseUp (tempWireStart : option PinRef) (nodeId : string)
    (pinIndex : Z) (type_ : PinType) (newId : string) (prev : list Wire)
  : list Wire :=
  match tempWireStart with
  | None => prev
  | Some start =>
      if String.eqb (pin_nodeId start) nodeId then prev
      else if decide (pin_type start = type_) then prev
      else
        let here := end_pin nodeId pinIndex type_ in
        connect_wires (gesture_source start here) (gesture_target start here)
          newId prev
  end.

(** [deleteNode]: both updaters. *)
Definition deleteNode (nodeId : string)
    (state : list CircuitNode * list Wire) : list CircuitNode * list Wire :=
  (filter (λ n, id n ≠ nodeId) state.1,
   filter (λ w, sourceNodeId w ≠ nodeId ∧ targetNodeId w ≠ nodeId) state.2).

(** [deleteWire] *)
Definition deleteWire (wireId : string) (prev : list Wire) : list Wire :=
  filter (λ w, wire_id w ≠ wireId) prev.

(** [getWireOffset] on the UTF-16 code units of [sourceId]. *)
Definition hash_step (hash c : Z) : Z :=
  toInt32 (shl32 hash 5 - hash + c).

Definition getWireOffset (codes : list Z) : Z :=
  let hash := foldl hash_step 0 codes in
  (Z.abs hash) mod 7 * 5 - 10.

(** The wire operations of the editor. *)
Inductive WireAction : Set :=
| Connect (start : option PinRef) (nodeId : string) (pinIndex : Z)
    (type_ : PinType) (newId : string)
| DeleteNode (nodeId : string)
| DeleteWire (wireId : string).

Definition apply_action (a : WireAction) (wires : list Wire) : list Wire :=
  match a with
  | Connect start nodeId pinIndex type_ newId =>
      handlePinMouseUp start nodeId pinIndex type_ newId wires
  | DeleteNode nodeId => (deleteNode nodeId ([], wires)).2
  | DeleteWire wireId => deleteWire wireId wires
  end.

(** The clock gives every created wire an id that no present wire has. *)
Fixpoint fresh_ids (actions : list WireAction) (wires : list Wire) : Prop :=
  match actions with
  | [] => True
  | a :: rest =>
      match a with
      | Connect _ _ _ _ newId => newId ∉ wire_id <$> wires
      | _ => True
      end ∧ fresh_ids rest (apply_action a wires)
  end.

(** No wire leads from a node to itself. *)
Definition no_self_wire (wires : list Wire) : Prop :=
  Forall (λ w, sourceNodeId w ≠ targetNodeId w) wires.

(** Every wire starts and ends at a node. *)
Definition closed_wires (nodes : list CircuitNode) (wires : list Wire)
  : Prop :=
  Forall (λ w, sourceNodeId w ∈ id <$> nodes ∧ targetNodeId w ∈ id <$> nodes)
    wires.

(** ** Import of a generated circuit *)

(** A wire as the generation service returns it. *)
Record WireData : Set := mkWireData {
  wd_sourceNodeId : string;
  wd_targetNodeId : string;
  wd_targetPinIndex : Z
}.

(** [data.nodes.map(n => ({ ...n, value: false }))] *)
Definition import_nodes (data : list CircuitNode) : list CircuitNode :=
  (λ n, with_value n false) <$> data.

(** [data.wires.map((w, idx) => ({ id: `wire-gen-${idx}`, ... }))] *)
Definition import_wires (data : list WireData) : list Wire :=
  imap (λ idx w, {| wire_id := "wire-gen-" ++ pretty idx;
                    sourceNodeId := wd_sourceNodeId w;
                    sourcePinIndex := 0;
                    targetNodeId := wd_targetNodeId w;
                    targetPinIndex := wd_targetPinIndex w |}) data.

(** The invariant the editor keeps on the wire list. *)
Definition editor_invariant (wires : list Wire) : Prop :=
  single_driver wires ∧ NoDup (wire_id <$> wires) ∧ no_self_wire wires.

(** The wire list after a sequence of editor operations. *)
Definition run_actions (actions : list WireAction) (wires : list Wire)
  : list Wire := foldl (λ ws a, apply_action a ws) wires actions.

(** The circuit of case 1 with stale values on the gate and the output. *)
Definition case1_stale_nodes : list CircuitNode :=
  [gate "a" INPUT "A" false; gate "n" NOT "" false; gate "y" OUTPUT "Y" true].

(** The circuit of case 1 with other values and coordinates. *)
Definition case1_moved_nodes : list CircuitNode :=
  [{| id := "a"; type := INPUT; x := 5; y := 7; label := "A"; value := true |};
   {| id := "n"; type := NOT; x := 9; y := 7; label := ""; value := true |};
   {| id := "y"; type := OUTPUT; x := 20; y := 7; label := "Y"; value := true |}].

(** [String.fromCharCode] on the codes below 256, as one character. *)
Definition ascii_fromCharCode (c : Z) : string :=
  String (Ascii.ascii_of_nat (Z.to_nat c)) EmptyString.

(** * Properties *)

(** ** Sorting and wire selection *)

Lemma sort_insert_perm {A} (cmp : A → A → Z) a l : sort_insert cmp a l ≡ₚ a :: l.
Proof.
  induction l as [|b l IH]; simpl; [done|].
  destruct (cmp a b <=? 0); [done|].
  rewrite IH. apply Permutation_swap.
Qed.

Lemma js_sort_perm {A} (cmp : A → A → Z) l : js_sort cmp l ≡ₚ l.
Proof.
  induction l as [|a l IH]; simpl; [done|].
  rewrite sort_insert_perm. by f_equiv.
Qed.

Lemma sort_insert_sorted {A} (cmp : A → A → Z) a l :
  (∀ a b, 0 < cmp a b → cmp b a ≤ 0) →
  Sorted (λ a b, cmp a b ≤ 0) l →
  Sorted (λ a b, cmp a b ≤ 0) (sort_insert cmp a l).
Proof.
  intros Htotal. induction l as [|b l IH]; intros Hs; cbn [sort_insert].
  { repeat constructor. }
  destruct (cmp a b <=? 0) eqn:Hab.
  - apply Z.leb_le in Hab. constructor; [done|]. by constructor.
  - apply Z.leb_gt in Hab. apply Sorted_inv in Hs as [Hs Hhd].
    constructor; [by apply IH|].
    destruct l as [|c l]; cbn [sort_insert].
    + constructor. by apply Htotal.
    + destruct (cmp a c <=? 0).
      * constructor. by apply Htotal.
      * constructor. by apply HdRel_inv in Hhd.
Qed.

Lemma js_sort_sorted {A} (cmp : A → A → Z) l :
  (∀ a b, 0 < cmp a b → cmp b a ≤ 0) →
  Sorted (λ a b, cmp a b ≤ 0) (js_sort cmp l).
Proof.
  intros Htotal. induction l as [|a l IH]; [constructor|].
  by apply sort_insert_sorted.
Qed.

Lemma Sorted_weaken {A} (R R' : A → A → Prop) (l : list A) :
  (∀ a b, R a b → R' a b) → Sorted R l → Sorted R' l.
Proof.
  intros Himpl. induction 1 as [|a l _ IH Hhd]; constructor; [done|].
  destruct Hhd; constructor. by apply Himpl.
Qed.

Lemma filter_pin_sort_insert k (a : Wire) l :
  filter (λ w, targetPinIndex w = k) (sort_insert by_pin a l)
  = filter (λ w, targetPinIndex w = k) (a :: l).
Proof.
  induction l as [|b l IH]; cbn [sort_insert]; [done|].
  destruct (by_pin a b <=? 0) eqn:Hab; [done|].
  apply Z.leb_gt in Hab. unfold by_pin in Hab.
  rewrite filter_cons, IH, !filter_cons.
  repeat case_decide; try done; lia.
Qed.

(** A stable sort by pin keeps the order of the wires of each pin. *)
Lemma filter_pin_js_sort k l :
  filter (λ w, targetPinIndex w = k) (js_sort by_pin l)
  = filter (λ w, targetPinIndex w = k) l.
Proof.
  induction l as [|a l IH]; [done|].
  cbn [js_sort foldr]. rewrite filter_pin_sort_insert.
  fold (js_sort by_pin l). by rewrite !filter_cons, IH.
Qed.

Lemma js_sort_by_pin_sorted l :
  StronglySorted (λ a b, targetPinIndex a ≤ targetPinIndex b)
    (js_sort by_pin l).
Proof.
  apply Sorted_StronglySorted; [intros a b c; lia|].
  apply (Sorted_weaken (λ a b, by_pin a b ≤ 0)).
  - unfold by_pin. intros a b. lia.
  - apply js_sort_sorted. unfold by_pin. intros a b. lia.
Qed.

Lemma strictly_sorted_pins (ws : list Wire) :
  StronglySorted (λ a b, targetPinIndex a < targetPinIndex b) ws →
  StronglySorted (λ a b, targetPinIndex a ≤ targetPinIndex b) ws ∧
  ∀ w1 w2, w1 ∈ ws → w2 ∈ ws → targetPinIndex w1 = targetPinIndex w2 →
           w1 = w2.
Proof.
  induction 1 as [|a l Hl [IHs IHinj] Hall]; [split; [constructor|]|].
  { intros w1 w2 Hw1. by apply elem_of_nil in Hw1. }
  rewrite Forall_forall in Hall. split.
  - constructor; [done|]. apply Forall_forall. intros b Hb.
    specialize (Hall b Hb). lia.
  - intros w1 w2 Hw1 Hw2 Heq.
    apply elem_of_cons in Hw1 as [->|Hw1], Hw2 as [->|Hw2].
    + done.
    + specialize (Hall w2 Hw2). lia.
    + specialize (Hall w1 Hw1). lia.
    + by apply IHinj.
Qed.

(** The wires of a node with distinct pins have one order by pin. *)
Lemma js_sort_by_pin_unique (ws l : list Wire) :
  ws ≡ₚ l →
  StronglySorted (λ a b, targetPinIndex a < targetPinIndex b) ws →
  js_sort by_pin l = ws.
Proof.
  intros Hperm Hstrict.
  destruct (strictly_sorted_pins ws Hstrict) as [Hsorted Hinj].
  symmetry.
  apply (StronglySorted_unique_strong
           (λ a b, targetPinIndex a ≤ targetPinIndex b)).
  - intros w1 w2 Hw1 Hw2 H12 H21. rewrite js_sort_perm, <- Hperm in Hw2.
    apply Hinj; [done..|lia].
  - done.
  - apply js_sort_by_pin_sorted.
  - by rewrite js_sort_perm.
Qed.

Lemma inputWires_of_elem nodeId wires w :
  w ∈ inputWires_of nodeId wires ↔ w ∈ wires ∧ targetNodeId w = nodeId.
Proof.
  unfold inputWires_of. rewrite js_sort_perm, list_elem_of_filter. tauto.
Qed.

Lemma getNodeInputs_fold nodeId wires allNodes :
  getNodeInputs nodeId wires allNodes
  = foldl (read_wire allNodes) (None, None) (inputWires_of nodeId wires).
Proof. reflexivity. Qed.

Lemma read_wire_other allNodes k inputs w :
  (k = 0 ∨ k = 1) →
  (targetPinIndex w = k → find_node (sourceNodeId w) allNodes = None) →
  slot k (read_wire allNodes inputs w) = slot k inputs.
Proof.
  intros Hk Hw. unfold read_wire.
  destruct (find_node (sourceNodeId w) allNodes) as [s|] eqn:Hs; [|done].
  destruct (targetPinIndex w <? 2) eqn:Hlt; [|done].
  unfold set_slot, slot.
  destruct (targetPinIndex w =? 0) eqn:H0.
  { apply Z.eqb_eq in H0. destruct Hk as [->| ->]; [|done].
    by specialize (Hw H0). }
  destruct (targetPinIndex w =? 1) eqn:H1; [|done].
  apply Z.eqb_eq in H1. destruct Hk as [->| ->]; [done|].
  by specialize (Hw H1).
Qed.

Lemma read_wire_hit allNodes k inputs w s :
  (k = 0 ∨ k = 1) → targetPinIndex w = k →
  find_node (sourceNodeId w) allNodes = Some s →
  slot k (read_wire allNodes inputs w) = Some (value s).
Proof.
  intros Hk Hw Hs. unfold read_wire. rewrite Hs, Hw.
  by destruct Hk as [->| ->].
Qed.

Lemma fold_read_other allNodes k l : ∀ inputs,
  (k = 0 ∨ k = 1) →
  (∀ w, w ∈ l → targetPinIndex w = k →
        find_node (sourceNodeId w) allNodes = None) →
  slot k (foldl (read_wire allNodes) inputs l) = slot k inputs.
Proof.
  induction l as [|w l IH]; intros inputs Hk Hl; simpl; [done|].
  rewrite IH; [|done|].
  - apply read_wire_other; [done|]. apply Hl. by left.
  - intros w' Hin. apply Hl. by right.
Qed.

Lemma fold_read_hit allNodes k l : ∀ inputs w s,
  (k = 0 ∨ k = 1) → NoDup (targetPinIndex <$> l) →
  w ∈ l → targetPinIndex w = k →
  find_node (sourceNodeId w) allNodes = Some s →
  slot k (foldl (read_wire allNodes) inputs l) = Some (value s).
Proof.
  induction l as [|w0 l IH]; intros inputs w s Hk Hnd Hin Hw Hs.
  { by apply elem_of_nil in Hin. }
  simpl in *. apply NoDup_cons in Hnd as [Hnotin Hnd].
  apply elem_of_cons in Hin as [->|Hin].
  - rewrite fold_read_other; [by eapply read_wire_hit|done|].
    intros w' Hin' Hw'. exfalso. apply Hnotin.
    apply list_elem_of_fmap. exists w'. split; [congruence|done].
  - by eapply IH.
Qed.

Lemma single_driver_inputWires nodeId wires :
  single_driver wires → NoDup (targetPinIndex <$> inputWires_of nodeId wires).
Proof.
  intros Hsd. unfold inputWires_of. rewrite js_sort_perm.
  unfold single_driver in Hsd. induction wires as [|w wires IH]; [constructor|].
  simpl in Hsd. apply NoDup_cons in Hsd as [Hnotin Hnd].
  rewrite filter_cons. case_decide as Hw; [|by apply IH].
  simpl. apply NoDup_cons. split; [|by apply IH].
  intros Hin. apply Hnotin.
  apply list_elem_of_fmap in Hin as (w' & Heq & Hin).
  apply list_elem_of_filter in Hin as [Hw' Hin].
  apply list_elem_of_fmap. exists w'. split; [|done].
  unfold pin_of. by rewrite Heq, Hw, Hw'.
Qed.

Lemma single_driver_unique wires w1 w2 :
  single_driver wires → w1 ∈ wires → w2 ∈ wires → pin_of w1 = pin_of w2 →
  w1 = w2.
Proof.
  unfold single_driver. intros Hnd H1 H2 Heq.
  apply list_elem_of_lookup in H1 as [i Hi]. apply list_elem_of_lookup in H2 as [j Hj].
  assert (i = j) as ->; [|congruence].
  eapply NoDup_lookup; [done| |]; rewrite list_lookup_fmap.
  - by rewrite Hi.
  - rewrite Hj. simpl. by rewrite Heq.
Qed.

Lemma getNodeInputs_pin_value nodes wires nodeId k :
  single_driver wires → (k = 0 ∨ k = 1) →
  is_true (slot k (getNodeInputs nodeId wires nodes))
  = pin_value nodes wires nodeId k.
Proof.
  intros Hsd Hk. rewrite getNodeInputs_fold. unfold pin_value.
  destruct (List.find _ wires) as [w|] eqn:Hfind.
  - apply find_some in Hfind as [Hin Hpin].
    apply list_elem_of_In in Hin. apply bool_decide_eq_true in Hpin.
    injection Hpin as Ht Hp.
    destruct (find_node (sourceNodeId w) nodes) as [s|] eqn:Hs.
    + erewrite fold_read_hit; eauto using single_driver_inputWires.
      * simpl. by destruct (value s).
      * by apply inputWires_of_elem.
    + rewrite fold_read_other; [by destruct Hk as [->| ->]|done|].
      intros w' Hin' Hp'. apply inputWires_of_elem in Hin' as [Hin' Ht'].
      rewrite (single_driver_unique wires w' w); [done..|].
      unfold pin_of. congruence.
  - rewrite fold_read_other; [by destruct Hk as [->| ->]|done|].
    intros w' Hin' Hp'. apply inputWires_of_elem in Hin' as [Hin' Ht'].
    exfalso. eapply find_none in Hfind; [|by apply list_elem_of_In].
    apply bool_decide_eq_false in Hfind. apply Hfind.
    unfold pin_of. congruence.
Qed.

Lemma with_value_same node : with_value node (value node) = node.
Proof. by destruct node. Qed.

Lemma next_nodes_lookup wires nodes i :
  next_nodes wires nodes !! i = (λ n, (update_node wires nodes n).1) <$> nodes !! i.
Proof.
  unfold next_nodes, pass. simpl. rewrite !list_lookup_fmap.
  by destruct (nodes !! i).
Qed.

Lemma update_node_eval wires nodes node :
  (update_node wires nodes node).1
  = match type node with
    | INPUT => node
    | t => with_value node (evaluateGate t (getNodeInputs (id node) wires nodes))
    end.
Proof.
  unfold update_node.
  destruct (type node) eqn:Ht; try done;
    (destruct (negb _) eqn:Hneq; [done|]; cbn [fst];
     apply negb_false_iff, Bool.eqb_prop in Hneq; rewrite Hneq;
     by rewrite with_value_same).
Qed.

(** C3. One evaluation pass gives every node that is not an INPUT the value
    of its gate function on the values [a] and [b] read on pins 0 and 1:
    AND [a ∧ b], OR [a ∨ b], NAND [¬(a ∧ b)], NOR [¬(a ∨ b)],
    XOR [(a ∧ ¬b) ∨ (¬a ∧ b)], NOT [¬a], OUTPUT [a]; an INPUT node is
    unchanged. A pin that no wire ends at, or whose wire comes from an id that
    matches no node, is absent and reads as false. The wires satisfy the
    invariant of the data model: at most one wire ends at a pin. *)
Theorem gate_semantics_one_pass (nodes : list CircuitNode) (wires : list Wire)
    (i : nat) (node : CircuitNode) :
  single_driver wires →
  nodes !! i = Some node →
  let a := pin_value nodes wires (id node) 0 in
  let b := pin_value nodes wires (id node) 1 in
  next_nodes wires nodes !! i
  = Some (with_value node
            match type node with
            | AND => a && b
            | OR => a || b
            | NAND => negb (a && b)
            | NOR => negb (a || b)
            | XOR => (a && negb b) || (negb a && b)
            | NOT => negb a
            | OUTPUT => a
            | INPUT => value node
            end).
Proof.
  intros Hsd Hi a b. rewrite next_nodes_lookup, Hi. simpl. f_equal.
  rewrite update_node_eval.
  pose proof (getNodeInputs_pin_value nodes wires (id node) 0 Hsd (or_introl eq_refl)) as Ha.
  pose proof (getNodeInputs_pin_value nodes wires (id node) 1 Hsd (or_intror eq_refl)) as Hb.
  unfold slot in Ha, Hb. simpl in Ha, Hb. fold a in Ha. fold b in Hb.
  destruct (type node); unfold evaluateGate; rewrite ?Ha, ?Hb; try done.
  by rewrite with_value_same.
Qed.

Lemma gate_semantics_one_pass_witness :
  single_driver both_on_wires ∧
  both_on_nodes !! 2%nat = Some (gate "g" AND "" false) ∧
  next_nodes both_on_wires both_on_nodes !! 2%nat
  = Some (gate "g" AND "" true).
Proof.
  assert (single_driver both_on_wires) as Hsd by compute_done.
  split_and!; [exact Hsd|reflexivity|].
  apply (gate_semantics_one_pass both_on_nodes both_on_wires 2
           (gate "g" AND "" false) Hsd eq_refl).
Defined.


(** ** One pass *)

Lemma update_node_flag wires nodes node :
  (update_node wires nodes node).2 = false ↔ (update_node wires nodes node).1 = node.
Proof.
  unfold update_node.
  destruct (type node); try done;
    (destruct (negb _) eqn:Hneq; cbn [fst snd]; [|done];
     apply negb_true_iff, Bool.eqb_false_iff in Hneq;
     split; [done|]; intros Heq; exfalso; apply Hneq;
     by rewrite <- Heq at 2).
Qed.

Lemma pass_flag wires nodes :
  (pass wires nodes).2 = false ↔ next_nodes wires nodes = nodes.
Proof.
  unfold next_nodes, pass. cbn [fst snd].
  generalize (update_node_flag wires nodes).
  generalize (update_node wires nodes). intros f Hf.
  induction nodes as [|n l IH]; [done|].
  rewrite !fmap_cons. cbn [existsb]. rewrite orb_false_iff, Hf, IH.
  split; [intros [-> ->]; done|]. intros Heq. by simplify_eq.
Qed.

Lemma after_passes_S wires k nodes :
  after_passes wires (S k) nodes = next_nodes wires (after_passes wires k nodes).
Proof. reflexivity. Qed.

Lemma after_passes_shift wires k nodes :
  after_passes wires (S k) nodes = after_passes wires k (next_nodes wires nodes).
Proof. unfold after_passes. by rewrite Nat.iter_succ_r. Qed.

(** ** The loop of simulateCircuit *)

(** Once the flag is down the loop is not entered. *)
Lemma simulate_loop_false wires fuel nodes it :
  simulate_loop wires fuel nodes false it = (nodes, false, it).
Proof. by destruct fuel. Qed.

(** At the cap the loop is not entered. *)
Lemma simulate_loop_cap wires fuel nodes ch it :
  (MAX_ITERATIONS ≤ it)%nat →
  simulate_loop wires fuel nodes ch it = (nodes, ch, it).
Proof.
  intros Hit. destruct fuel; [done|]. cbn [simulate_loop].
  replace (it <? MAX_ITERATIONS)%nat with false; [by rewrite andb_false_r|].
  symmetry. by apply Nat.ltb_ge.
Qed.

(** One unrolling of the loop when it is entered. *)
Lemma simulate_loop_true wires fuel nodes it :
  (it < MAX_ITERATIONS)%nat →
  simulate_loop wires (S fuel) nodes true it
  = if decide (next_nodes wires nodes = nodes) then (nodes, false, S it)
    else simulate_loop wires fuel (next_nodes wires nodes) true (S it).
Proof.
  intros Hit. cbn [simulate_loop].
  replace (it <? MAX_ITERATIONS)%nat with true by (symmetry; by apply Nat.ltb_lt).
  pose proof (pass_flag wires nodes) as Hflag. unfold next_nodes in *.
  destruct (pass wires nodes) as [nextNodes changed']. cbn [fst snd] in *.
  destruct changed'.
  - rewrite decide_False; [done|]. intros Heq. by apply Hflag in Heq.
  - rewrite simulate_loop_false. rewrite decide_True by by apply Hflag.
    f_equal. f_equal. by apply Hflag.
Qed.

(** What a run of the loop entered with the flag up guarantees. *)
Lemma simulate_loop_spec wires fuel : ∀ nodes it,
  (it < MAX_ITERATIONS ≤ it + fuel)%nat →
  ∃ k ch, simulate_loop wires fuel nodes true it
          = (after_passes wires (S k) nodes, ch, S (it + k)) ∧
    (S (it + k) ≤ MAX_ITERATIONS)%nat ∧
    (∀ j, (j < k)%nat →
          after_passes wires (S j) nodes ≠ after_passes wires j nodes) ∧
    (if ch
     then S (it + k) = MAX_ITERATIONS ∧
          after_passes wires (S k) nodes ≠ after_passes wires k nodes
     else after_passes wires (S k) nodes = after_passes wires k nodes).
Proof.
  induction fuel as [|fuel IH]; intros nodes it Hit; [lia|].
  rewrite simulate_loop_true by lia. case_decide as Hfix.
  { exists 0%nat, false. rewrite Nat.add_0_r.
    change (after_passes wires 1 nodes) with (next_nodes wires nodes).
    change (after_passes wires 0 nodes) with nodes.
    rewrite Hfix. split_and!; [done|lia| |done]. intros j ?. lia. }
  destruct (decide (S it = MAX_ITERATIONS)) as [Hcap|Hcap].
  { rewrite simulate_loop_cap by lia.
    exists 0%nat, true. rewrite Nat.add_0_r.
    change (after_passes wires 1 nodes) with (next_nodes wires nodes).
    change (after_passes wires 0 nodes) with nodes.
    split_and!; [done|lia| |lia|done]. intros j ?. lia. }
  destruct (IH (next_nodes wires nodes) (S it)) as (k & ch & -> & Hle & Hbefore & Hlast);
    [lia|].
  exists (S k), ch. rewrite <- (after_passes_shift wires (S k) nodes).
  split_and!.
  - do 2 f_equal. lia.
  - lia.
  - intros [|j] Hj; [done|].
    rewrite (after_passes_shift wires (S j) nodes), (after_passes_shift wires j nodes).
    apply Hbefore. lia.
  - replace (S (it + S k)) with (S (S it + k)) by lia.
    by rewrite (after_passes_shift wires (S k) nodes), (after_passes_shift wires k nodes).
Qed.

(** ** Passes keep the shape of the node list *)

Lemma update_node_id wires nodes node :
  id (update_node wires nodes node).1 = id node.
Proof. rewrite update_node_eval. by destruct (type node). Qed.

Lemma update_node_type wires nodes node :
  type (update_node wires nodes node).1 = type node.
Proof.
  rewrite update_node_eval. destruct (type node) eqn:Ht; cbn; congruence.
Qed.

Lemma next_nodes_fmap wires nodes :
  next_nodes wires nodes = (λ n, (update_node wires nodes n).1) <$> nodes.
Proof. unfold next_nodes, pass. cbn [fst]. by rewrite <- list_fmap_compose. Qed.

Lemma find_node_fmap (f : CircuitNode → CircuitNode) nodeId nodes :
  (∀ n, id (f n) = id n) →
  find_node nodeId (f <$> nodes) = f <$> find_node nodeId nodes.
Proof.
  intros Hf. unfold find_node. induction nodes as [|n l IH]; [done|].
  rewrite fmap_cons. cbn [List.find]. rewrite Hf.
  by destruct (String.eqb (id n) nodeId).
Qed.

Lemma find_node_next wires nodes nodeId :
  find_node nodeId (next_nodes wires nodes)
  = (λ n, (update_node wires nodes n).1) <$> find_node nodeId nodes.
Proof.
  rewrite next_nodes_fmap. apply find_node_fmap.
  intros n. apply update_node_id.
Qed.

Lemma find_node_Some nodeId nodes n :
  find_node nodeId nodes = Some n → n ∈ nodes ∧ id n = nodeId.
Proof.
  intros Hfind. apply find_some in Hfind as [Hin Heq].
  split; [by apply list_elem_of_In|by apply String.eqb_eq].
Qed.

Lemma find_node_None nodeId nodes :
  find_node nodeId nodes = None ↔ nodeId ∉ id <$> nodes.
Proof.
  unfold find_node. induction nodes as [|n l IH]; cbn [List.find].
  { split; [|done]. intros _ Hin. by apply elem_of_nil in Hin. }
  rewrite fmap_cons, not_elem_of_cons.
  destruct (String.eqb (id n) nodeId) eqn:Heq.
  - apply String.eqb_eq in Heq. split; [done|]. intros [Hne _]. by destruct Hne.
  - apply String.eqb_neq in Heq. rewrite IH. split; [|tauto].
    intros ?. split; [done|congruence].
Qed.

Lemma next_nodes_ids wires nodes : id <$> next_nodes wires nodes = id <$> nodes.
Proof.
  rewrite next_nodes_fmap, <- list_fmap_compose.
  apply list_fmap_ext. intros ? n _. apply update_node_id.
Qed.

Lemma after_passes_ids wires k nodes :
  id <$> after_passes wires k nodes = id <$> nodes.
Proof.
  induction k as [|k IH]; [done|].
  by rewrite after_passes_S, next_nodes_ids.
Qed.

(** ** A pin reads nothing but the values of its sources *)

Lemma read_wire_value_of allNodes inputs w :
  read_wire allNodes inputs w
  = match value_of (sourceNodeId w) allNodes with
    | Some v =>
        if targetPinIndex w <? 2 then set_slot inputs (targetPinIndex w) v
        else inputs
    | None => inputs
    end.
Proof.
  unfold read_wire, value_of.
  by destruct (find_node (sourceNodeId w) allNodes).
Qed.

Lemma getNodeInputs_ext nodeId wires nodes1 nodes2 :
  (∀ w, w ∈ wires → targetNodeId w = nodeId →
        value_of (sourceNodeId w) nodes1 = value_of (sourceNodeId w) nodes2) →
  getNodeInputs nodeId wires nodes1 = getNodeInputs nodeId wires nodes2.
Proof.
  intros Hext. rewrite !getNodeInputs_fold.
  assert (∀ w, w ∈ inputWires_of nodeId wires →
               value_of (sourceNodeId w) nodes1 = value_of (sourceNodeId w) nodes2)
    as Hsame.
  { intros w Hin. apply inputWires_of_elem in Hin as [??]. by apply Hext. }
  clear Hext. generalize (@None bool, @None bool).
  induction (inputWires_of nodeId wires) as [|w l IH]; intros acc; [done|].
  cbn [foldl]. rewrite !read_wire_value_of, Hsame by by left.
  apply IH. intros w' Hin. apply Hsame. by right.
Qed.

(** A node recomputed from unchanged sources keeps its value. *)
Lemma update_node_stable wires nodes0 nodes1 n0 :
  (∀ w, w ∈ wires → targetNodeId w = id n0 →
        value_of (sourceNodeId w) nodes1 = value_of (sourceNodeId w) nodes0) →
  (update_node wires nodes1 (update_node wires nodes0 n0).1).1
  = (update_node wires nodes0 n0).1.
Proof.
  intros Hsame. rewrite (update_node_eval wires nodes1).
  rewrite update_node_type, update_node_id.
  rewrite (getNodeInputs_ext _ _ nodes1 nodes0) by done.
  rewrite (update_node_eval wires nodes0).
  by destruct (type n0).
Qed.

Lemma update_node_changes wires nodes0 nodes1 n0 :
  (update_node wires nodes1 (update_node wires nodes0 n0).1).1
  ≠ (update_node wires nodes0 n0).1 →
  ∃ w, w ∈ wires ∧ targetNodeId w = id n0 ∧
       value_of (sourceNodeId w) nodes1 ≠ value_of (sourceNodeId w) nodes0.
Proof.
  intros Hne.
  destruct (decide (Exists (λ w, targetNodeId w = id n0 ∧
      value_of (sourceNodeId w) nodes1 ≠ value_of (sourceNodeId w) nodes0) wires))
    as [Hex|Hnex].
  { apply Exists_exists in Hex as (w & Hin & ? & ?). eauto. }
  exfalso. apply Hne, update_node_stable. intros w Hin Ht.
  destruct (decide (value_of (sourceNodeId w) nodes1
                    = value_of (sourceNodeId w) nodes0)) as [|Hv]; [done|].
  exfalso. apply Hnex, Exists_exists. eauto.
Qed.

(** ** Value changes travel along wires *)

Lemma changing_id wires nodes k nodeId :
  changing wires nodes k nodeId → nodeId ∈ id <$> nodes.
Proof.
  intros Hch. destruct (decide (nodeId ∈ id <$> nodes)) as [|Hnotin]; [done|].
  exfalso. apply Hch. unfold value_of.
  assert (∀ j, find_node nodeId (after_passes wires j nodes) = None) as Hnone.
  { intros j. apply find_node_None. by rewrite after_passes_ids. }
  by rewrite !Hnone.
Qed.

Lemma changing_back wires nodes k nodeId :
  changing wires nodes (S k) nodeId →
  ∃ s, drives wires s nodeId ∧ changing wires nodes k s.
Proof.
  unfold changing, value_of. rewrite (after_passes_S wires (S k)), find_node_next.
  rewrite (after_passes_S wires k) at 1 2. rewrite find_node_next.
  destruct (find_node nodeId (after_passes wires k nodes)) as [n0|] eqn:Hfind;
    [|done].
  cbn [fmap option_fmap option_map]. intros Hne.
  apply find_node_Some in Hfind as [_ Hid].
  destruct (update_node_changes wires (after_passes wires k nodes)
              (after_passes wires (S k) nodes) n0)
    as (w & Hin & Ht & Hv).
  { intros Heq. apply Hne. by rewrite Heq. }
  exists (sourceNodeId w). split; [|done].
  exists w. split_and!; [done..|congruence].
Qed.

Lemma fmap_fixed {A} (f : A → A) (l : list A) :
  (∀ a, a ∈ l → f a = a) → f <$> l = l.
Proof.
  intros Hf. rewrite <- (list_fmap_id l) at 2.
  apply list_fmap_ext. intros i a Hi. apply Hf. by eapply list_elem_of_lookup_2.
Qed.

Lemma list_change_back wires nodes k :
  after_passes wires (S (S k)) nodes ≠ after_passes wires (S k) nodes →
  ∃ nodeId s, nodeId ∈ id <$> nodes ∧ drives wires s nodeId ∧
              changing wires nodes k s.
Proof.
  rewrite (after_passes_S wires (S k)).
  set (nodes1 := after_passes wires (S k) nodes).
  rewrite next_nodes_fmap. intros Hne.
  destruct (decide (Exists (λ n1, (update_node wires nodes1 n1).1 ≠ n1) nodes1))
    as [Hex|Hnex].
  - apply Exists_exists in Hex as (n1 & Hin & Hn1).
    unfold nodes1 in Hin. rewrite after_passes_S, next_nodes_fmap in Hin.
    apply list_elem_of_fmap in Hin as (n0 & -> & Hin).
    apply update_node_changes in Hn1 as (w & Hw & Ht & Hv).
    exists (id n0), (sourceNodeId w). split_and!.
    + rewrite <- (after_passes_ids wires k). apply list_elem_of_fmap. eauto.
    + by exists w.
    + done.
  - exfalso. apply Hne, fmap_fixed. intros n1 Hin.
    destruct (decide ((update_node wires nodes1 n1).1 = n1)) as [|Hd]; [done|].
    exfalso. apply Hnex, Exists_exists. eauto.
Qed.

Lemma changing_chain wires nodes : ∀ k nodeId,
  changing wires nodes k nodeId →
  ∃ sources, length sources = k ∧ chain wires nodeId sources ∧
             Forall (λ s, s ∈ id <$> nodes) (nodeId :: sources).
Proof.
  induction k as [|k IH]; intros nodeId Hch.
  { exists []. split_and!; [done..|]. repeat constructor. by eapply changing_id. }
  pose proof (changing_id _ _ _ _ Hch) as Hid.
  apply changing_back in Hch as (s & Hs & Hch).
  apply IH in Hch as (sources & Hlen & Hchain & Hall).
  exists (s :: sources). split_and!; [by rewrite <- Hlen|done|by constructor].
Qed.

Lemma chain_tc wires : ∀ sources nodeId s,
  chain wires nodeId sources → s ∈ sources → tc (drives wires) s nodeId.
Proof.
  induction sources as [|s0 l IH]; intros nodeId s Hchain Hin.
  { by apply elem_of_nil in Hin. }
  destruct Hchain as [Hd Hchain]. apply elem_of_cons in Hin as [->|Hin].
  - by apply tc_once.
  - eapply tc_r; [|done]. by apply IH.
Qed.

Lemma chain_NoDup wires : ∀ sources nodeId,
  acyclic wires → chain wires nodeId sources → NoDup (nodeId :: sources).
Proof.
  induction sources as [|s0 l IH]; intros nodeId Hac Hchain.
  { apply NoDup_singleton. }
  apply NoDup_cons. split.
  - intros Hin. eapply Hac, chain_tc; done.
  - destruct Hchain as [_ Hchain]. by apply IH.
Qed.

(** In an acyclic wire graph the values are settled after as many passes as
    there are nodes. *)
Lemma acyclic_settles nodes wires :
  acyclic wires →
  next_nodes wires (after_passes wires (length nodes) nodes)
  = after_passes wires (length nodes) nodes.
Proof.
  intros Hac. rewrite <- after_passes_S.
  destruct (decide (after_passes wires (S (length nodes)) nodes
                    = after_passes wires (length nodes) nodes)) as [|Hne]; [done|].
  exfalso. destruct nodes as [|n0 nodes']; [done|].
  set (nodes := n0 :: nodes') in *.
  change (length nodes) with (S (length nodes')) in Hne.
  apply list_change_back in Hne as (nodeId & s & Hid & Hd & Hch).
  apply changing_chain in Hch as (sources & Hlen & Hchain & Hall).
  assert (NoDup (nodeId :: s :: sources)) as Hnd.
  { eapply chain_NoDup; [done|]. by split. }
  assert (nodeId :: s :: sources ⊆ id <$> nodes) as Hsub.
  { intros z Hz. apply elem_of_cons in Hz as [->|Hz]; [done|].
    rewrite Forall_forall in Hall. by apply Hall. }
  apply NoDup_submseteq in Hsub; [|done].
  apply submseteq_length in Hsub. rewrite length_fmap in Hsub.
  cbn [length] in Hsub. subst nodes. cbn [length] in Hsub.
  change (length sources = length nodes') in Hlen. lia.
Qed.

(** ** The result of simulateCircuit *)

Lemma simulate_run_spec nodes wires :
  ∃ k ch, simulate_run nodes wires = (after_passes wires (S k) nodes, ch, S k) ∧
    (S k ≤ MAX_ITERATIONS)%nat ∧
    (∀ j, (j < k)%nat →
          after_passes wires (S j) nodes ≠ after_passes wires j nodes) ∧
    (if ch
     then S k = MAX_ITERATIONS ∧
          after_passes wires (S k) nodes ≠ after_passes wires k nodes
     else after_passes wires (S k) nodes = after_passes wires k nodes).
Proof.
  unfold simulate_run.
  destruct (simulate_loop_spec wires MAX_ITERATIONS nodes 0)
    as (k & ch & Hrun & Hspec); [unfold MAX_ITERATIONS; lia|].
  by exists k, ch.
Qed.

(** More unrollings than the cap never change the result: the loop ends by
    its own test. *)
Lemma simulateCircuit_after nodes wires :
  simulateCircuit nodes wires = after_passes wires (passes nodes wires) nodes.
Proof.
  destruct (simulate_run_spec nodes wires) as (k & ch & Hrun & _).
  unfold simulateCircuit, passes. by rewrite Hrun.
Qed.

Lemma simulateCircuit_ids nodes wires :
  id <$> simulateCircuit nodes wires = id <$> nodes.
Proof. rewrite simulateCircuit_after. apply after_passes_ids. Qed.

Lemma simulate_loop_fuel wires fuel : ∀ nodes ch it,
  (MAX_ITERATIONS ≤ it + fuel)%nat →
  simulate_loop wires (S fuel) nodes ch it = simulate_loop wires fuel nodes ch it.
Proof.
  induction fuel as [|fuel IH]; intros nodes ch it Hfuel.
  { rewrite !simulate_loop_cap; [done|lia..]. }
  cbn [simulate_loop].
  destruct (ch && (it <? MAX_ITERATIONS)%nat) eqn:Hcond; [|done].
  destruct (pass wires nodes) as [nextNodes changed'].
  rewrite <- IH by lia. done.
Qed.

Lemma simulate_loop_enough wires fuel nodes :
  (MAX_ITERATIONS ≤ fuel)%nat →
  simulate_loop wires fuel nodes true 0 = simulate_run nodes wires.
Proof.
  unfold simulate_run. intros Hfuel.
  replace fuel with ((fuel - MAX_ITERATIONS) + MAX_ITERATIONS)%nat by lia.
  induction (fuel - MAX_ITERATIONS)%nat as [|d IH]; [done|].
  cbn [Nat.add]. rewrite simulate_loop_fuel; [done|lia].
Qed.

Lemma fixed_point_after wires nodes k :
  next_nodes wires nodes = nodes → after_passes wires k nodes = nodes.
Proof.
  intros Hfix. induction k as [|k IH]; [done|].
  by rewrite after_passes_S, IH.
Qed.

Lemma after_passes_add wires j k nodes :
  after_passes wires (j + k) nodes
  = after_passes wires j (after_passes wires k nodes).
Proof. unfold after_passes. apply Nat.iter_add. Qed.

(** A fixed point reached after [k] passes is the state after any later
    pass. *)
Lemma settled_later wires nodes k m :
  after_passes wires (S k) nodes = after_passes wires k nodes → (k ≤ m)%nat →
  after_passes wires m nodes = after_passes wires k nodes.
Proof.
  intros Hfix Hle. replace m with ((m - k) + k)%nat by lia.
  rewrite after_passes_add. by apply fixed_point_after.
Qed.

Lemma simulateCircuit_fixed_point nodes wires :
  next_nodes wires nodes = nodes → simulate_run nodes wires = (nodes, false, 1%nat).
Proof.
  intros Hfix. unfold simulate_run, MAX_ITERATIONS.
  rewrite simulate_loop_true by (unfold MAX_ITERATIONS; lia).
  by rewrite decide_True.
Qed.

Lemma ranked_acyclic (rank : string → nat) wires :
  Forall (λ w, rank (sourceNodeId w) < rank (targetNodeId w))%nat wires →
  acyclic wires.
Proof.
  intros Hrank nodeId Hcycle.
  assert (∀ s t, tc (drives wires) s t → (rank s < rank t)%nat) as Hlt.
  { intros s t Htc. induction Htc as [s t (w & Hin & <- & <-)|s m t (w & Hin & <- & <-) _ IH].
    - rewrite Forall_forall in Hrank. by apply Hrank.
    - rewrite Forall_forall in Hrank. specialize (Hrank w Hin). lia. }
  specialize (Hlt _ _ Hcycle). lia.
Qed.

(** C4. For every circuit, cyclic or not, [simulateCircuit] performs at least
    one and at most 50 passes and returns the node list of the last pass it
    completed. Every pass before the last one changed a value, so the loop
    stops after the first pass that changed nothing; if fewer than 50 passes
    were made, the last one changed nothing; if each of the first 50 passes
    changes a value, the result is the list after the 50th pass. The loop
    ends by its own test: unrolling it further than the cap gives the same
    result, and no step of it can fail. *)
Theorem simulateCircuit_pass_cap (nodes : list CircuitNode) (wires : list Wire) :
  MAX_ITERATIONS = 50%nat ∧
  (1 ≤ passes nodes wires ≤ MAX_ITERATIONS)%nat ∧
  simulateCircuit nodes wires = after_passes wires (passes nodes wires) nodes ∧
  (∀ j, (S j < passes nodes wires)%nat →
        after_passes wires (S j) nodes ≠ after_passes wires j nodes) ∧
  (∀ j, (j < MAX_ITERATIONS)%nat →
        after_passes wires (S j) nodes = after_passes wires j nodes →
        (passes nodes wires ≤ S j)%nat) ∧
  ((passes nodes wires < MAX_ITERATIONS)%nat →
   next_nodes wires (simulateCircuit nodes wires) = simulateCircuit nodes wires) ∧
  ((∀ j, (j < MAX_ITERATIONS)%nat →
         after_passes wires (S j) nodes ≠ after_passes wires j nodes) →
   passes nodes wires = MAX_ITERATIONS ∧
   simulateCircuit nodes wires = after_passes wires MAX_ITERATIONS nodes) ∧
  (∀ fuel, (MAX_ITERATIONS ≤ fuel)%nat →
           simulate_loop wires fuel nodes true 0 = simulate_run nodes wires).
Proof.
  destruct (simulate_run_spec nodes wires) as (k & ch & Hrun & Hle & Hbefore & Hlast).
  unfold simulateCircuit, passes. rewrite Hrun. cbn [fst snd].
  split_and!.
  - done.
  - lia.
  - done.
  - done.
  - intros j Hj. apply Hbefore. lia.
  - intros j Hj Hsame. destruct (decide (k ≤ j)%nat) as [|Hgt]; [lia|].
    exfalso. apply (Hbefore j); [lia|done].
  - intros Hlt. destruct ch; [lia|].
    rewrite Hlast. exact Hlast.
  - intros Hall. destruct ch; [by destruct Hlast as [-> _]|].
    exfalso. apply (Hall k); [lia|done].
  - intros fuel. rewrite <- Hrun. apply simulate_loop_enough.
Qed.

(** Number of passes of a run on an acyclic circuit. *)
Lemma acyclic_passes nodes wires :
  acyclic wires → (passes nodes wires ≤ S (length nodes))%nat.
Proof.
  intros Hac. pose proof (acyclic_settles nodes wires Hac) as Hfix.
  destruct (simulate_run_spec nodes wires) as (k & ch & Hrun & _ & Hbefore & _).
  unfold passes. rewrite Hrun. cbn [snd].
  destruct (decide (k ≤ length nodes)%nat) as [|Hgt]; [lia|].
  exfalso. apply (Hbefore (length nodes)); [lia|done].
Qed.

(** C1 (amended). In a circuit whose wire graph is acyclic, whatever its
    size, the node values reach a fixed point of the evaluation pass after at
    most [|nodes|] passes, and [simulateCircuit] makes at most [|nodes| + 1]
    passes. When the circuit has no more nodes than the cap of 50 passes,
    [simulateCircuit] returns that fixed point and a second call on its own
    output returns it unchanged. *)
Theorem acyclic_fixed_point (nodes : list CircuitNode) (wires : list Wire) :
  acyclic wires →
  next_nodes wires (after_passes wires (length nodes) nodes)
  = after_passes wires (length nodes) nodes ∧
  (passes nodes wires ≤ S (length nodes))%nat ∧
  ((length nodes ≤ MAX_ITERATIONS)%nat →
   simulateCircuit nodes wires = after_passes wires (length nodes) nodes ∧
   next_nodes wires (simulateCircuit nodes wires)
   = simulateCircuit nodes wires ∧
   simulateCircuit (simulateCircuit nodes wires) wires
   = simulateCircuit nodes wires).
Proof.
  intros Hac. pose proof (acyclic_settles nodes wires Hac) as Hfix.
  rewrite <- after_passes_S in Hfix.
  split; [done|]. split; [by apply acyclic_passes|]. intros Hsize.
  assert (simulateCircuit nodes wires = after_passes wires (length nodes) nodes)
    as Hres.
  { destruct (simulate_run_spec nodes wires) as (k & ch & Hrun & Hle & Hbefore & Hlast).
    unfold simulateCircuit. rewrite Hrun. cbn [fst].
    destruct (decide (length nodes ≤ S k)%nat) as [|Hgt].
    - by apply settled_later.
    - destruct ch; [lia|]. symmetry. rewrite Hlast.
      apply settled_later; [done|lia]. }
  split_and!.
  - done.
  - by rewrite Hres, <- after_passes_S.
  - unfold simulateCircuit at 1.
    rewrite simulateCircuit_fixed_point; [done|].
    by rewrite Hres, <- after_passes_S.
Qed.

Lemma case1_wires_acyclic : acyclic case1_wires.
Proof.
  apply (ranked_acyclic first_code). unfold case1_wires.
  repeat constructor.
Qed.

Lemma acyclic_fixed_point_witness :
  acyclic case1_wires ∧ (length case1_nodes ≤ MAX_ITERATIONS)%nat ∧
  next_nodes case1_wires
    (after_passes case1_wires (length case1_nodes) case1_nodes)
  = after_passes case1_wires (length case1_nodes) case1_nodes ∧
  (passes case1_nodes case1_wires ≤ S (length case1_nodes))%nat ∧
  simulateCircuit case1_nodes case1_wires
  = after_passes case1_wires (length case1_nodes) case1_nodes ∧
  simulateCircuit (simulateCircuit case1_nodes case1_wires) case1_wires
  = simulateCircuit case1_nodes case1_wires.
Proof.
  assert (length case1_nodes ≤ MAX_ITERATIONS)%nat as Hsize
    by (vm_compute; lia).
  destruct (acyclic_fixed_point case1_nodes case1_wires case1_wires_acyclic)
    as (Hfix & Hpasses & Hcap).
  destruct (Hcap Hsize) as (Hres & _ & Hidem).
  split_and!; [exact case1_wires_acyclic|exact Hsize|exact Hfix|exact Hpasses
              |exact Hres|exact Hidem].
Defined.

Lemma not_chain_acyclic n : (n ≤ 200)%nat → acyclic (not_chain_wires n).
Proof.
  intros Hn. apply (ranked_acyclic first_code).
  unfold not_chain_wires. apply Forall_fmap, Forall_forall.
  intros k Hk. apply elem_of_seq in Hk. cbn.
  rewrite !Ascii.nat_ascii_embedding by lia. lia.
Qed.

(** C1 as stated fails on an acyclic chain of 51 NOT gates: the cap of 50
    passes is reached before the last gate settles, the result is not a fixed
    point and a second call changes a value. *)
Lemma not_chain_51_unsettled :
  acyclic (not_chain_wires 51) ∧
  length (not_chain_nodes 51) = 51%nat ∧
  passes (not_chain_nodes 51) (not_chain_wires 51) = 50%nat ∧
  simulateCircuit (simulateCircuit (not_chain_nodes 51) (not_chain_wires 51))
    (not_chain_wires 51)
  ≠ simulateCircuit (not_chain_nodes 51) (not_chain_wires 51).
Proof.
  split_and!.
  - apply not_chain_acyclic. lia.
  - reflexivity.
  - vm_compute. reflexivity.
  - intros Heq. apply (f_equal (fmap value)) in Heq.
    vm_compute in Heq. discriminate.
Qed.

(** ** 32-bit operators on the values the truth table uses *)

Lemma toInt32_range z : - 2 ^ 31 ≤ toInt32 z < 2 ^ 31.
Proof.
  unfold toInt32. pose proof (Z.mod_pos_bound (z + 2 ^ 31) (2 ^ 32)). lia.
Qed.

Lemma toInt32_small z : - 2 ^ 31 ≤ z < 2 ^ 31 → toInt32 z = z.
Proof. intros Hz. unfold toInt32. rewrite Z.mod_small; lia. Qed.

Lemma shl32_one n : 0 ≤ n ≤ 30 → shl32 1 n = 2 ^ n.
Proof.
  intros Hn. unfold shl32. rewrite (toInt32_small 1) by lia.
  rewrite Z.mod_small by lia. rewrite Z.shiftl_1_l.
  apply toInt32_small.
  assert (2 ^ n ≤ 2 ^ 30) by (apply Z.pow_le_mono_r; lia).
  assert (0 < 2 ^ n) by (apply Z.pow_pos_nonneg; lia). lia.
Qed.

Lemma land_one_testbit a : (Z.land a 1 =? 1) = Z.testbit a 0.
Proof.
  pose proof (Z.land_ones a 1 ltac:(lia)) as Hland.
  change (Z.ones 1) with 1 in Hland. change (2 ^ 1) with 2 in Hland.
  rewrite Hland, <- Z.bit0_mod. by destruct (Z.testbit a 0).
Qed.

(** On a row index, [((i >> c) & 1) === 1] is bit [c mod 32] of [i]: the
    shift count of [>>] is taken modulo 32. *)
Lemma input_bit_testbit_mod i len idx :
  0 ≤ i < 2 ^ 31 →
  input_bit i len idx = Z.testbit i ((len - 1 - idx) mod 32).
Proof.
  intros Hi. unfold input_bit, and32, shr32.
  pose proof (Z.mod_pos_bound (len - 1 - idx) 32 ltac:(lia)) as Hc.
  rewrite (toInt32_small i), (toInt32_small 1) by lia.
  rewrite (toInt32_small (i ≫ _)).
  - rewrite land_one_testbit, Z.shiftr_spec by lia. by f_equal.
  - rewrite Z.shiftr_div_pow2 by lia.
    assert (0 < 2 ^ ((len - 1 - idx) mod 32)) by (apply Z.pow_pos_nonneg; lia).
    assert (0 ≤ i `div` 2 ^ ((len - 1 - idx) mod 32) ≤ i); [|lia].
    split; [apply Z.div_pos; lia|]. apply Z.div_le_upper_bound; nia.
Qed.

Lemma input_bit_testbit i len idx :
  0 ≤ i < 2 ^ 31 → 0 ≤ len - 1 - idx < 32 →
  input_bit i len idx = Z.testbit i (len - 1 - idx).
Proof.
  intros Hi Hk. rewrite input_bit_testbit_mod by done.
  by rewrite Z.mod_small.
Qed.

(** ** Assignment to a key of a plain object *)

Lemma obj_set_lookup_ne key v (obj : gmap string bool) l :
  l ≠ key → obj_set key v obj !! l = obj !! l.
Proof.
  intros Hne. unfold obj_set. case_decide; [done|].
  by rewrite lookup_insert_ne.
Qed.

Lemma obj_set_lookup_eq key v (obj : gmap string bool) :
  key ≠ "__proto__" → obj_set key v obj !! key = Some v.
Proof.
  intros Hne. unfold obj_set. rewrite decide_False by done.
  by rewrite lookup_insert_eq.
Qed.

Lemma obj_set_dom key v (obj : gmap string bool) :
  dom (obj_set key v obj) = ({[key]} ∖ {["__proto__"]}) ∪ dom obj.
Proof.
  unfold obj_set. case_decide as Hk.
  - subst key. apply set_eq. intros l.
    rewrite elem_of_union, elem_of_difference, !elem_of_singleton. tauto.
  - rewrite dom_insert_L. apply set_eq. intros l.
    rewrite !elem_of_union, elem_of_difference, !elem_of_singleton.
    split; [|tauto]. intros [->|?]; [|tauto]. left. by split.
Qed.

Lemma own_keys_cons (l : string) (ls : list string) (d : gset string) :
  (({[l]} ∖ {["__proto__"]}) ∪ ((list_to_set ls ∖ {["__proto__"]}) ∪ d)
   : gset string)
  = (list_to_set (l :: ls) ∖ {["__proto__"]}) ∪ d.
Proof.
  apply set_eq. intros k. rewrite list_to_set_cons.
  rewrite !elem_of_union, !elem_of_difference, elem_of_union,
    !elem_of_singleton.
  tauto.
Qed.

(** ** The rows *)

Lemma record_inputs_other i len inps : ∀ idx rowInputs l,
  l ∉ label <$> inps →
  record_inputs i len idx inps rowInputs !! l = rowInputs !! l.
Proof.
  induction inps as [|inp rest IH]; intros idx rowInputs l Hl; [done|].
  rewrite fmap_cons, not_elem_of_cons in Hl. destruct Hl as [Hne Hl].
  cbn [record_inputs]. rewrite IH by done. by apply obj_set_lookup_ne.
Qed.

Lemma record_inputs_lookup i len inps : ∀ idx rowInputs j inp,
  NoDup (label <$> inps) → inps !! j = Some inp →
  label inp ≠ "__proto__" →
  record_inputs i len idx inps rowInputs !! label inp
  = Some (input_bit i len (idx + Z.of_nat j)).
Proof.
  induction inps as [|inp0 rest IH]; intros idx rowInputs j inp Hnd Hj Hl;
    [done|].
  rewrite fmap_cons in Hnd. apply NoDup_cons in Hnd as [Hnotin Hnd].
  cbn [record_inputs]. destruct j as [|j].
  - injection Hj as ->. rewrite record_inputs_other by done.
    rewrite obj_set_lookup_eq by done. do 2 f_equal. lia.
  - cbn in Hj. rewrite (IH _ _ j) by done. do 2 f_equal. lia.
Qed.

Lemma record_inputs_dom i len inps : ∀ idx rowInputs,
  dom (record_inputs i len idx inps rowInputs)
  = (list_to_set (label <$> inps) ∖ {["__proto__"]}) ∪ dom rowInputs.
Proof.
  induction inps as [|inp rest IH]; intros idx rowInputs; cbn [record_inputs].
  { apply set_eq. intros l.
    rewrite elem_of_union, elem_of_difference, elem_of_list_to_set.
    rewrite elem_of_nil. tauto. }
  rewrite IH, obj_set_dom, fmap_cons, <- own_keys_cons.
  apply set_eq. intros l. rewrite !elem_of_union. tauto.
Qed.

Lemma fold_outputs_other tempNodes outs l : ∀ acc : gmap string bool,
  l ∉ label <$> outs →
  foldl (λ rowOutputs out,
           obj_set (label out)
             match find_node (id out) tempNodes with
             | Some c => value c
             | None => false
             end rowOutputs) acc outs !! l
  = acc !! l.
Proof.
  induction outs as [|out outs IH]; intros acc Hl; [done|].
  rewrite fmap_cons, not_elem_of_cons in Hl. destruct Hl as [Hne Hl].
  cbn [foldl]. rewrite IH by done. by apply obj_set_lookup_ne.
Qed.

Lemma fold_outputs_dom tempNodes outs : ∀ acc : gmap string bool,
  dom (foldl (λ rowOutputs out,
                obj_set (label out)
                  match find_node (id out) tempNodes with
                  | Some c => value c
                  | None => false
                  end rowOutputs) acc outs)
  = (list_to_set (label <$> outs) ∖ {["__proto__"]}) ∪ dom acc.
Proof.
  induction outs as [|out outs IH]; intros acc; cbn [foldl].
  { apply set_eq. intros l.
    rewrite elem_of_union, elem_of_difference, elem_of_list_to_set.
    rewrite elem_of_nil. tauto. }
  rewrite IH, obj_set_dom, fmap_cons, <- own_keys_cons.
  apply set_eq. intros l. rewrite !elem_of_union. tauto.
Qed.

Lemma record_outputs_dom tempNodes outs :
  dom (record_outputs tempNodes outs)
  = list_to_set (label <$> outs) ∖ {["__proto__"]}.
Proof.
  unfold record_outputs. rewrite fold_outputs_dom, dom_empty_L.
  apply (right_id_L (∅ : gset string) (∪)).
Qed.

Lemma fold_outputs_lookup tempNodes outs out : ∀ acc : gmap string bool,
  NoDup (label <$> outs) → out ∈ outs → label out ≠ "__proto__" →
  foldl (λ rowOutputs out,
           obj_set (label out)
             match find_node (id out) tempNodes with
             | Some c => value c
             | None => false
             end rowOutputs) acc outs !! label out
  = Some (default false (value_of (id out) tempNodes)).
Proof.
  induction outs as [|o outs IH]; intros acc Hnd Hin Hl.
  { by apply elem_of_nil in Hin. }
  rewrite fmap_cons in Hnd. apply NoDup_cons in Hnd as [Hnotin Hnd].
  cbn [foldl]. apply elem_of_cons in Hin as [->|Hin].
  - rewrite fold_outputs_other by done.
    rewrite obj_set_lookup_eq by done. unfold value_of.
    by destruct (find_node (id o) tempNodes).
  - by apply IH.
Qed.

Lemma record_outputs_lookup tempNodes outs out :
  NoDup (label <$> outs) → out ∈ outs → label out ≠ "__proto__" →
  record_outputs tempNodes outs !! label out
  = Some (default false (value_of (id out) tempNodes)).
Proof. apply fold_outputs_lookup. Qed.

Lemma set_input_states_lookup nodes inps i k node :
  nodes !! k = Some node →
  set_input_states nodes inps i !! k
  = Some (if decide (type node = INPUT)
          then with_value node
                 (input_bit i (Z.of_nat (length inps))
                    (findIndex (λ inp, String.eqb (id inp) (id node)) inps))
          else node).
Proof.
  intros Hk. unfold set_input_states. rewrite list_lookup_fmap, Hk.
  cbn. by destruct (type node).
Qed.

Lemma set_input_states_ids nodes inps i :
  id <$> set_input_states nodes inps i = id <$> nodes.
Proof.
  unfold set_input_states. rewrite <- list_fmap_compose.
  apply list_fmap_ext. intros ? n _. cbn. by destruct (type n).
Qed.

(** ** The sorted node lists *)

Section TruthTableFacts.

Variable localeCompare : string → string → Z.

Lemma sorted_of_type_perm t nodes :
  sorted_of_type localeCompare t nodes ≡ₚ filter (λ n, type n = t) nodes.
Proof. apply js_sort_perm. Qed.

Lemma sorted_of_type_length t nodes :
  length (sorted_of_type localeCompare t nodes)
  = length (filter (λ n, type n = t) nodes).
Proof. by rewrite sorted_of_type_perm. Qed.

(** The table for a number of inputs that [1 << n] can hold. *)
Lemma generateTruthTable_rows nodes wires :
  let inps := sorted_of_type localeCompare INPUT nodes in
  let outs := sorted_of_type localeCompare OUTPUT nodes in
  (1 ≤ length inps ≤ 30)%nat →
  generateTruthTable localeCompare nodes wires
  = table_row nodes wires inps outs <$> seqZ 0 (2 ^ Z.of_nat (length inps)).
Proof.
  intros inps outs Hn. unfold generateTruthTable. fold inps outs.
  destruct (length inps =? 0)%nat eqn:H0; [apply Nat.eqb_eq in H0; lia|].
  by rewrite shl32_one by lia.
Qed.

(** Every row of a table, for any number of inputs, is the row built for
    its index, and the index is a non-negative 32-bit integer. *)
Lemma generateTruthTable_row nodes wires (i : nat) row :
  let inps := sorted_of_type localeCompare INPUT nodes in
  let outs := sorted_of_type localeCompare OUTPUT nodes in
  generateTruthTable localeCompare nodes wires !! i = Some row →
  row = table_row nodes wires inps outs (Z.of_nat i) ∧
  0 ≤ Z.of_nat i < 2 ^ 31.
Proof.
  intros inps outs. unfold generateTruthTable. fold inps outs.
  destruct (length inps =? 0)%nat; [done|].
  rewrite list_lookup_fmap.
  destruct (seqZ 0 _ !! i) as [z|] eqn:Hz; [|done].
  apply lookup_seqZ in Hz as [-> Hlt]. cbn. intros [= <-].
  pose proof (toInt32_range (Z.shiftl (toInt32 1)
                               (Z.of_nat (length inps) mod 32))) as Hr.
  unfold shl32 in Hlt. split; [done|lia].
Qed.

Lemma generateTruthTable_no_input nodes wires :
  length (filter (λ n, type n = INPUT) nodes) = 0%nat →
  generateTruthTable localeCompare nodes wires = [].
Proof.
  intros Hn. unfold generateTruthTable.
  by rewrite sorted_of_type_length, Hn.
Qed.

Lemma generateTruthTable_length nodes wires :
  let n := length (filter (λ n, type n = INPUT) nodes) in
  (1 ≤ n ≤ 30)%nat →
  length (generateTruthTable localeCompare nodes wires) = (2 ^ n)%nat.
Proof.
  intros n Hn. rewrite generateTruthTable_rows
    by by rewrite sorted_of_type_length.
  rewrite length_fmap, length_seqZ, sorted_of_type_length. fold n.
  rewrite <- (Nat2Z.id (2 ^ n)). f_equal. by rewrite Nat2Z.inj_pow.
Qed.

(** With 31 INPUT nodes [1 << 31] is negative and the loop body never
    runs; with 32 it is 1. *)
Lemma generateTruthTable_31 nodes wires :
  length (filter (λ n, type n = INPUT) nodes) = 31%nat →
  generateTruthTable localeCompare nodes wires = [].
Proof.
  intros Hn. unfold generateTruthTable.
  by rewrite sorted_of_type_length, Hn.
Qed.

Lemma generateTruthTable_32 nodes wires :
  length (filter (λ n, type n = INPUT) nodes) = 32%nat →
  length (generateTruthTable localeCompare nodes wires) = 1%nat.
Proof.
  intros Hn. unfold generateTruthTable.
  by rewrite sorted_of_type_length, Hn.
Qed.

End TruthTableFacts.

Lemma findIndex_lookup (inps : list CircuitNode) j inp :
  NoDup (id <$> inps) → inps !! j = Some inp →
  findIndex (λ x, String.eqb (id x) (id inp)) inps = Z.of_nat j.
Proof.
  intros Hnd Hj. unfold findIndex.
  destruct (list_find _ inps) as [[k n]|] eqn:Hfind.
  - apply list_find_Some in Hfind as (Hk & Heq & _).
    apply String.eqb_eq in Heq. f_equal.
    eapply NoDup_lookup; [done| |]; rewrite list_lookup_fmap.
    + by rewrite Hk.
    + rewrite Hj. cbn. by rewrite Heq.
  - exfalso. apply list_find_None in Hfind.
    rewrite Forall_forall in Hfind. apply (Hfind inp).
    + by eapply list_elem_of_lookup_2.
    + by apply String.eqb_eq.
Qed.

(** [findIndex] by id finds the first node of that id when there is one. *)
Lemma findIndex_first (inps : list CircuitNode) (nodeId : string) :
  nodeId ∈ id <$> inps →
  ∃ (j : nat) inp,
    inps !! j = Some inp ∧ id inp = nodeId ∧
    (∀ (j' : nat) inp', (j' < j)%nat → inps !! j' = Some inp' →
                        id inp' ≠ nodeId) ∧
    findIndex (λ x, String.eqb (id x) nodeId) inps = Z.of_nat j.
Proof.
  intros Hin. unfold findIndex.
  destruct (list_find _ inps) as [[j inp]|] eqn:Hfind.
  - apply list_find_Some in Hfind as (Hj & Heq & Hfirst).
    apply String.eqb_eq in Heq. exists j, inp. split_and!; [done..| |done].
    intros j' inp' Hlt Hj' Hid. apply (Hfirst j' inp' Hj' Hlt).
    by apply String.eqb_eq.
  - exfalso. apply list_find_None in Hfind. rewrite Forall_forall in Hfind.
    apply list_elem_of_fmap in Hin as (inp & -> & Hin).
    apply (Hfind inp Hin). by apply String.eqb_eq.
Qed.

Section TruthTableClaims.

Variable localeCompare : string → string → Z.

Lemma table_lookup nodes wires (i : nat) :
  let inps := sorted_of_type localeCompare INPUT nodes in
  let outs := sorted_of_type localeCompare OUTPUT nodes in
  (1 ≤ length inps ≤ 30)%nat → (i < 2 ^ length inps)%nat →
  generateTruthTable localeCompare nodes wires !! i
  = Some (table_row nodes wires inps outs (Z.of_nat i)).
Proof.
  intros inps outs Hn Hi. rewrite generateTruthTable_rows by done.
  fold inps outs. rewrite list_lookup_fmap, lookup_seqZ_lt; [done|].
  apply Nat2Z.inj_lt in Hi. by rewrite Nat2Z.inj_pow in Hi.
Qed.

(** C2 (amended). For a circuit with [n] INPUT nodes, [1 ≤ n ≤ 30], whose
    labels are pairwise distinct, with the inputs sorted by label: the
    table has the [2^n] rows of indices [0 .. 2^n - 1] in ascending order,
    row [i] is the row built for index [i], and the value it records for the
    [j]-th sorted input is bit [n - 1 - j] of [i], so the first sorted input
    is the most significant bit. The one exception is an input labelled
    ["__proto__"]: the row is a plain object, on which an assignment to that
    key records nothing, so the keys of the row's inputs are the input
    labels other than ["__proto__"]. The sorted list is a rearrangement of
    the INPUT nodes and, when the collation is total, ascending. *)
Theorem truth_table_rows_binary (nodes : list CircuitNode)
    (wires : list Wire) :
  let inps := sorted_of_type localeCompare INPUT nodes in
  let outs := sorted_of_type localeCompare OUTPUT nodes in
  let n := length inps in
  (1 ≤ n ≤ 30)%nat →
  NoDup (label <$> inps) →
  inps ≡ₚ filter (λ node, type node = INPUT) nodes ∧
  ((∀ a b, 0 < localeCompare a b → localeCompare b a ≤ 0) →
   Sorted (λ a b, localeCompare (label a) (label b) ≤ 0) inps) ∧
  length (generateTruthTable localeCompare nodes wires) = (2 ^ n)%nat ∧
  ∀ i : nat, (i < 2 ^ n)%nat →
    ∃ row, generateTruthTable localeCompare nodes wires !! i = Some row ∧
           row = table_row nodes wires inps outs (Z.of_nat i) ∧
           dom (inputs row)
           = list_to_set (label <$> inps) ∖ {["__proto__"]} ∧
           inputs row !! "__proto__" = None ∧
           ∀ (j : nat) inp, inps !! j = Some inp →
             label inp ≠ "__proto__" →
             inputs row !! label inp
             = Some (Z.testbit (Z.of_nat i) (Z.of_nat (n - 1 - j))).
Proof.
  intros inps outs n Hn Hnd. split_and!.
  - apply sorted_of_type_perm.
  - intros Htotal. unfold inps, sorted_of_type.
    apply (js_sort_sorted (by_label localeCompare)). intros a b. apply Htotal.
  - unfold n, inps in *. rewrite sorted_of_type_length in Hn |- *.
    by apply generateTruthTable_length.
  - intros i Hi. eexists. split; [by apply table_lookup|].
    split; [done|]. cbn [table_row inputs].
    set (rowInputs := record_inputs _ _ _ _ _).
    assert (dom rowInputs = list_to_set (label <$> inps) ∖ {["__proto__"]})
      as Hdom.
    { unfold rowInputs. rewrite record_inputs_dom, dom_empty_L.
      apply (right_id_L (∅ : gset string) (∪)). }
    split_and!.
    + exact Hdom.
    + apply not_elem_of_dom. rewrite Hdom, elem_of_difference, elem_of_singleton.
      tauto.
    + intros j inp Hj Hl. pose proof (lookup_lt_Some _ _ _ Hj) as Hlt.
      fold n in Hlt. unfold rowInputs.
      rewrite (record_inputs_lookup _ _ _ _ _ j) by done.
      fold inps n. rewrite input_bit_testbit; [do 2 f_equal; lia| |lia].
      assert (Z.of_nat i < 2 ^ Z.of_nat n)
        by (apply Nat2Z.inj_lt in Hi; by rewrite Nat2Z.inj_pow in Hi).
      assert (2 ^ Z.of_nat n ≤ 2 ^ 30) by (apply Z.pow_le_mono_r; lia).
      lia.
Qed.

(** The working copy of a row: INPUT nodes get their bit, every other node is
    kept. *)
Lemma working_copy_frame (nodes inps : list CircuitNode) (i : Z) (k : nat)
    (node : CircuitNode) :
  nodes !! k = Some node →
  (type node ≠ INPUT → set_input_states nodes inps i !! k = Some node) ∧
  (type node = INPUT →
   set_input_states nodes inps i !! k
   = Some (with_value node
             (input_bit i (Z.of_nat (length inps))
                (findIndex (λ inp, String.eqb (id inp) (id node)) inps)))).
Proof.
  intros Hk. rewrite (set_input_states_lookup _ _ _ _ _ Hk).
  split; intros Ht; [by rewrite decide_False|by rewrite decide_True].
Qed.

(** The value that the working copy of a row gives to an INPUT node, and the
    entry the row records for it. *)
Lemma working_copy_input (nodes : list CircuitNode) (wires : list Wire)
    (i k : nat) (row : TruthTableRow) (node : CircuitNode) :
  let inps := sorted_of_type localeCompare INPUT nodes in
  let n := Z.of_nat (length inps) in
  generateTruthTable localeCompare nodes wires !! i = Some row →
  nodes !! k = Some node → type node = INPUT →
  ∃ (j : nat) inp,
    inps !! j = Some inp ∧ id inp = id node ∧
    (∀ (j' : nat) inp', (j' < j)%nat → inps !! j' = Some inp' →
                        id inp' ≠ id node) ∧
    set_input_states nodes inps (Z.of_nat i) !! k
    = Some (with_value node
              (Z.testbit (Z.of_nat i) ((n - 1 - Z.of_nat j) mod 32))) ∧
    (NoDup (label <$> inps) → label inp ≠ "__proto__" →
     inputs row !! label inp
     = Some (Z.testbit (Z.of_nat i) ((n - 1 - Z.of_nat j) mod 32))).
Proof.
  intros inps n Hrow Hk Ht.
  apply generateTruthTable_row in Hrow as [-> Hi]. fold inps.
  assert (id node ∈ id <$> inps) as Hin.
  { apply list_elem_of_fmap. exists node. split; [done|].
    unfold inps. rewrite sorted_of_type_perm. apply list_elem_of_filter.
    split; [done|]. by eapply list_elem_of_lookup_2. }
  destruct (findIndex_first inps (id node) Hin) as (j & inp & Hj & Hid & Hfirst & Hfind).
  exists j, inp. split_and!; [done..| |].
  - destruct (working_copy_frame nodes inps (Z.of_nat i) k node Hk) as [_ ->];
      [|done].
    by rewrite Hfind, input_bit_testbit_mod.
  - intros Hnd Hl. cbn [table_row inputs].
    rewrite (record_inputs_lookup _ _ _ _ _ j) by done.
    by rewrite input_bit_testbit_mod.
Qed.

(** The entry a row records for an OUTPUT node. *)
Lemma row_output (nodes : list CircuitNode) (wires : list Wire) (i : nat)
    (row : TruthTableRow) (out : CircuitNode) :
  let inps := sorted_of_type localeCompare INPUT nodes in
  generateTruthTable localeCompare nodes wires !! i = Some row →
  NoDup (label <$> filter (λ n, type n = OUTPUT) nodes) →
  out ∈ nodes → type out = OUTPUT → label out ≠ "__proto__" →
  ∃ v,
    value_of (id out)
      (simulateCircuit (set_input_states nodes inps (Z.of_nat i)) wires)
    = Some v ∧
    outputs row !! label out = Some v.
Proof.
  intros inps Hrow Hnd Hout Ht Hl.
  apply generateTruthTable_row in Hrow as [-> _]. fold inps.
  set (temp := simulateCircuit (set_input_states nodes inps (Z.of_nat i)) wires).
  assert (is_Some (value_of (id out) temp)) as [v Hv].
  { unfold value_of. destruct (find_node (id out) temp) eqn:Hfind; [by eexists|].
    exfalso. apply find_node_None in Hfind. apply Hfind.
    unfold temp. rewrite simulateCircuit_ids, set_input_states_ids. apply list_elem_of_fmap. eauto. }
  exists v. split; [done|]. cbn [table_row outputs]. fold temp.
  rewrite (record_outputs_lookup temp _ out), Hv; [done| | |done].
  - by rewrite (sorted_of_type_perm localeCompare OUTPUT nodes).
  - rewrite (sorted_of_type_perm localeCompare OUTPUT nodes).
    by apply list_elem_of_filter.
Qed.

(** C10. In [generateTruthTable] the working copy of row [i] leaves every
    node that is not an INPUT exactly as it is in the caller's list, value
    included. It gives each INPUT node a bit of [i]: with [j] the index of
    the first sorted input of the node's id, bit [(n - 1 - j) mod 32], the
    shift count of [>>] being taken modulo 32, which is bit [n - 1 - j] for
    up to 32 inputs; when the input labels are distinct this is the value
    the row records for that input. The row's outputs are read from the
    evaluation of that copy: under the label of an OUTPUT node, when the
    output labels are distinct, stands the value of the node of that id
    after the evaluation. The rows of INPUT "A" -> NOT -> OUTPUT "Y" and of
    an AND gate follow the bits. The recorded outputs can depend on the gate
    values of the list passed in: a latch (a cycle) and a chain deeper than
    the pass cap each give a different output in row 0 for two lists that
    differ only in the values of nodes that are not INPUTs. *)
Theorem truth_table_snapshot_dependence :
  (∀ (nodes inps : list CircuitNode) (i : Z) (k : nat) (node : CircuitNode),
      nodes !! k = Some node → type node ≠ INPUT →
      set_input_states nodes inps i !! k = Some node) ∧
  (∀ (nodes : list CircuitNode) (wires : list Wire) (i k : nat)
     (row : TruthTableRow) (node : CircuitNode),
      let inps := sorted_of_type localeCompare INPUT nodes in
      let n := Z.of_nat (length inps) in
      generateTruthTable localeCompare nodes wires !! i = Some row →
      nodes !! k = Some node → type node = INPUT →
      ∃ (j : nat) inp,
        inps !! j = Some inp ∧ id inp = id node ∧
        (∀ (j' : nat) inp', (j' < j)%nat → inps !! j' = Some inp' →
                            id inp' ≠ id node) ∧
        set_input_states nodes inps (Z.of_nat i) !! k
        = Some (with_value node
                  (Z.testbit (Z.of_nat i) ((n - 1 - Z.of_nat j) mod 32))) ∧
        (NoDup (label <$> inps) → label inp ≠ "__proto__" →
         inputs row !! label inp
         = Some (Z.testbit (Z.of_nat i) ((n - 1 - Z.of_nat j) mod 32)))) ∧
  (∀ (nodes : list CircuitNode) (wires : list Wire) (i : nat)
     (row : TruthTableRow) (out : CircuitNode),
      let inps := sorted_of_type localeCompare INPUT nodes in
      generateTruthTable localeCompare nodes wires !! i = Some row →
      NoDup (label <$> filter (λ n, type n = OUTPUT) nodes) →
      out ∈ nodes → type out = OUTPUT → label out ≠ "__proto__" →
      ∃ v,
        value_of (id out)
          (simulateCircuit (set_input_states nodes inps (Z.of_nat i)) wires)
        = Some v ∧
        outputs row !! label out = Some v) ∧
  (λ row, (inputs row !! "A", outputs row !! "Y"))
    <$> generateTruthTable localeCompare case1_nodes case1_wires
  = [(Some false, Some true); (Some true, Some false)] ∧
  (λ row, (inputs row !! "A", inputs row !! "B", outputs row !! "Y"))
    <$> generateTruthTable byte_compare case2_nodes case2_wires
  = [(Some false, Some false, Some false); (Some false, Some true, Some false);
     (Some true, Some false, Some false); (Some true, Some true, Some true)] ∧
  (∃ row1 row0,
      generateTruthTable localeCompare (latch_nodes true) latch_wires !! 0%nat
      = Some row1 ∧
      generateTruthTable localeCompare (latch_nodes false) latch_wires !! 0%nat
      = Some row0 ∧
      outputs row1 !! "Y" = Some true ∧ outputs row0 !! "Y" = Some false) ∧
  (∃ row1 row0,
      generateTruthTable localeCompare
        (long_chain_nodes (replicate 51 true)) long_chain_wires !! 0%nat
      = Some row1 ∧
      generateTruthTable localeCompare
        (long_chain_nodes (replicate 51 false)) long_chain_wires !! 0%nat
      = Some row0 ∧
      outputs row1 !! "Y" = Some false ∧ outputs row0 !! "Y" = Some true).
Proof.
  split_and!.
  - intros nodes inps i k node Hk Ht.
    by apply (working_copy_frame nodes inps i k node Hk).
  - intros nodes wires i k row node. apply working_copy_input.
  - intros nodes wires i row out. apply row_output.
  - vm_compute. reflexivity.
  - vm_compute. reflexivity.
  - do 2 eexists. split_and!; [reflexivity..| |]; vm_compute; reflexivity.
  - do 2 eexists. split_and!; [reflexivity..| |]; vm_compute; reflexivity.
Qed.

End TruthTableClaims.

(** C2 as stated fails when two INPUT nodes share a label: the row is keyed
    by label, so in row 2 of the table of two inputs labelled "A" the value
    recorded for the first sorted input is the bit of the second one. *)
Lemma duplicate_label_row :
  let inps := sorted_of_type byte_compare INPUT dup_label_nodes in
  length inps = 2%nat ∧
  ∃ inp row,
    inps !! 0%nat = Some inp ∧
    generateTruthTable byte_compare dup_label_nodes [] !! 2%nat = Some row ∧
    inputs row !! label inp = Some false ∧
    Z.testbit 2 (Z.of_nat (2 - 1 - 0)) = true.
Proof.
  split; [reflexivity|]. do 2 eexists.
  split_and!; [reflexivity..| |]; vm_compute; reflexivity.
Qed.

(** A single INPUT labelled ["__proto__"] has a label of its own, but row 1
    of its table records no value for it. *)
Lemma proto_label_row :
  let inps := sorted_of_type byte_compare INPUT proto_label_nodes in
  NoDup (label <$> inps) ∧
  ∃ inp row,
    inps !! 0%nat = Some inp ∧
    generateTruthTable byte_compare proto_label_nodes [] !! 1%nat = Some row ∧
    inputs row !! label inp = None ∧
    dom (inputs row) = ∅.
Proof.
  split; [compute_done|]. do 2 eexists.
  split_and!; [reflexivity..| |]; by vm_compute.
Qed.

Lemma byte_compare_total a b : 0 < byte_compare a b → byte_compare b a ≤ 0.
Proof.
  unfold byte_compare. rewrite (String.compare_antisym a b).
  destruct (String.compare b a); cbn; lia.
Qed.

Lemma truth_table_rows_binary_witness :
  let inps := sorted_of_type byte_compare INPUT case2_nodes in
  (1 ≤ length inps ≤ 30)%nat ∧ NoDup (label <$> inps) ∧
  label <$> inps = ["A"; "B"] ∧
  length (generateTruthTable byte_compare case2_nodes case2_wires) = 4%nat ∧
  ∃ row,
    generateTruthTable byte_compare case2_nodes case2_wires !! 2%nat
    = Some row ∧
    dom (inputs row) = list_to_set ["A"; "B"] ∖ {["__proto__"]} ∧
    inputs row !! "A" = Some true ∧ inputs row !! "B" = Some false.
Proof.
  assert (1 ≤ length (sorted_of_type byte_compare INPUT case2_nodes) ≤ 30)%nat
    as Hn by (vm_compute; lia).
  assert (NoDup (label <$> sorted_of_type byte_compare INPUT case2_nodes))
    as Hnd by compute_done.
  destruct (truth_table_rows_binary byte_compare case2_nodes case2_wires Hn Hnd)
    as (_ & _ & Hlen & Hrows).
  destruct (Hrows 2%nat ltac:(vm_compute; lia))
    as (row & Hrow & _ & Hdom & _ & Hbits).
  split_and!; [apply Hn..|exact Hnd|reflexivity|exact Hlen|].
  exists row. split_and!; [exact Hrow|exact Hdom| |].
  - apply (Hbits 0%nat (gate "a" INPUT "A" false)); [reflexivity|done].
  - apply (Hbits 1%nat (gate "b" INPUT "B" false)); [reflexivity|done].
Defined.

(** C5 fails on the code for 31 INPUT nodes: [1 << 31] is negative in 32-bit
    arithmetic, the loop body never runs and the table is empty instead of
    having [2^31] rows. *)
Theorem truth_table_31_inputs_empty :
  length (filter (λ n, type n = INPUT) (input_bank 31)) = 31%nat ∧
  shl32 1 31 = - 2 ^ 31 ∧
  generateTruthTable byte_compare (input_bank 31) [] = [].
Proof. split_and!; by vm_compute. Qed.

(** ** Termination of buildExpr *)

Lemma mapM_total {A B} (f : A → option B) (g : A → B) (l : list A) :
  (∀ a, a ∈ l → f a = Some (g a)) → mapM f l = Some (g <$> l).
Proof.
  intros Hf. apply mapM_Some_2, Forall2_fmap_r, Forall_Forall2_diag, Forall_forall.
  done.
Qed.

Lemma mapM_impl {A B} (f g : A → option B) (l : list A) k :
  (∀ a b, a ∈ l → f a = Some b → g a = Some b) →
  mapM f l = Some k → mapM g l = Some k.
Proof.
  intros Hfg Hf. apply mapM_Some_2. apply mapM_Some_1 in Hf.
  induction Hf as [|a b l k Hab _ IH]; constructor.
  - apply Hfg; [by left|done].
  - apply IH. intros a' b' Hin. apply Hfg. by right.
Qed.

Lemma size_list_to_set_length (l : list string) :
  (size (list_to_set l : gset string) ≤ length l)%nat.
Proof.
  induction l as [|a l IH]; [by rewrite list_to_set_nil, size_empty|].
  rewrite list_to_set_cons, size_union_alt, size_singleton. cbn [length].
  assert (size (list_to_set l ∖ {[a]} : gset string)
          ≤ size (list_to_set l : gset string))%nat
    by (apply subseteq_size, subseteq_difference_l; done).
  lia.
Qed.

Section Expression.

Variable nodes : list CircuitNode.
Variable wires : list Wire.

(** More fuel never changes a result. *)
Lemma buildExpr_S fuel : ∀ nodeId visited s,
  buildExpr nodes wires fuel nodeId visited = Some s →
  buildExpr nodes wires (S fuel) nodeId visited = Some s.
Proof.
  induction fuel as [|fuel IH]; intros nodeId visited s Hs; [done|].
  cbn [buildExpr] in Hs |- *.
  destruct (decide (nodeId ∈ visited)); [done|].
  destruct (find_node nodeId nodes) as [node|]; [|done].
  destruct (type node); try done;
    (destruct (mapM _ _) as [sources|] eqn:Hmap in Hs; [|done];
     erewrite mapM_impl; [exact Hs| |exact Hmap];
     intros w b _; apply IH).
Qed.

Lemma buildExpr_mono fuel fuel' nodeId visited s :
  (fuel ≤ fuel')%nat →
  buildExpr nodes wires fuel nodeId visited = Some s →
  buildExpr nodes wires fuel' nodeId visited = Some s.
Proof.
  intros Hle Hs. induction Hle as [|fuel' _ IH]; [done|].
  by apply buildExpr_S.
Qed.

Lemma unvisited_bound visited :
  (size (unvisited nodes visited) ≤ length nodes)%nat.
Proof.
  unfold unvisited. etrans; [apply subseteq_size, subseteq_difference_l; done|].
  etrans; [apply size_list_to_set_length|]. by rewrite length_fmap.
Qed.

Lemma unvisited_shrinks nodeId visited node :
  nodeId ∉ visited → find_node nodeId nodes = Some node →
  (size (unvisited nodes ({[nodeId]} ∪ visited))
   < size (unvisited nodes visited))%nat.
Proof.
  intros Hnew Hfind. apply find_node_Some in Hfind as [Hin <-].
  apply subset_size. unfold unvisited.
  rewrite (comm_L (∪) {[id node]} visited), <- difference_difference_l_L.
  apply subset_difference_elem_of, elem_of_difference. split; [|done].
  apply elem_of_list_to_set, list_elem_of_fmap. eauto.
Qed.

(** The recursion ends: with more fuel than there are unvisited node ids
    the call returns. *)
Lemma buildExpr_returns fuel : ∀ nodeId visited,
  (size (unvisited nodes visited) < fuel)%nat →
  is_Some (buildExpr nodes wires fuel nodeId visited).
Proof.
  induction fuel as [|fuel IH]; intros nodeId visited Hfuel; [lia|].
  cbn [buildExpr]. destruct (decide (nodeId ∈ visited)) as [|Hnew]; [done|].
  destruct (find_node nodeId nodes) as [node|] eqn:Hfind; [|done].
  pose proof (unvisited_shrinks nodeId visited node Hnew Hfind) as Hlt.
  assert (is_Some (mapM (λ w, buildExpr nodes wires fuel (sourceNodeId w)
                                ({[nodeId]} ∪ visited))
                        (inputWires_of nodeId wires))) as [sources Hmap].
  { apply mapM_is_Some_2, Forall_forall. intros w _. apply IH. lia. }
  rewrite Hmap. cbn. by destruct (type node), (length sources =? 0)%nat.
Qed.

Lemma buildExpr_expr fuel nodeId visited :
  (expr_fuel nodes ≤ fuel)%nat →
  buildExpr nodes wires fuel nodeId visited
  = Some (expr nodes wires nodeId visited).
Proof.
  intros Hfuel. unfold expr.
  destruct (buildExpr_returns (expr_fuel nodes) nodeId visited) as [s Hs].
  { pose proof (unvisited_bound visited). unfold expr_fuel. lia. }
  rewrite Hs. cbn. by eapply buildExpr_mono.
Qed.

(** The recursive equation of [buildExpr], fuel removed. *)
Lemma expr_unfold nodeId visited :
  expr nodes wires nodeId visited
  = if decide (nodeId ∈ visited) then "[LOOP]"
    else match find_node nodeId nodes with
         | None => "?"
         | Some node =>
             match type node with
             | INPUT => label node
             | t =>
                 let sources :=
                   (λ w, expr nodes wires (sourceNodeId w)
                           ({[nodeId]} ∪ visited))
                     <$> inputWires_of nodeId wires in
                 if (length sources =? 0)%nat
                 then or_else (Some (label node)) "?"
                 else render t sources
             end
         end.
Proof.
  apply (inj Some). rewrite <- (buildExpr_expr (S (expr_fuel nodes))) by lia.
  cbn [buildExpr]. destruct (decide (nodeId ∈ visited)); [done|].
  destruct (find_node nodeId nodes) as [node|]; [|done].
  rewrite (mapM_total _ (λ w, expr nodes wires (sourceNodeId w)
                                ({[nodeId]} ∪ visited)))
    by (intros w _; by apply buildExpr_expr).
  destruct (type node); cbn; try done; by case_match.
Qed.

Lemma generateExpression_fuel_expr fuel :
  (expr_fuel nodes ≤ fuel)%nat →
  generateExpression_fuel fuel nodes wires
  = Some (let outs := filter (λ n, type n = OUTPUT) nodes in
          if (length outs =? 0)%nat then "No Output"
          else String.concat "; "
                 ((λ out, label out ++ " = " ++ expr nodes wires (id out) ∅)
                    <$> outs)).
Proof.
  intros Hfuel. unfold generateExpression_fuel. cbn zeta.
  destruct (length _ =? 0)%nat; [done|].
  rewrite (mapM_total _ (λ out, label out ++ " = "
                                ++ expr nodes wires (id out) ∅)); [done|].
  intros out _. by rewrite buildExpr_expr.
Qed.

(** ** The cycle guard on acyclic circuits *)

Lemma buildExpr_unguarded fuel : ∀ nodeId visited,
  acyclic wires →
  (∀ v, v ∈ visited → tc (drives wires) nodeId v) →
  buildExpr nodes wires fuel nodeId visited
  = expandExpr nodes wires fuel nodeId.
Proof.
  induction fuel as [|fuel IH]; intros nodeId visited Hac Hpath; [done|].
  cbn [buildExpr expandExpr].
  rewrite decide_False by (intros Hin; by eapply Hac, Hpath).
  destruct (find_node nodeId nodes) as [node|]; [|done].
  assert (mapM (λ w, buildExpr nodes wires fuel (sourceNodeId w)
                       ({[nodeId]} ∪ visited)) (inputWires_of nodeId wires)
          = mapM (λ w, expandExpr nodes wires fuel (sourceNodeId w))
              (inputWires_of nodeId wires)) as ->; [|done].
  assert (∀ w, w ∈ inputWires_of nodeId wires →
               buildExpr nodes wires fuel (sourceNodeId w) ({[nodeId]} ∪ visited)
               = expandExpr nodes wires fuel (sourceNodeId w)) as Hsame.
  { intros w Hw. apply inputWires_of_elem in Hw as [Hw Ht].
    assert (drives wires (sourceNodeId w) nodeId) as Hd by by exists w.
    apply IH; [done|]. intros v Hv.
    apply elem_of_union in Hv as [Hv|Hv].
    - apply elem_of_singleton in Hv as ->. by apply tc_once.
    - eapply tc_l; [done|]. by apply Hpath. }
  induction (inputWires_of nodeId wires) as [|w l IHl]; [done|].
  cbn. rewrite Hsame by by left. rewrite IHl; [done|].
  intros w' Hw'. apply Hsame. by right.
Qed.

End Expression.

(** ** The claims on generateExpression *)

Lemma expr_gate nodes wires nodeId visited node w0 rest :
  nodeId ∉ visited →
  find_node nodeId nodes = Some node →
  type node ≠ INPUT →
  inputWires_of nodeId wires = w0 :: rest →
  expr nodes wires nodeId visited
  = render (type node)
      ((λ w, expr nodes wires (sourceNodeId w) ({[nodeId]} ∪ visited))
         <$> w0 :: rest).
Proof.
  intros Hnew Hfind Ht Hw. rewrite expr_unfold, decide_False, Hfind, Hw by done.
  by destruct (type node).
Qed.

Lemma or_else_Some (s d : string) :
  or_else (Some s) d = if decide (s = "") then d else s.
Proof. by destruct s. Qed.

Lemma expr_notation nodes wires nodeId visited node w0 rest :
  nodeId ∉ visited → find_node nodeId nodes = Some node →
  inputWires_of nodeId wires = w0 :: rest →
  let sub := λ w, expr nodes wires (sourceNodeId w) ({[nodeId]} ∪ visited) in
  let a := or_else (Some (sub w0)) "0" in
  let b := or_else (sub <$> head rest) "0" in
  expr nodes wires nodeId visited
  = match type node with
    | AND => "(" ++ a ++ " · " ++ b ++ ")"
    | OR => "(" ++ a ++ " + " ++ b ++ ")"
    | NAND => "¬(" ++ a ++ " · " ++ b ++ ")"
    | NOR => "¬(" ++ a ++ " + " ++ b ++ ")"
    | XOR => "(" ++ a ++ " ⊕ " ++ b ++ ")"
    | NOT => "¬" ++ a
    | OUTPUT => or_else (Some (sub w0)) "?"
    | INPUT => label node
    end.
Proof.
  intros Hnew Hfind Hw sub a b.
  destruct (decide (type node = INPUT)) as [Ht|Ht].
  { rewrite expr_unfold, decide_False, Hfind, Ht by done. done. }
  rewrite (expr_gate nodes wires nodeId visited node w0 rest) by done.
  fold sub. unfold render. rewrite fmap_cons. cbn [lookup list_lookup].
  replace ((sub <$> rest) !! 0%nat) with (sub <$> head rest)
    by by destruct rest.
  by destruct (type node).
Qed.

(** C6. [generateExpression] returns for every circuit, with or without
    back-edges: from the fuel [|nodes| + 1] on neither it nor [buildExpr]
    runs out of fuel and the result no longer depends on the fuel. A node id
    that is already in the visited set renders as the loop marker without any
    recursion. Every source of a gate is expanded with the same set, the
    gate's own set plus the gate's id, so the set holds exactly the ids on the
    path from the output. In a circuit without cycle the guard never fires:
    the result is the expansion without guard, as for the diamond, whose two
    branches both reach INPUT "A". *)
Theorem generateExpression_terminates (nodes : list CircuitNode)
    (wires : list Wire) :
  (∃ s, generateExpression nodes wires = Some s ∧
        ∀ fuel, (expr_fuel nodes ≤ fuel)%nat →
                generateExpression_fuel fuel nodes wires = Some s) ∧
  (∀ fuel nodeId visited, (expr_fuel nodes ≤ fuel)%nat →
     buildExpr nodes wires fuel nodeId visited
     = Some (expr nodes wires nodeId visited)) ∧
  (∀ nodeId visited, nodeId ∈ visited →
     expr nodes wires nodeId visited = "[LOOP]" ∧
     ∀ fuel, buildExpr nodes wires (S fuel) nodeId visited = Some "[LOOP]") ∧
  (∀ nodeId visited node w0 rest,
     nodeId ∉ visited → find_node nodeId nodes = Some node →
     type node ≠ INPUT → inputWires_of nodeId wires = w0 :: rest →
     expr nodes wires nodeId visited
     = render (type node)
         ((λ w, expr nodes wires (sourceNodeId w) ({[nodeId]} ∪ visited))
            <$> w0 :: rest)) ∧
  (acyclic wires →
   ∀ fuel nodeId,
     buildExpr nodes wires fuel nodeId ∅ = expandExpr nodes wires fuel nodeId) ∧
  generateExpression diamond_nodes diamond_wires = Some "Y = (¬A · ¬A)".
Proof.
  split_and!.
  - eexists. split; [by apply generateExpression_fuel_expr|].
    intros fuel Hfuel. by apply generateExpression_fuel_expr.
  - intros fuel nodeId visited Hfuel. by apply buildExpr_expr.
  - intros nodeId visited Hin. split.
    + by rewrite expr_unfold, decide_True.
    + intros fuel. cbn [buildExpr]. by rewrite decide_True.
  - intros nodeId visited node w0 rest. apply expr_gate.
  - intros Hac fuel nodeId. apply buildExpr_unguarded; [done|].
    intros v Hv. by apply not_elem_of_empty in Hv.
  - by vm_compute.
Qed.

(** C7 (amended). [generateExpression] returns the sentinel "No Output" when
    there is no OUTPUT node and otherwise, for the OUTPUT nodes in the order
    of the node list, ["<label> = <expansion>"] joined by ["; "]. The driving
    wires of a node are the wires that end at it, in ascending order of their
    target pin index, wires of the same pin in the order of the wire list. A
    node that is not an INPUT and has a driving wire renders with the
    notation of its kind, where [a] and [b] are the expansions of the sources
    of its first and second driving wire and ["0"] stands for a missing or
    empty one; an OUTPUT renders as the expansion of the source of its first
    driving wire, and as ["?"] when that expansion is empty. So when the
    driving wires have distinct pins, [a] belongs to the lowest pin and [b]
    to the next one wherever the wires stand in the wire list, as for the
    AND gate of case 2, whose pin-1 wire is listed before its pin-0 wire. *)
Theorem generateExpression_format (nodes : list CircuitNode)
    (wires : list Wire) :
  generateExpression nodes wires
  = Some (let outs := filter (λ n, type n = OUTPUT) nodes in
          if (length outs =? 0)%nat then "No Output"
          else String.concat "; "
                 ((λ out, label out ++ " = " ++ expr nodes wires (id out) ∅)
                    <$> outs)) ∧
  (∀ nodeId,
     inputWires_of nodeId wires ≡ₚ filter (λ w, targetNodeId w = nodeId) wires ∧
     StronglySorted (λ w1 w2, targetPinIndex w1 ≤ targetPinIndex w2)
       (inputWires_of nodeId wires) ∧
     ∀ pin, filter (λ w, targetPinIndex w = pin) (inputWires_of nodeId wires)
            = filter (λ w, targetPinIndex w = pin)
                (filter (λ w, targetNodeId w = nodeId) wires)) ∧
  (∀ nodeId visited node w0 rest,
     nodeId ∉ visited → find_node nodeId nodes = Some node →
     inputWires_of nodeId wires = w0 :: rest →
     let sub := λ w, expr nodes wires (sourceNodeId w) ({[nodeId]} ∪ visited) in
     let a := if decide (sub w0 = "") then "0" else sub w0 in
     let b := match rest with
              | [] => "0"
              | w1 :: _ => if decide (sub w1 = "") then "0" else sub w1
              end in
     expr nodes wires nodeId visited
     = match type node with
       | AND => "(" ++ a ++ " · " ++ b ++ ")"
       | OR => "(" ++ a ++ " + " ++ b ++ ")"
       | NAND => "¬(" ++ a ++ " · " ++ b ++ ")"
       | NOR => "¬(" ++ a ++ " + " ++ b ++ ")"
       | XOR => "(" ++ a ++ " ⊕ " ++ b ++ ")"
       | NOT => "¬" ++ a
       | OUTPUT => if decide (sub w0 = "") then "?" else sub w0
       | INPUT => label node
       end) ∧
  (∀ nodeId visited node w0 rest,
     nodeId ∉ visited → find_node nodeId nodes = Some node →
     w0 :: rest ≡ₚ filter (λ w, targetNodeId w = nodeId) wires →
     StronglySorted (λ w1 w2, targetPinIndex w1 < targetPinIndex w2)
       (w0 :: rest) →
     let sub := λ w, expr nodes wires (sourceNodeId w) ({[nodeId]} ∪ visited) in
     let a := if decide (sub w0 = "") then "0" else sub w0 in
     let b := match rest with
              | [] => "0"
              | w1 :: _ => if decide (sub w1 = "") then "0" else sub w1
              end in
     expr nodes wires nodeId visited
     = match type node with
       | AND => "(" ++ a ++ " · " ++ b ++ ")"
       | OR => "(" ++ a ++ " + " ++ b ++ ")"
       | NAND => "¬(" ++ a ++ " · " ++ b ++ ")"
       | NOR => "¬(" ++ a ++ " + " ++ b ++ ")"
       | XOR => "(" ++ a ++ " ⊕ " ++ b ++ ")"
       | NOT => "¬" ++ a
       | OUTPUT => if decide (sub w0 = "") then "?" else sub w0
       | INPUT => label node
       end) ∧
  targetPinIndex <$> filter (λ w, targetNodeId w = "g") case2_wires = [1; 0] ∧
  generateExpression case2_nodes case2_wires = Some "Y = (A · B)".
Proof.
  split_and!.
  - by apply generateExpression_fuel_expr.
  - intros nodeId. unfold inputWires_of. split_and!.
    + apply js_sort_perm.
    + apply js_sort_by_pin_sorted.
    + intros pin. apply filter_pin_js_sort.
  - intros nodeId visited node w0 rest Hnew Hfind Hw. cbn zeta.
    rewrite (expr_notation nodes wires nodeId visited node w0 rest) by done.
    cbn zeta. rewrite !or_else_Some.
    by destruct rest as [|w1 rest']; cbn [head fmap option_fmap option_map];
      rewrite ?or_else_Some.
  - intros nodeId visited node w0 rest Hnew Hfind Hperm Hsorted. cbn zeta.
    rewrite (expr_notation nodes wires nodeId visited node w0 rest);
      [|done..|unfold inputWires_of; by apply js_sort_by_pin_unique].
    cbn zeta. rewrite !or_else_Some.
    by destruct rest as [|w1 rest']; cbn [head fmap option_fmap option_map];
      rewrite ?or_else_Some.
  - reflexivity.
  - by vm_compute.
Qed.

(** C7 as stated fails for an INPUT whose label is empty: the OUTPUT wired to
    it renders as ["?"] and not as the source's expression, and the AND gate
    fed by it renders both operands as ["0"]. *)
Lemma blank_label_expression :
  expr blank_nodes blank_wires "i" {["y0"]} = "" ∧
  expr blank_nodes blank_wires "i" {["g"; "y1"]} = "" ∧
  generateExpression blank_nodes blank_wires = Some "Y0 = ?; Y1 = (0 · 0)" ∧
  generateExpression blank_nodes blank_wires
  ≠ Some ("Y0 = " ++ expr blank_nodes blank_wires "i" {["y0"]}
          ++ "; Y1 = (" ++ expr blank_nodes blank_wires "i" {["g"; "y1"]}
          ++ " · " ++ expr blank_nodes blank_wires "i" {["g"; "y1"]} ++ ")").
Proof. split_and!; by vm_compute. Qed.

(** C9 (amended). For a two-input gate whose only driving wire ends at pin 1,
    the synthesizer takes its operands by position in the pin-sorted wire
    list: the first operand is the expansion of the pin-1 source, ["0"] when
    that expansion is empty, and the second is ["0"]; the evaluator puts the
    value of the same source in slot 1 and leaves slot 0 absent. *)
Theorem pin1_only_operand_order (nodes : list CircuitNode) (wires : list Wire)
    (nodeId : string) (visited : gset string) (node : CircuitNode) (w : Wire) :
  nodeId ∉ visited →
  find_node nodeId nodes = Some node →
  two_input (type node) = true →
  filter (λ w', targetNodeId w' = nodeId) wires = [w] →
  targetPinIndex w = 1 →
  expr nodes wires nodeId visited
  = notation (type node)
      (or_else (Some (expr nodes wires (sourceNodeId w) ({[nodeId]} ∪ visited)))
         "0")
      "0" ∧
  getNodeInputs nodeId wires nodes = (None, value_of (sourceNodeId w) nodes).
Proof.
  intros Hnew Hfind Ht Hw Hpin.
  assert (inputWires_of nodeId wires = [w]) as Hsorted
    by (unfold inputWires_of; by rewrite Hw).
  split.
  - rewrite (expr_gate nodes wires nodeId visited node w []) by
      (try done; intros Heq; by rewrite Heq in Ht).
    by destruct (type node).
  - rewrite getNodeInputs_fold, Hsorted. cbn [foldl].
    rewrite read_wire_value_of, Hpin.
    by destruct (value_of (sourceNodeId w) nodes).
Qed.

Lemma pin1_only_operand_order_witness :
  (("g" : string) ∉ (∅ : gset string)) ∧
  find_node "g" (pin1_nodes "A") = Some (gate "g" AND "" false) ∧
  two_input AND = true ∧
  filter (λ w', targetNodeId w' = "g") pin1_wires = [wire "a" "g" 1] ∧
  targetPinIndex (wire "a" "g" 1) = 1 ∧
  expr (pin1_nodes "A") pin1_wires "g" ∅ = "(A · 0)" ∧
  getNodeInputs "g" pin1_wires (pin1_nodes "A") = (None, Some true).
Proof.
  assert (("g" : string) ∉ (∅ : gset string)) as Hnew
    by apply not_elem_of_empty.
  split_and!; [exact Hnew|reflexivity..| |].
  - apply (pin1_only_operand_order (pin1_nodes "A") pin1_wires "g" ∅
             (gate "g" AND "" false) (wire "a" "g" 1) Hnew);
      reflexivity.
  - apply (pin1_only_operand_order (pin1_nodes "A") pin1_wires "g" ∅
             (gate "g" AND "" false) (wire "a" "g" 1) Hnew);
      reflexivity.
Defined.

(** C9 as stated fails when the pin-1 source expands to the empty string: the
    first operand is then ["0"], not that expansion. *)
Lemma pin1_blank_operand :
  filter (λ w', targetNodeId w' = "g") pin1_wires = [wire "a" "g" 1] ∧
  expr (pin1_nodes "") pin1_wires "a" {["g"]} = "" ∧
  expr (pin1_nodes "") pin1_wires "g" ∅ = "(0 · 0)" ∧
  expr (pin1_nodes "") pin1_wires "g" ∅
  ≠ "(" ++ expr (pin1_nodes "") pin1_wires "a" {["g"]} ++ " · 0)".
Proof. split_and!; by vm_compute. Qed.

(** ** simulateCircuit keeps the shape of the node list *)

Lemma update_node_frame wires nodes node :
  let node' := (update_node wires nodes node).1 in
  id node' = id node ∧ type node' = type node ∧ label node' = label node ∧
  x node' = x node ∧ y node' = y node.
Proof.
  cbn zeta. rewrite update_node_eval. by destruct (type node) eqn:Ht.
Qed.

Lemma after_passes_frame wires k : ∀ nodes,
  length (after_passes wires k nodes) = length nodes ∧
  ∀ i node, nodes !! i = Some node →
    ∃ node', after_passes wires k nodes !! i = Some node' ∧
             id node' = id node ∧ type node' = type node ∧
             label node' = label node ∧ x node' = x node ∧ y node' = y node.
Proof.
  induction k as [|k IH]; intros nodes.
  { split; [done|]. intros i node Hi. by exists node. }
  destruct (IH nodes) as [Hlen Hnodes]. rewrite after_passes_S. split.
  - by rewrite next_nodes_fmap, length_fmap.
  - intros i node Hi. destruct (Hnodes i node Hi) as (n1 & Hn1 & Hframe).
    rewrite next_nodes_lookup, Hn1. eexists. split; [done|].
    pose proof (update_node_frame wires (after_passes wires k nodes) n1) as Hupd.
    cbn zeta in Hupd. destruct Hupd as (-> & -> & -> & -> & ->). done.
Qed.

(** ** simulateCircuit on the store *)

Lemma extends_refl s : extends s s.
Proof. by split. Qed.

Lemma extends_trans s1 s2 s3 : extends s1 s2 → extends s2 s3 → extends s1 s3.
Proof. intros [??] [??]. split; by etrans. Qed.

Lemma extends_nodes s s' r l :
  extends s s' → nodeArrays s !! r = Some l → nodeArrays s' !! r = Some l.
Proof. intros [Hn _] Hr. by eapply prefix_lookup_Some. Qed.

Lemma extends_wires s s' r l :
  extends s s' → wireArrays s !! r = Some l → wireArrays s' !! r = Some l.
Proof. intros [_ Hw] Hr. by eapply prefix_lookup_Some. Qed.

Lemma bind_run {A B} (m : St A) (k : A → St B) s a s1 :
  m s = (a, s1) → (m ≫= k) s = k a s1.
Proof. intros Hm. unfold mbind, St_bind. by rewrite Hm. Qed.

Lemma read_nodes_run r s l :
  nodeArrays s !! r = Some l → read_nodes r s = (l, s).
Proof. intros Hr. unfold read_nodes. by rewrite Hr. Qed.

Lemma getNodeInputs_st_spec nodeId wiresRef allNodesRef s wires allNodes :
  wireArrays s !! wiresRef = Some wires →
  nodeArrays s !! allNodesRef = Some allNodes →
  getNodeInputs_st nodeId wiresRef allNodesRef s
  = (getNodeInputs nodeId wires allNodes,
     {| nodeArrays := nodeArrays s;
        wireArrays := wireArrays s ++ [inputWires_of nodeId wires] |}).
Proof.
  intros Hw Hn. unfold getNodeInputs_st, mbind, St_bind, mret, St_ret.
  unfold read_wires, alloc_wires, write_wires, read_nodes. cbn [nodeArrays wireArrays].
  rewrite Hw. cbn [default].
  rewrite list_lookup_middle by done. cbn [default].
  rewrite insert_app_r_alt by done. rewrite Nat.sub_diag. cbn [insert list_insert].
  rewrite list_lookup_middle by done. cbn [default].
  rewrite Hn. done.
Qed.

Lemma update_node_st_spec wiresRef newNodesRef node s wires newNodes :
  wireArrays s !! wiresRef = Some wires →
  nodeArrays s !! newNodesRef = Some newNodes →
  ∃ s', update_node_st wiresRef newNodesRef node s
        = (update_node wires newNodes node, s') ∧
        extends s s' ∧ nodeArrays s' = nodeArrays s.
Proof.
  intros Hw Hn.
  destruct (decide (type node = INPUT)) as [Ht|Ht].
  { exists s. unfold update_node_st, update_node. rewrite Ht.
    split; [done|]. split; [apply extends_refl|done]. }
  exists {| nodeArrays := nodeArrays s;
            wireArrays := wireArrays s ++ [inputWires_of (id node) wires] |}.
  split_and!.
  - unfold update_node_st, update_node.
    destruct (type node); try done;
      (unfold mbind, St_bind;
       rewrite (getNodeInputs_st_spec _ _ _ _ wires newNodes) by done;
       by destruct (negb _)).
  - split; [reflexivity|by apply prefix_app_r].
  - done.
Qed.

Lemma mapM_update_node_st wiresRef newNodesRef wires newNodes l : ∀ s,
  wireArrays s !! wiresRef = Some wires →
  nodeArrays s !! newNodesRef = Some newNodes →
  ∃ s', mapM (update_node_st wiresRef newNodesRef) l s
        = (update_node wires newNodes <$> l, s') ∧
        extends s s' ∧ nodeArrays s' = nodeArrays s.
Proof.
  induction l as [|node l IH]; intros s Hw Hn.
  { exists s. split; [done|]. split; [apply extends_refl|done]. }
  destruct (update_node_st_spec wiresRef newNodesRef node s wires newNodes Hw Hn)
    as (s1 & Hrun1 & Hext1 & Hnodes1).
  destruct (IH s1) as (s2 & Hrun2 & Hext2 & Hnodes2).
  { by eapply extends_wires. }
  { by rewrite Hnodes1. }
  exists s2. split_and!.
  - cbn [mapM]. rewrite (bind_run _ _ s _ s1 Hrun1).
    by rewrite (bind_run _ _ s1 _ s2 Hrun2).
  - by eapply extends_trans.
  - by rewrite Hnodes2.
Qed.

Lemma simulate_loop_st_spec wiresRef wires fuel : ∀ newNodesRef changed it s newNodes,
  wireArrays s !! wiresRef = Some wires →
  nodeArrays s !! newNodesRef = Some newNodes →
  ∃ r s', simulate_loop_st wiresRef fuel newNodesRef changed it s = (r, s') ∧
          extends s s' ∧
          nodeArrays s' !! r
          = Some (simulate_loop wires fuel newNodes changed it).1.1 ∧
          (r = newNodesRef ∨ length (nodeArrays s) ≤ r)%nat.
Proof.
  induction fuel as [|fuel IH]; intros newNodesRef changed it s newNodes Hw Hn.
  { exists newNodesRef, s. split_and!; [done|apply extends_refl|done|by left]. }
  cbn [simulate_loop_st simulate_loop].
  destruct (changed && (it <? MAX_ITERATIONS)%nat).
  2:{ exists newNodesRef, s. split_and!; [done|apply extends_refl|done|by left]. }
  destruct (mapM_update_node_st wiresRef newNodesRef wires newNodes newNodes s Hw Hn)
    as (s1 & Hrun1 & Hext1 & Hnodes1).
  set (r1 := update_node wires newNodes <$> newNodes) in *.
  set (s2 := {| nodeArrays := nodeArrays s1 ++ [r1.*1];
                wireArrays := wireArrays s1 |}).
  destruct (IH (length (nodeArrays s1)) (existsb snd r1) (S it) s2 r1.*1)
    as (r & s' & Hrun & Hext & Hres & Hfresh).
  { exact (extends_wires s s1 _ _ Hext1 Hw). }
  { unfold s2. cbn [nodeArrays]. by rewrite list_lookup_middle. }
  exists r, s'. split_and!.
  - rewrite (bind_run _ _ s newNodes s) by by apply read_nodes_run.
    rewrite (bind_run _ _ s r1 s1) by done.
    rewrite (bind_run _ _ s1 (length (nodeArrays s1)) s2) by done.
    exact Hrun.
  - eapply extends_trans; [exact Hext1|]. eapply extends_trans; [|exact Hext].
    split; [by apply prefix_app_r|done].
  - rewrite Hres. unfold pass. fold r1. done.
  - right. destruct Hfresh as [->|Hge]; [by rewrite Hnodes1|].
    unfold s2 in Hge. cbn [nodeArrays] in Hge.
    rewrite length_app, Hnodes1 in Hge. lia.
Qed.

(** C8. [simulateCircuit] returns a new array: every array that existed
    before the call, the node list and the wire list passed in among them,
    has the same content afterwards, and the array returned did not exist
    before. Its content is the result of the evaluation; it has the length
    and order of the node list passed in, and each node keeps its id, type,
    label and coordinates, so that only the value can differ. *)
Theorem simulateCircuit_frame (s : Store) (nodesRef wiresRef : nat)
    (nodes : list CircuitNode) (wires : list Wire) :
  nodeArrays s !! nodesRef = Some nodes →
  wireArrays s !! wiresRef = Some wires →
  ∃ r s', simulateCircuit_st nodesRef wiresRef s = (r, s') ∧
    extends s s' ∧
    nodeArrays s' !! nodesRef = Some nodes ∧
    wireArrays s' !! wiresRef = Some wires ∧
    (length (nodeArrays s) ≤ r)%nat ∧
    nodeArrays s' !! r = Some (simulateCircuit nodes wires) ∧
    length (simulateCircuit nodes wires) = length nodes ∧
    ∀ i node, nodes !! i = Some node →
      ∃ node', simulateCircuit nodes wires !! i = Some node' ∧
               id node' = id node ∧ type node' = type node ∧
               label node' = label node ∧ x node' = x node ∧ y node' = y node.
Proof.
  intros Hn Hw.
  set (s1 := {| nodeArrays := nodeArrays s ++ [nodes];
                wireArrays := wireArrays s |}).
  assert (extends s s1) as Hext1 by (split; [by apply prefix_app_r|done]).
  destruct (simulate_loop_st_spec wiresRef wires MAX_ITERATIONS
              (length (nodeArrays s)) true 0%nat s1 nodes)
    as (r & s' & Hrun & Hext & Hres & Hfresh).
  { done. }
  { unfold s1. cbn [nodeArrays]. by rewrite list_lookup_middle. }
  assert (extends s s') as Hext' by by eapply extends_trans.
  exists r, s'. split_and!.
  - unfold simulateCircuit_st.
    rewrite (bind_run _ _ s nodes s) by by apply read_nodes_run.
    rewrite (bind_run _ _ s (length (nodeArrays s)) s1) by done.
    exact Hrun.
  - done.
  - by eapply extends_nodes.
  - by eapply extends_wires.
  - destruct Hfresh as [->|Hge]; [done|].
    unfold s1 in Hge. cbn [nodeArrays] in Hge. rewrite length_app in Hge. lia.
  - done.
  - rewrite simulateCircuit_after. apply after_passes_frame.
  - rewrite simulateCircuit_after. apply after_passes_frame.
Qed.

Lemma simulateCircuit_frame_witness :
  let s := {| nodeArrays := [case1_nodes]; wireArrays := [case1_wires] |} in
  nodeArrays s !! 0%nat = Some case1_nodes ∧
  wireArrays s !! 0%nat = Some case1_wires ∧
  ∃ r s', simulateCircuit_st 0 0 s = (r, s') ∧
          nodeArrays s' !! 0%nat = Some case1_nodes ∧
          wireArrays s' !! 0%nat = Some case1_wires ∧
          (1 ≤ r)%nat.
Proof.
  cbn zeta. split_and!; [reflexivity..|].
  destruct (simulateCircuit_frame
              {| nodeArrays := [case1_nodes]; wireArrays := [case1_wires] |}
              0 0 case1_nodes case1_wires eq_refl eq_refl)
    as (r & s' & Hrun & _ & Hn & Hw & Hr & _).
  exists r, s'. split_and!; [exact Hrun|exact Hn|exact Hw|exact Hr].
Defined.


(** * Further properties *)

(** ** The evaluator *)

Lemma after_passes_input wires k : ∀ nodes i node,
  nodes !! i = Some node → type node = INPUT →
  after_passes wires k nodes !! i = Some node.
Proof.
  induction k as [|k IH]; intros nodes i node Hi Ht; [done|].
  rewrite after_passes_S, next_nodes_lookup, (IH nodes i node) by done.
  cbn. by rewrite update_node_eval, Ht.
Qed.

(** X1. The evaluator never touches an INPUT node: it is returned as it was
    passed in, whatever wires end at it. *)
Theorem simulateCircuit_keeps_inputs (nodes : list CircuitNode)
    (wires : list Wire) (i : nat) (node : CircuitNode) :
  nodes !! i = Some node → type node = INPUT →
  simulateCircuit nodes wires !! i = Some node.
Proof.
  intros Hi Ht. rewrite simulateCircuit_after. by apply after_passes_input.
Qed.

Lemma simulateCircuit_keeps_inputs_witness :
  case3_nodes !! 0%nat = Some (gate "a" INPUT "A" true) ∧
  type (gate "a" INPUT "A" true) = INPUT ∧
  simulateCircuit case3_nodes case3_wires !! 0%nat
  = Some (gate "a" INPUT "A" true).
Proof.
  split_and!; [reflexivity..|].
  apply (simulateCircuit_keeps_inputs case3_nodes case3_wires 0
           (gate "a" INPUT "A" true)); reflexivity.
Defined.

(** X2. Whenever a call stops before the cap, on a cyclic circuit too, its
    result is settled: a second call makes a single pass and returns the same
    list. *)
Theorem simulateCircuit_idempotent_below_cap (nodes : list CircuitNode)
    (wires : list Wire) :
  (passes nodes wires < MAX_ITERATIONS)%nat →
  simulateCircuit (simulateCircuit nodes wires) wires
  = simulateCircuit nodes wires ∧
  passes (simulateCircuit nodes wires) wires = 1%nat.
Proof.
  intros Hp.
  assert (next_nodes wires (simulateCircuit nodes wires)
          = simulateCircuit nodes wires) as Hfix.
  { destruct (simulate_run_spec nodes wires) as (k & ch & Hrun & _ & _ & Hlast).
    unfold simulateCircuit, passes in *. rewrite Hrun in *. cbn [fst snd] in *.
    destruct ch; [lia|]. rewrite Hlast. exact Hlast. }
  unfold simulateCircuit at 1, passes.
  by rewrite (simulateCircuit_fixed_point _ _ Hfix).
Qed.

Lemma simulateCircuit_idempotent_below_cap_witness :
  (passes case3_nodes case3_wires < MAX_ITERATIONS)%nat ∧
  simulateCircuit (simulateCircuit case3_nodes case3_wires) case3_wires
  = simulateCircuit case3_nodes case3_wires.
Proof.
  assert (passes case3_nodes case3_wires < MAX_ITERATIONS)%nat as Hp
    by (vm_compute; lia).
  split; [exact Hp|].
  apply (simulateCircuit_idempotent_below_cap case3_nodes case3_wires Hp).
Defined.

(** ** What getNodeInputs reads in any wire list *)

Lemma fold_read_filter allNodes k l : ∀ inputs,
  (k = 0 ∨ k = 1) →
  slot k (foldl (read_wire allNodes) inputs l)
  = slot k (foldl (read_wire allNodes) inputs
              (filter (λ w, targetPinIndex w = k) l)).
Proof.
  induction l as [|w l IH]; intros inputs Hk; [done|].
  rewrite filter_cons. destruct (decide (targetPinIndex w = k)) as [Hw|Hw].
  - cbn [foldl]. by apply IH.
  - cbn [foldl]. rewrite IH by done.
    assert (∀ l' acc1 acc2, slot k acc1 = slot k acc2 →
              Forall (λ w', targetPinIndex w' = k) l' →
              slot k (foldl (read_wire allNodes) acc1 l')
              = slot k (foldl (read_wire allNodes) acc2 l')) as Hcong.
    { induction l' as [|w' l' IHl']; intros acc1 acc2 Hacc Hall; [done|].
      apply Forall_cons in Hall as [Hw' Hall]. cbn [foldl].
      apply IHl'; [|done]. unfold read_wire.
      destruct (find_node (sourceNodeId w') allNodes); [|done].
      destruct (targetPinIndex w' <? 2); [|done].
      rewrite Hw'. by destruct Hk as [-> | ->]. }
    apply Hcong.
    + apply read_wire_other; [done|]. intros Heq. by destruct Hw.
    + apply Forall_forall. intros w' Hin.
      by apply list_elem_of_filter in Hin as [? _].
Qed.

Lemma fold_read_last allNodes k l : ∀ inputs,
  (k = 0 ∨ k = 1) → Forall (λ w, targetPinIndex w = k) l →
  slot k (foldl (read_wire allNodes) inputs l)
  = match last (omap (λ w, value_of (sourceNodeId w) allNodes) l) with
    | Some v => Some v
    | None => slot k inputs
    end.
Proof.
  induction l as [|w l IH]; intros inputs Hk Hall; [done|].
  apply Forall_cons in Hall as [Hw Hall]. cbn [foldl omap list_omap].
  rewrite IH by done. rewrite read_wire_value_of, Hw.
  replace (k <? 2) with true by (by destruct Hk as [-> | ->]).
  destruct (value_of (sourceNodeId w) allNodes) as [v|]; [|done].
  rewrite last_cons.
  destruct (last (omap _ l)); [done|]. by destruct Hk as [-> | ->].
Qed.

Lemma slot_last_driver (nodeId : string) (wires : list Wire)
    (nodes : list CircuitNode) (k : Z) :
  k = 0 ∨ k = 1 →
  slot k (getNodeInputs nodeId wires nodes)
  = last (omap (drive_of nodes nodeId k) wires).
Proof.
  intros Hk. rewrite getNodeInputs_fold, fold_read_filter by done.
  unfold inputWires_of. rewrite filter_pin_js_sort.
  rewrite fold_read_last; [|done|].
  2:{ apply Forall_forall. intros w Hin.
      by apply list_elem_of_filter in Hin as [? _]. }
  assert (omap (λ w, value_of (sourceNodeId w) nodes)
            (filter (λ w, targetPinIndex w = k)
               (filter (λ w, targetNodeId w = nodeId) wires))
          = omap (drive_of nodes nodeId k) wires) as ->.
  { induction wires as [|w l IH]; [done|].
    rewrite filter_cons. cbn [omap list_omap]. unfold drive_of at 1.
    destruct (decide (targetNodeId w = nodeId)) as [Ht|Ht].
    - rewrite filter_cons. destruct (decide (targetPinIndex w = k)) as [Hp|Hp].
      + rewrite bool_decide_eq_true_2 by done. cbn [omap list_omap].
        by rewrite IH.
      + rewrite bool_decide_eq_false_2 by tauto. done.
    - rewrite bool_decide_eq_false_2 by tauto. done. }
  destruct (last _); [done|]. by destruct Hk as [-> | ->].
Qed.

(** X3. For any wire list, with or without the one-wire-per-pin invariant,
    slot [k] of [getNodeInputs] holds the value of the source of the last
    wire, in the order of the wire list, that ends at pin [k] of the node and
    whose source is a node; it is absent when there is none. Wires to other
    nodes or pins and wires from unknown ids have no effect. *)
Theorem getNodeInputs_last_driver (nodeId : string) (wires : list Wire)
    (nodes : list CircuitNode) (k : Z) :
  k = 0 ∨ k = 1 →
  slot k (getNodeInputs nodeId wires nodes)
  = last (omap (drive_of nodes nodeId k) wires).
Proof. apply slot_last_driver. Qed.

Lemma getNodeInputs_last_driver_witness :
  (1 = 0 ∨ 1 = 1) ∧
  slot 1 (getNodeInputs "g" (wire "b" "g" 1 :: case3_wires) case3_nodes)
  = Some false.
Proof.
  split; [by right|].
  apply (getNodeInputs_last_driver "g" (wire "b" "g" 1 :: case3_wires)
           case3_nodes 1). by right.
Defined.

(** X4. A node that is not an INPUT and at which no wire ends reads both pins
    as absent: after the call it is false for AND, OR, XOR and OUTPUT and
    true for NOT, NAND and NOR, in any circuit. *)
Theorem simulateCircuit_unwired (nodes : list CircuitNode) (wires : list Wire)
    (i : nat) (node : CircuitNode) :
  nodes !! i = Some node → type node ≠ INPUT →
  Forall (λ w, targetNodeId w ≠ id node) wires →
  simulateCircuit nodes wires !! i
  = Some (with_value node
            match type node with
            | NOT | NAND | NOR => true
            | _ => false
            end).
Proof.
  intros Hi Ht Hnone. rewrite simulateCircuit_after.
  destruct (simulate_run_spec nodes wires) as (k & ch & Hrun & _).
  unfold passes. rewrite Hrun. cbn [snd]. rewrite after_passes_S.
  destruct (after_passes_frame wires k nodes) as [_ Hframe].
  destruct (Hframe i node Hi) as (n1 & Hn1 & Hid & Hty & Hl & Hx & Hy).
  rewrite next_nodes_lookup, Hn1. cbn. f_equal. rewrite update_node_eval.
  assert (getNodeInputs (id n1) wires (after_passes wires k nodes) = (None, None))
    as Hin.
  { rewrite getNodeInputs_fold.
    assert (inputWires_of (id n1) wires = []) as ->; [|done].
    unfold inputWires_of. rewrite Hid.
    assert (filter (λ w, targetNodeId w = id node) wires = []) as ->; [|done].
    clear -Hnone. induction Hnone as [|w l Hw _ IH]; [done|].
    by rewrite filter_cons, decide_False. }
  rewrite Hin, Hty. clear -Hid Hty Hl Hx Hy Ht.
  destruct node as [nid nt nx ny nl nv], n1 as [i1 t1 x1 y1 l1 v1].
  cbn in *. subst. by destruct nt.
Qed.

Lemma simulateCircuit_unwired_witness :
  [gate "n" NOT "" false] !! 0%nat = Some (gate "n" NOT "" false) ∧
  simulateCircuit [gate "n" NOT "" false] [] !! 0%nat
  = Some (gate "n" NOT "" true).
Proof.
  split; [reflexivity|].
  apply (simulateCircuit_unwired [gate "n" NOT "" false] [] 0
           (gate "n" NOT "" false)); [reflexivity|done|constructor].
Defined.

(** ** Settled values of an acyclic circuit *)

Lemma simulateCircuit_settled nodes wires :
  acyclic wires → (length nodes ≤ MAX_ITERATIONS)%nat →
  next_nodes wires (simulateCircuit nodes wires) = simulateCircuit nodes wires.
Proof.
  intros Hac Hsize. pose proof (acyclic_settles nodes wires Hac) as Hfix.
  rewrite <- after_passes_S in Hfix.
  destruct (simulate_run_spec nodes wires) as (k & ch & Hrun & Hle & _ & Hlast).
  unfold simulateCircuit. rewrite Hrun. cbn [fst].
  destruct ch; [|rewrite Hlast; exact Hlast].
  rewrite (settled_later wires nodes (length nodes) (S k)) by (done || lia).
  by rewrite <- after_passes_S.
Qed.

Lemma same_circuit_next wires nodes1 nodes2 :
  same_circuit nodes1 nodes2 →
  same_circuit (next_nodes wires nodes1) (next_nodes wires nodes2).
Proof.
  intros Hsame. rewrite !next_nodes_fmap. apply Forall2_fmap.
  eapply Forall2_impl; [exact Hsame|]. intros a b (Hid & Ht & Hv). cbn.
  rewrite !update_node_id, !update_node_type. split_and!; [done..|].
  intros Hin. rewrite !update_node_eval, <- Ht, Hin. by apply Hv.
Qed.

Lemma same_circuit_after wires k nodes1 nodes2 :
  same_circuit nodes1 nodes2 →
  same_circuit (after_passes wires k nodes1) (after_passes wires k nodes2).
Proof.
  intros Hsame. induction k as [|k IH]; [done|].
  rewrite !after_passes_S. by apply same_circuit_next.
Qed.

Lemma same_circuit_passes wires nodes1 nodes2 :
  same_circuit nodes1 nodes2 → acyclic wires →
  (length nodes1 ≤ MAX_ITERATIONS)%nat →
  same_circuit (simulateCircuit nodes1 wires) (simulateCircuit nodes2 wires).
Proof.
  intros Hsame Hac Hsize.
  assert (length nodes2 = length nodes1) as Hlen
    by (symmetry; by eapply Forall2_length).
  assert (∀ nodes, (length nodes ≤ MAX_ITERATIONS)%nat →
            simulateCircuit nodes wires
            = after_passes wires MAX_ITERATIONS nodes) as Hcap.
  { intros nodes Hn. pose proof (acyclic_settles nodes wires Hac) as Hfix.
    rewrite <- after_passes_S in Hfix.
    destruct (simulate_run_spec nodes wires) as (k & ch & Hrun & Hle & _ & Hlast).
    unfold simulateCircuit. rewrite Hrun. cbn [fst]. destruct ch.
    - by destruct Hlast as [-> _].
    - symmetry. rewrite Hlast. apply settled_later; [done|lia]. }
  rewrite !Hcap by lia. by apply same_circuit_after.
Qed.

Lemma find_node_same_circuit nodeId nodes1 nodes2 :
  same_circuit nodes1 nodes2 →
  match find_node nodeId nodes1, find_node nodeId nodes2 with
  | Some a, Some b =>
      id a = id b ∧ type a = type b ∧ (type a = INPUT → value a = value b)
  | None, None => True
  | _, _ => False
  end.
Proof.
  intros Hsame. unfold find_node.
  induction Hsame as [|a b l1 l2 (Hid & Ht & Hv) _ IH]; [done|].
  cbn [List.find]. rewrite <- Hid.
  by destruct (String.eqb (id a) nodeId).
Qed.

Lemma fixed_point_elem wires nodes a :
  next_nodes wires nodes = nodes → a ∈ nodes →
  (update_node wires nodes a).1 = a.
Proof.
  rewrite next_nodes_fmap. intros Hfix Hin.
  apply list_elem_of_lookup in Hin as [i Hi].
  apply (f_equal (λ l, l !! i)) in Hfix.
  rewrite list_lookup_fmap, Hi in Hfix. cbn in Hfix. congruence.
Qed.

Section Unique.

Variable wires : list Wire.
Variables nodes1 nodes2 : list CircuitNode.
Hypothesis Hsame : same_circuit nodes1 nodes2.
Hypothesis Hfix1 : next_nodes wires nodes1 = nodes1.
Hypothesis Hfix2 : next_nodes wires nodes2 = nodes2.

Lemma settled_node_values a b :
  a ∈ nodes1 → b ∈ nodes2 → id a = id b → type a = type b →
  (type a = INPUT → value a = value b) →
  (∀ w, w ∈ wires → targetNodeId w = id a →
        value_of (sourceNodeId w) nodes1 = value_of (sourceNodeId w) nodes2) →
  value a = value b.
Proof.
  intros Ha Hb Hid Ht Hv Hsrc.
  pose proof (fixed_point_elem wires nodes1 a Hfix1 Ha) as Hua.
  pose proof (fixed_point_elem wires nodes2 b Hfix2 Hb) as Hub.
  rewrite update_node_eval in Hua, Hub.
  destruct (decide (type a = INPUT)) as [Hin|Hin]; [by apply Hv|].
  rewrite <- Hid, <- Ht, <- (getNodeInputs_ext _ _ nodes1 nodes2) in Hub by done.
  destruct (type a); try done; rewrite <- Hua, <- Hub; done.
Qed.

Lemma differing_back nodeId :
  value_of nodeId nodes1 ≠ value_of nodeId nodes2 →
  nodeId ∈ id <$> nodes1 ∧
  ∃ s, drives wires s nodeId ∧ value_of s nodes1 ≠ value_of s nodes2.
Proof.
  intros Hne. unfold value_of in Hne.
  pose proof (find_node_same_circuit nodeId nodes1 nodes2 Hsame) as Hfind.
  destruct (find_node nodeId nodes1) as [a|] eqn:Ha,
           (find_node nodeId nodes2) as [b|] eqn:Hb; try done.
  destruct Hfind as (Hid & Ht & Hv).
  apply find_node_Some in Ha as [Ha Hida]. apply find_node_Some in Hb as [Hb Hidb].
  split; [apply list_elem_of_fmap; by exists a|].
  destruct (decide (Exists (λ w, targetNodeId w = id a ∧
      value_of (sourceNodeId w) nodes1 ≠ value_of (sourceNodeId w) nodes2) wires))
    as [Hex|Hnex].
  - apply Exists_exists in Hex as (w & Hw & Htw & Hvw).
    exists (sourceNodeId w). split; [|done]. exists w. by rewrite <- Hida.
  - exfalso. apply Hne. cbn. f_equal.
    apply settled_node_values; try done. intros w Hw Htw.
    destruct (decide (value_of (sourceNodeId w) nodes1
                      = value_of (sourceNodeId w) nodes2)) as [|Hd]; [done|].
    exfalso. apply Hnex, Exists_exists. eauto.
Qed.

Lemma differing_chain : ∀ k nodeId,
  value_of nodeId nodes1 ≠ value_of nodeId nodes2 →
  ∃ sources, length sources = k ∧ chain wires nodeId sources ∧
             Forall (λ s, s ∈ id <$> nodes1) (nodeId :: sources).
Proof.
  induction k as [|k IH]; intros nodeId Hne.
  { exists []. split_and!; [done..|]. repeat constructor.
    by apply differing_back. }
  destruct (differing_back nodeId Hne) as (Hid & s & Hd & Hs).
  destruct (IH s Hs) as (sources & Hlen & Hchain & Hall).
  exists (s :: sources). split_and!; [by rewrite <- Hlen|done|by constructor].
Qed.

Lemma settled_values_agree :
  acyclic wires → ∀ nodeId, value_of nodeId nodes1 = value_of nodeId nodes2.
Proof.
  intros Hac nodeId.
  destruct (decide (value_of nodeId nodes1 = value_of nodeId nodes2))
    as [|Hne]; [done|].
  exfalso.
  destruct (differing_chain (length nodes1) nodeId Hne)
    as (sources & Hlen & Hchain & Hall).
  assert (NoDup (nodeId :: sources)) as Hnd by by apply (chain_NoDup wires).
  assert (nodeId :: sources ⊆ id <$> nodes1) as Hsub.
  { intros z Hz. rewrite Forall_forall in Hall. by apply Hall. }
  apply NoDup_submseteq in Hsub; [|done].
  apply submseteq_length in Hsub. rewrite length_fmap in Hsub.
  cbn [length] in Hsub. lia.
Qed.

Lemma settled_lists_agree :
  acyclic wires → value <$> nodes1 = value <$> nodes2.
Proof.
  intros Hac. pose proof (settled_values_agree Hac) as Hval.
  assert (Forall2 (λ a b, a ∈ nodes1 ∧ b ∈ nodes2 ∧ id a = id b ∧
                          type a = type b ∧
                          (type a = INPUT → value a = value b)) nodes1 nodes2)
    as Hall.
  { apply Forall2_same_length_lookup. split; [by eapply Forall2_length|].
    intros i a b Ha Hb.
    pose proof (Forall2_lookup_lr _ _ _ _ _ _ Hsame Ha Hb) as (?&?&?).
    split_and!; try done; by eapply list_elem_of_lookup_2. }
  apply list_eq_Forall2, Forall2_fmap.
  eapply Forall2_impl; [exact Hall|]. intros a b (Ha & Hb & Hid & Ht & Hv). cbn.
  apply settled_node_values; try done; intros w _ _; apply Hval.
Qed.

End Unique.

Lemma settled_values_same (wires : list Wire)
    (nodes1 nodes2 : list CircuitNode) :
  acyclic wires → (length nodes1 ≤ MAX_ITERATIONS)%nat →
  same_circuit nodes1 nodes2 →
  value <$> simulateCircuit nodes1 wires
  = value <$> simulateCircuit nodes2 wires.
Proof.
  intros Hac Hsize Hsame.
  assert (length nodes2 = length nodes1) as Hlen
    by (symmetry; by eapply Forall2_length).
  apply (settled_lists_agree wires).
  - by apply same_circuit_passes.
  - by apply simulateCircuit_settled.
  - apply simulateCircuit_settled; [done|lia].
  - done.
Qed.

(** X5. An acyclic circuit of at most 50 nodes is combinational: the values
    the evaluator returns depend only on the ids and types of the nodes, the
    wires and the values of the INPUT nodes, not on the values the other
    nodes carry in the list passed in. *)
Theorem settled_values_unique (wires : list Wire)
    (nodes1 nodes2 : list CircuitNode) :
  acyclic wires → (length nodes1 ≤ MAX_ITERATIONS)%nat →
  same_circuit nodes1 nodes2 →
  value <$> simulateCircuit nodes1 wires
  = value <$> simulateCircuit nodes2 wires.
Proof. apply settled_values_same. Qed.

Lemma settled_values_unique_witness :
  acyclic case1_wires ∧ (length case1_nodes ≤ MAX_ITERATIONS)%nat ∧
  same_circuit case1_nodes case1_stale_nodes ∧
  value <$> simulateCircuit case1_nodes case1_wires
  = value <$> simulateCircuit case1_stale_nodes case1_wires.
Proof.
  assert (length case1_nodes ≤ MAX_ITERATIONS)%nat as Hsize
    by (vm_compute; lia).
  assert (same_circuit case1_nodes case1_stale_nodes) as Hsame
    by (repeat (apply Forall2_cons; split; [by split_and!|]);
        apply Forall2_nil_2).
  split_and!; [exact case1_wires_acyclic|exact Hsize|exact Hsame|].
  apply (settled_values_unique case1_wires case1_nodes case1_stale_nodes
           case1_wires_acyclic Hsize Hsame).
Defined.

(** ** The analysis depends on the structure only *)

Lemma same_structure_refl nodes : same_structure nodes nodes.
Proof. apply Forall_Forall2_diag, Forall_forall. done. Qed.

Lemma same_structure_filter t nodes1 nodes2 :
  same_structure nodes1 nodes2 →
  same_structure (filter (λ n, type n = t) nodes1)
    (filter (λ n, type n = t) nodes2).
Proof.
  intros Hsame. induction Hsame as [|a b l1 l2 (Hid & Ht & Hl) _ IH].
  { constructor. }
  rewrite !filter_cons, <- Ht. case_decide; [|done]. by constructor.
Qed.

Lemma same_structure_sort_insert cmp a b l1 l2 :
  id a = id b ∧ type a = type b ∧ label a = label b →
  same_structure l1 l2 →
  same_structure (sort_insert (by_label cmp) a l1)
    (sort_insert (by_label cmp) b l2).
Proof.
  intros Hab Hsame. induction Hsame as [|c d l1 l2 Hcd Hrest IH].
  { cbn. apply Forall2_cons. split; [done|constructor]. }
  cbn [sort_insert]. unfold by_label at 1 3.
  pose proof Hab as (_ & _ & Hlab). pose proof Hcd as (_ & _ & Hlcd).
  rewrite <- Hlab, <- Hlcd.
  destruct (cmp (label a) (label c) <=? 0).
  - apply Forall2_cons. split; [done|]. by apply Forall2_cons.
  - by apply Forall2_cons.
Qed.

Lemma same_structure_sorted cmp t nodes1 nodes2 :
  same_structure nodes1 nodes2 →
  same_structure (sorted_of_type cmp t nodes1) (sorted_of_type cmp t nodes2).
Proof.
  intros Hsame. unfold sorted_of_type.
  apply (same_structure_filter t) in Hsame.
  induction Hsame as [|a b l1 l2 Hab _ IH]; [constructor|].
  cbn [js_sort foldr]. by apply same_structure_sort_insert.
Qed.

Lemma same_structure_ids nodes1 nodes2 :
  same_structure nodes1 nodes2 → id <$> nodes1 = id <$> nodes2.
Proof.
  intros Hsame. apply list_eq_Forall2, Forall2_fmap.
  eapply Forall2_impl; [exact Hsame|]. by intros a b (? & _).
Qed.

Lemma same_structure_labels nodes1 nodes2 :
  same_structure nodes1 nodes2 → label <$> nodes1 = label <$> nodes2.
Proof.
  intros Hsame. apply list_eq_Forall2, Forall2_fmap.
  eapply Forall2_impl; [exact Hsame|]. by intros a b (_ & _ & ?).
Qed.

Lemma record_inputs_labels i len inps1 : ∀ inps2 idx rowInputs,
  label <$> inps1 = label <$> inps2 →
  record_inputs i len idx inps1 rowInputs
  = record_inputs i len idx inps2 rowInputs.
Proof.
  induction inps1 as [|a l1 IH]; intros [|b l2] idx rowInputs Hl; try done.
  rewrite !fmap_cons in Hl. injection Hl as Hab Hl.
  cbn [record_inputs]. rewrite Hab. by apply IH.
Qed.

Lemma findIndex_fst {A} (p : A → bool) (l : list A) :
  findIndex p l
  = match fst <$> list_find (λ a, p a = true) l with
    | Some i => Z.of_nat i
    | None => -1
    end.
Proof. unfold findIndex. by destruct (list_find _ l) as [[??]|]. Qed.

Lemma list_find_fst_cons {A} (P : A → Prop) `{∀ a, Decision (P a)} a l :
  fst <$> list_find P (a :: l)
  = if decide (P a) then Some 0%nat else S <$> (fst <$> list_find P l).
Proof.
  cbn [list_find]. case_decide; [done|].
  by destruct (list_find P l) as [[??]|].
Qed.

Lemma findIndex_ids (inps1 inps2 : list CircuitNode) nodeId :
  id <$> inps1 = id <$> inps2 →
  findIndex (λ inp, String.eqb (id inp) nodeId) inps1
  = findIndex (λ inp, String.eqb (id inp) nodeId) inps2.
Proof.
  intros Hids. rewrite !findIndex_fst.
  assert (fst <$> list_find (λ a, String.eqb (id a) nodeId = true) inps1
          = fst <$> list_find (λ a, String.eqb (id a) nodeId = true) inps2)
    as ->; [|done].
  revert inps2 Hids.
  induction inps1 as [|a l1 IH]; intros [|b l2] Hids; try done.
  rewrite !fmap_cons in Hids. injection Hids as Hab Hids.
  rewrite !list_find_fst_cons, <- Hab, (IH l2 Hids). done.
Qed.

Lemma same_circuit_working_copy nodes1 nodes2 inps1 inps2 i :
  same_structure nodes1 nodes2 → same_structure inps1 inps2 →
  same_circuit (set_input_states nodes1 inps1 i)
    (set_input_states nodes2 inps2 i).
Proof.
  intros Hsame Hinps. unfold set_input_states. apply Forall2_fmap.
  eapply Forall2_impl; [exact Hsame|]. intros a b (Hid & Ht & _). cbn.
  rewrite <- Ht, <- Hid.
  rewrite (findIndex_ids inps1 inps2) by by apply same_structure_ids.
  rewrite (Forall2_length _ _ _ Hinps).
  destruct (type a) eqn:Hta; cbn; rewrite ?Hta;
    (split_and!; [done|congruence|]); try done; intros; congruence.
Qed.

Lemma value_of_lists nodeId nodes1 nodes2 :
  id <$> nodes1 = id <$> nodes2 → value <$> nodes1 = value <$> nodes2 →
  value_of nodeId nodes1 = value_of nodeId nodes2.
Proof.
  unfold value_of, find_node. revert nodes2.
  induction nodes1 as [|a l1 IH]; intros [|b l2] Hids Hvals; try done.
  cbn in Hids, Hvals.
  injection Hids as Hab Hids. injection Hvals as Hv Hvals.
  cbn [List.find]. rewrite <- Hab.
  destruct (String.eqb (id a) nodeId); [by cbn; rewrite Hv|by apply IH].
Qed.

Lemma record_outputs_agree temp1 temp2 outs1 outs2 :
  same_structure outs1 outs2 →
  (∀ nodeId, value_of nodeId temp1 = value_of nodeId temp2) →
  record_outputs temp1 outs1 = record_outputs temp2 outs2.
Proof.
  intros Hsame Hval. unfold record_outputs. generalize (∅ : gmap string bool).
  induction Hsame as [|a b l1 l2 (Hid & _ & Hl) _ IH]; intros acc; [done|].
  cbn [foldl]. rewrite IH. f_equal. rewrite <- Hid, <- Hl.
  specialize (Hval (id a)). unfold value_of in Hval.
  destruct (find_node (id a) temp1), (find_node (id a) temp2);
    cbn in Hval; try discriminate; [|done].
  injection Hval as Hv. by rewrite Hv.
Qed.

Lemma set_input_states_length nodes inps i :
  length (set_input_states nodes inps i) = length nodes.
Proof. unfold set_input_states. by rewrite length_fmap. Qed.

Lemma truth_table_same (localeCompare : string → string → Z)
    (wires : list Wire) (nodes1 nodes2 : list CircuitNode) :
  acyclic wires → (length nodes1 ≤ MAX_ITERATIONS)%nat →
  same_structure nodes1 nodes2 →
  generateTruthTable localeCompare nodes1 wires
  = generateTruthTable localeCompare nodes2 wires.
Proof.
  intros Hac Hsize Hsame. unfold generateTruthTable.
  pose proof (same_structure_sorted localeCompare INPUT _ _ Hsame) as Hinps.
  pose proof (same_structure_sorted localeCompare OUTPUT _ _ Hsame) as Houts.
  rewrite <- (Forall2_length _ _ _ Hinps).
  destruct (length _ =? 0)%nat; [done|].
  apply list_fmap_ext. intros _ i _. unfold table_row. f_equal.
  - rewrite <- (Forall2_length _ _ _ Hinps).
    apply record_inputs_labels. by apply same_structure_labels.
  - apply record_outputs_agree; [done|]. intros nodeId.
    apply value_of_lists.
    + rewrite !simulateCircuit_ids, !set_input_states_ids.
      by apply same_structure_ids.
    + apply settled_values_same; [done| |].
      * by rewrite set_input_states_length.
      * by apply same_circuit_working_copy.
Qed.

(** X6. The truth table of an acyclic circuit of at most 50 nodes is a
    function of the structure: two node lists with the same ids, types and
    labels give the same table, whatever values the nodes carry. *)
Theorem truth_table_structural (localeCompare : string → string → Z)
    (wires : list Wire) (nodes1 nodes2 : list CircuitNode) :
  acyclic wires → (length nodes1 ≤ MAX_ITERATIONS)%nat →
  same_structure nodes1 nodes2 →
  generateTruthTable localeCompare nodes1 wires
  = generateTruthTable localeCompare nodes2 wires.
Proof. apply truth_table_same. Qed.

Lemma truth_table_structural_witness :
  acyclic case1_wires ∧ (length case1_nodes ≤ MAX_ITERATIONS)%nat ∧
  same_structure case1_nodes case1_moved_nodes ∧
  generateTruthTable byte_compare case1_nodes case1_wires
  = generateTruthTable byte_compare case1_moved_nodes case1_wires.
Proof.
  assert (length case1_nodes ≤ MAX_ITERATIONS)%nat as Hsize
    by (vm_compute; lia).
  assert (same_structure case1_nodes case1_moved_nodes) as Hsame
    by (repeat (apply Forall2_cons; split; [by split_and!|]);
        apply Forall2_nil_2).
  split_and!; [exact case1_wires_acyclic|exact Hsize|exact Hsame|].
  apply (truth_table_structural byte_compare case1_wires case1_nodes
           case1_moved_nodes case1_wires_acyclic Hsize Hsame).
Defined.


Lemma simulateCircuit_same_structure nodes wires :
  same_structure nodes (simulateCircuit nodes wires).
Proof.
  rewrite simulateCircuit_after.
  destruct (after_passes_frame wires (passes nodes wires) nodes) as [Hlen Hframe].
  apply Forall2_same_length_lookup. split; [done|]. intros i a b Ha Hb.
  destruct (Hframe i a Ha) as (b' & Hb' & Hid & Ht & Hl & _).
  by simplify_eq.
Qed.

(** X7. For an acyclic circuit of at most 50 nodes, the truth table that the
    application computes from the evaluated node list is the truth table of
    the node list itself. *)
Theorem truth_table_of_simulated (localeCompare : string → string → Z)
    (nodes : list CircuitNode) (wires : list Wire) :
  acyclic wires → (length nodes ≤ MAX_ITERATIONS)%nat →
  generateTruthTable localeCompare (simulateCircuit nodes wires) wires
  = generateTruthTable localeCompare nodes wires.
Proof.
  intros Hac Hsize. symmetry.
  apply truth_table_same; [done..|apply simulateCircuit_same_structure].
Qed.

Lemma truth_table_of_simulated_witness :
  acyclic case2_wires ∧ (length case2_nodes ≤ MAX_ITERATIONS)%nat ∧
  generateTruthTable byte_compare (simulateCircuit case2_nodes case2_wires)
    case2_wires
  = generateTruthTable byte_compare case2_nodes case2_wires.
Proof.
  assert (acyclic case2_wires) as Hac.
  { apply (ranked_acyclic (λ s, if String.eqb s "y" then 2%nat
                                else if String.eqb s "g" then 1%nat
                                else 0%nat)).
    unfold case2_wires. repeat constructor. }
  assert (length case2_nodes ≤ MAX_ITERATIONS)%nat as Hsize
    by (vm_compute; lia).
  split_and!; [exact Hac|exact Hsize|].
  apply (truth_table_of_simulated byte_compare case2_nodes case2_wires Hac Hsize).
Defined.

(** ** The expression *)

Lemma find_node_same_structure nodeId nodes1 nodes2 :
  same_structure nodes1 nodes2 →
  match find_node nodeId nodes1, find_node nodeId nodes2 with
  | Some a, Some b => type a = type b ∧ label a = label b
  | None, None => True
  | _, _ => False
  end.
Proof.
  intros Hsame. unfold find_node.
  induction Hsame as [|a b l1 l2 (Hid & Ht & Hl) _ IH]; [done|].
  cbn [List.find]. rewrite <- Hid.
  by destruct (String.eqb (id a) nodeId).
Qed.

Lemma buildExpr_structural wires nodes1 nodes2 fuel :
  same_structure nodes1 nodes2 → ∀ nodeId visited,
  buildExpr nodes1 wires fuel nodeId visited
  = buildExpr nodes2 wires fuel nodeId visited.
Proof.
  intros Hsame. induction fuel as [|fuel IH]; intros nodeId visited; [done|].
  cbn [buildExpr]. case_decide; [done|].
  pose proof (find_node_same_structure nodeId nodes1 nodes2 Hsame) as Hfind.
  destruct (find_node nodeId nodes1) as [a|], (find_node nodeId nodes2) as [b|];
    try done.
  destruct Hfind as [Ht Hl]. rewrite <- Ht, <- Hl.
  rewrite (mapM_ext _ (λ w, buildExpr nodes2 wires fuel (sourceNodeId w)
                              ({[nodeId]} ∪ visited))); [done|].
  intros w. apply IH.
Qed.

Lemma generateExpression_same (wires : list Wire)
    (nodes1 nodes2 : list CircuitNode) :
  same_structure nodes1 nodes2 →
  generateExpression nodes1 wires = generateExpression nodes2 wires.
Proof.
  intros Hsame. unfold generateExpression, generateExpression_fuel, expr_fuel.
  pose proof (same_structure_filter OUTPUT _ _ Hsame) as Houts.
  rewrite <- (Forall2_length _ _ _ Hsame), <- (Forall2_length _ _ _ Houts).
  destruct (length (filter _ nodes1) =? 0)%nat; [done|]. f_equal.
  induction Houts as [|a b o1 o2 (Hid & _ & Hl) _ IH]; [done|].
  cbn [mapM]. rewrite IH, <- Hid, <- Hl.
  by rewrite (buildExpr_structural wires nodes1 nodes2).
Qed.

(** X8. The expression is a function of the structure: node lists with the
    same ids, types and labels give the same expression, in any circuit,
    whatever values and coordinates the nodes carry. *)
Theorem expression_structural (wires : list Wire)
    (nodes1 nodes2 : list CircuitNode) :
  same_structure nodes1 nodes2 →
  generateExpression nodes1 wires = generateExpression nodes2 wires.
Proof. apply generateExpression_same. Qed.

Lemma expression_structural_witness :
  same_structure case1_nodes case1_moved_nodes ∧
  generateExpression case1_nodes case1_wires
  = generateExpression case1_moved_nodes case1_wires.
Proof.
  assert (same_structure case1_nodes case1_moved_nodes) as Hsame
    by (repeat (apply Forall2_cons; split; [by split_and!|]);
        apply Forall2_nil_2).
  split; [exact Hsame|].
  apply (expression_structural case1_wires case1_nodes case1_moved_nodes Hsame).
Defined.

(** X19. The expression that the application displays, computed from the
    evaluated node list, is the expression of the node list itself, for every
    circuit. *)
Theorem expression_of_simulated (nodes : list CircuitNode)
    (wires : list Wire) :
  generateExpression (simulateCircuit nodes wires) wires
  = generateExpression nodes wires.
Proof.
  symmetry. apply generateExpression_same, simulateCircuit_same_structure.
Qed.

(** ** The simulation effect of the application *)

Lemma node_eq_value (a b : CircuitNode) :
  id a = id b → type a = type b → label a = label b → x a = x b → y a = y b →
  value a = value b → a = b.
Proof. destruct a, b. cbn. by intros -> -> -> -> -> ->. Qed.

Lemma some_changed_spec nodes : ∀ simulated i,
  Forall2 (λ a b, id a = id b ∧ type a = type b ∧ label a = label b ∧
                  x a = x b ∧ y a = y b) simulated (drop i nodes) →
  some_changed i simulated nodes
  = Some (bool_decide (simulated ≠ drop i nodes)).
Proof.
  induction simulated as [|n rest IH]; intros i Hframe.
  { apply Forall2_nil_inv_l in Hframe. rewrite Hframe. cbn.
    by rewrite bool_decide_eq_false_2 by (intros H; by apply H). }
  destruct (drop i nodes) as [|m tail] eqn:Hdrop;
    [by apply Forall2_nil_inv_r in Hframe|].
  apply Forall2_cons in Hframe as [(Hid & Ht & Hl & Hx & Hy) Hframe].
  assert (nodes !! i = Some m) as Hi.
  { rewrite <- (Nat.add_0_r i), <- lookup_drop, Hdrop. done. }
  assert (drop (S i) nodes = tail) as Htail.
  { pose proof (drop_S _ _ _ Hi) as Hd. rewrite Hdrop in Hd. by simplify_eq. }
  cbn [some_changed]. rewrite Hi.
  destruct (negb (Bool.eqb (value n) (value m))) eqn:Hv.
  - apply negb_true_iff, Bool.eqb_false_iff in Hv.
    rewrite bool_decide_eq_true_2; [done|]. intros Heq. by simplify_eq.
  - apply negb_false_iff, Bool.eqb_prop in Hv.
    rewrite IH by by rewrite Htail. rewrite Htail. f_equal.
    assert (n = m) as -> by by apply node_eq_value.
    apply bool_decide_ext. split; [congruence|].
    intros Hne Heq. apply Hne. by f_equal.
Qed.

Lemma simulateCircuit_frame_pure nodes wires :
  Forall2 (λ a b, id a = id b ∧ type a = type b ∧ label a = label b ∧
                  x a = x b ∧ y a = y b) (simulateCircuit nodes wires) nodes.
Proof.
  rewrite simulateCircuit_after.
  destruct (after_passes_frame wires (passes nodes wires) nodes) as [Hlen Hframe].
  apply Forall2_same_length_lookup. split; [done|]. intros i a b Ha Hb.
  destruct (Hframe i b Hb) as (a' & Ha' & ?). by simplify_eq.
Qed.

(** X9. The simulation effect never fails: [nodes[i]] is defined for every
    index it reads. Its change detection is exact, [hasChanges] being false
    precisely when the evaluation returned the node list unchanged, so that
    the node state after the effect is the evaluated list in both cases. *)
Theorem simulation_effect_exact (localeCompare : string → string → Z)
    (nodes : list CircuitNode) (wires : list Wire) :
  some_changed 0 (simulateCircuit nodes wires) nodes
  = Some (bool_decide (simulateCircuit nodes wires ≠ nodes)) ∧
  simulation_effect localeCompare nodes wires
  = Some {| eff_nodes := simulateCircuit nodes wires;
            eff_truthTable :=
              generateTruthTable localeCompare (simulateCircuit nodes wires)
                wires;
            eff_expression :=
              generateExpression (simulateCircuit nodes wires) wires |}.
Proof.
  pose proof (some_changed_spec nodes (simulateCircuit nodes wires) 0
                (simulateCircuit_frame_pure nodes wires)) as Hsome.
  rewrite drop_0 in Hsome. split; [done|].
  unfold simulation_effect. rewrite Hsome. cbn.
  case_bool_decide as Hne; [done|]. by do 2 f_equal.
Qed.

(** X10. When the evaluation stopped before the pass cap, the run of the
    effect that its own [setNodes] triggers finds no change: the render loop
    ends after that run. *)
Theorem simulation_effect_settles (localeCompare : string → string → Z)
    (nodes : list CircuitNode) (wires : list Wire) (r : EffectResult) :
  (passes nodes wires < MAX_ITERATIONS)%nat →
  simulation_effect localeCompare nodes wires = Some r →
  some_changed 0 (simulateCircuit (eff_nodes r) wires) (eff_nodes r)
  = Some false ∧
  ∃ r', simulation_effect localeCompare (eff_nodes r) wires = Some r' ∧
        eff_nodes r' = eff_nodes r.
Proof.
  intros Hp Hr.
  pose proof (some_changed_spec nodes (simulateCircuit nodes wires) 0
                (simulateCircuit_frame_pure nodes wires)) as Hsome.
  rewrite drop_0 in Hsome. unfold simulation_effect in Hr.
  rewrite Hsome in Hr. cbn in Hr. injection Hr as <-. cbn [eff_nodes].
  set (nodes' := if bool_decide (simulateCircuit nodes wires ≠ nodes)
                 then simulateCircuit nodes wires else nodes).
  assert (nodes' = simulateCircuit nodes wires) as ->.
  { unfold nodes'. by case_bool_decide. }
  assert (simulateCircuit (simulateCircuit nodes wires) wires
          = simulateCircuit nodes wires) as Hidem.
  { assert (next_nodes wires (simulateCircuit nodes wires)
            = simulateCircuit nodes wires) as Hfix.
    { destruct (simulate_run_spec nodes wires) as (k & ch & Hrun & _ & _ & Hlast).
      unfold simulateCircuit, passes in *. rewrite Hrun in *.
      cbn [fst snd] in *. destruct ch; [lia|]. rewrite Hlast. exact Hlast. }
    unfold simulateCircuit at 1.
    by rewrite (simulateCircuit_fixed_point _ _ Hfix). }
  pose proof (some_changed_spec (simulateCircuit nodes wires)
                (simulateCircuit (simulateCircuit nodes wires) wires) 0
                (simulateCircuit_frame_pure _ wires)) as Hsome'.
  rewrite drop_0, Hidem in Hsome'.
  rewrite bool_decide_eq_false_2 in Hsome' by (intros H; by apply H).
  split; [by rewrite Hidem|].
  eexists. split.
  - unfold simulation_effect. rewrite Hidem, Hsome'. cbn. reflexivity.
  - reflexivity.
Qed.

Lemma simulation_effect_settles_witness :
  (passes case1_nodes case1_wires < MAX_ITERATIONS)%nat ∧
  ∃ r, simulation_effect byte_compare case1_nodes case1_wires = Some r ∧
       some_changed 0 (simulateCircuit (eff_nodes r) case1_wires) (eff_nodes r)
       = Some false.
Proof.
  assert (passes case1_nodes case1_wires < MAX_ITERATIONS)%nat as Hp
    by (vm_compute; lia).
  split; [exact Hp|]. eexists. split; [reflexivity|].
  apply (simulation_effect_settles byte_compare case1_nodes case1_wires _ Hp
           eq_refl).
Defined.

(** ** Toggling an input *)

Lemma handleToggleInput_same_structure nodeId nodes :
  same_structure nodes (handleToggleInput nodeId nodes).
Proof.
  unfold handleToggleInput. apply Forall2_fmap_r, Forall_Forall2_diag, Forall_forall.
  intros n _. cbn.
  by destruct (String.eqb (id n) nodeId && bool_decide (type n = INPUT)).
Qed.

(** X11. Toggling an input twice gives back the node list; toggling an id
    that belongs to no INPUT node changes nothing; and a toggle changes values
    only, so that the expression is the same before and after. *)
Theorem handleToggleInput_involutive (nodeId : string)
    (nodes : list CircuitNode) (wires : list Wire) :
  handleToggleInput nodeId (handleToggleInput nodeId nodes) = nodes ∧
  (Forall (λ n, id n = nodeId → type n ≠ INPUT) nodes →
   handleToggleInput nodeId nodes = nodes) ∧
  generateExpression (handleToggleInput nodeId nodes) wires
  = generateExpression nodes wires.
Proof.
  split_and!.
  - unfold handleToggleInput. rewrite <- list_fmap_compose.
    apply fmap_fixed. intros n _. cbn.
    destruct (String.eqb (id n) nodeId && bool_decide (type n = INPUT)) eqn:Hc;
      cbn; rewrite Hc; [|done].
    destruct n as [? ? ? ? ? v]. cbn. by destruct v.
  - intros Hall. apply fmap_fixed. intros n Hin.
    rewrite Forall_forall in Hall. specialize (Hall n Hin).
    destruct (String.eqb (id n) nodeId) eqn:Hid; [|done].
    apply String.eqb_eq in Hid. by rewrite bool_decide_eq_false_2 by auto.
  - symmetry. apply generateExpression_same, handleToggleInput_same_structure.
Qed.

(** ** Adding gates *)

Lemma append_inj_l (p a b : string) : p ++ a = p ++ b → a = b.
Proof.
  induction p as [|c p IH]; cbn; [done|]. intros Heq. apply IH.
  by injection Heq.
Qed.

Section AddGate.

Variable fromCharCode : Z → string.

Lemma handleAddGate_filter t t' x0 y0 newId nodes :
  filter (λ n, type n = t') (handleAddGate fromCharCode t x0 y0 newId nodes)
  = (filter (λ n, type n = t') nodes
    ++ (if decide (t = t')
        then [{| id := newId; type := t; x := x0; y := y0;
                 label := if decide (t = OUTPUT)
                          then "Y" ++ pretty (length (filter (λ n, type n = OUTPUT) nodes))
                          else if decide (t = INPUT)
                               then fromCharCode
                                      (65 + Z.of_nat (length (filter (λ n, type n = INPUT) nodes)))
                               else "";
                 value := false |}]
        else []))%list.
Proof.
  unfold handleAddGate. rewrite filter_app, filter_cons, filter_nil. cbn.
  destruct (decide (t = t')) as [->|Hne]; [|done].
  by destruct (decide (t' = OUTPUT)), (decide (t' = INPUT)).
Qed.

Lemma added_only_labels nodes :
  added_only fromCharCode nodes →
  label <$> filter (λ n, type n = OUTPUT) nodes
  = (λ k : nat, "Y" ++ pretty k)
      <$> seq 0 (length (filter (λ n, type n = OUTPUT) nodes)) ∧
  label <$> filter (λ n, type n = INPUT) nodes
  = (λ k : nat, fromCharCode (65 + Z.of_nat k))
      <$> seq 0 (length (filter (λ n, type n = INPUT) nodes)) ∧
  Forall (λ n, type n ≠ INPUT → type n ≠ OUTPUT → label n = "") nodes.
Proof.
  induction 1 as [|t x0 y0 newId nodes _ (IHo & IHi & IHg)]; [by repeat constructor|].
  rewrite !handleAddGate_filter. split_and!.
  - destruct (decide (t = OUTPUT)) as [->|Hne].
    + rewrite fmap_app, length_app, seq_app, fmap_app, IHo. cbn. done.
    + by rewrite app_nil_r.
  - destruct (decide (t = INPUT)) as [->|Hne].
    + rewrite fmap_app, length_app, seq_app, fmap_app, IHi. cbn. done.
    + by rewrite app_nil_r.
  - unfold handleAddGate. apply Forall_app. split; [done|].
    constructor; [|constructor]. cbn. intros Hi Ho.
    by rewrite !decide_False.
Qed.

(** X12. In a node list built by [handleAddGate] alone, the OUTPUT nodes are
    labelled Y0, Y1, ... in the order of the list and no two of them share a
    label; the INPUT nodes are labelled with the characters of codes 65, 66,
    ... in order, and no two share a label as long as [fromCharCode] gives
    different strings for these codes; every other gate has the empty label;
    and every node has the value false. *)
Theorem added_only_labelled (nodes : list CircuitNode) :
  added_only fromCharCode nodes →
  label <$> filter (λ n, type n = OUTPUT) nodes
  = (λ k : nat, "Y" ++ pretty k)
      <$> seq 0 (length (filter (λ n, type n = OUTPUT) nodes)) ∧
  NoDup (label <$> filter (λ n, type n = OUTPUT) nodes) ∧
  label <$> filter (λ n, type n = INPUT) nodes
  = (λ k : nat, fromCharCode (65 + Z.of_nat k))
      <$> seq 0 (length (filter (λ n, type n = INPUT) nodes)) ∧
  ((∀ j k : nat, (j < k < length (filter (λ n, type n = INPUT) nodes))%nat →
       fromCharCode (65 + Z.of_nat j) ≠ fromCharCode (65 + Z.of_nat k)) →
   NoDup (label <$> filter (λ n, type n = INPUT) nodes)) ∧
  Forall (λ n, type n ≠ INPUT → type n ≠ OUTPUT → label n = "") nodes ∧
  Forall (λ n, value n = false) nodes.
Proof.
  intros Hadd. destruct (added_only_labels nodes Hadd) as (Ho & Hi & Hg).
  split_and!; try done.
  - rewrite Ho. apply NoDup_fmap_2; [|apply NoDup_seq].
    intros j k Heq. apply append_inj_l in Heq. by apply (inj pretty).
  - intros Hinj. rewrite Hi. apply NoDup_alt. intros j k s Hj Hk.
    rewrite list_lookup_fmap in Hj, Hk.
    destruct (seq _ _ !! j) as [j'|] eqn:Hj'; [|done].
    destruct (seq _ _ !! k) as [k'|] eqn:Hk'; [|done].
    apply lookup_seq in Hj' as [-> ?]. apply lookup_seq in Hk' as [-> ?].
    cbn in Hj, Hk. injection Hj as Hj. injection Hk as Hk.
    destruct (Nat.lt_trichotomy j k) as [Hlt|[->|Hgt]]; [|done|].
    + exfalso. apply (Hinj j k); [lia|]. by rewrite Hj, Hk.
    + exfalso. apply (Hinj k j); [lia|]. by rewrite Hj, Hk.
  - clear -Hadd. induction Hadd as [|t x0 y0 newId nodes _ IH]; [constructor|].
    unfold handleAddGate. apply Forall_app. split; [done|].
    by repeat constructor.
Qed.

End AddGate.

Lemma added_only_labelled_witness :
  let nodes :=
    handleAddGate ascii_fromCharCode OUTPUT 9 9 "n3"
      (handleAddGate ascii_fromCharCode INPUT 0 5 "n2"
         (handleAddGate ascii_fromCharCode INPUT 0 0 "n1" [])) in
  added_only ascii_fromCharCode nodes ∧
  NoDup (label <$> filter (λ n, type n = OUTPUT) nodes) ∧
  label <$> filter (λ n, type n = INPUT) nodes = ["A"; "B"].
Proof.
  cbn zeta.
  assert (added_only ascii_fromCharCode
            (handleAddGate ascii_fromCharCode OUTPUT 9 9 "n3"
               (handleAddGate ascii_fromCharCode INPUT 0 5 "n2"
                  (handleAddGate ascii_fromCharCode INPUT 0 0 "n1" []))))
    as Hadd by (repeat constructor).
  split_and!; [exact Hadd| |].
  - apply (added_only_labelled ascii_fromCharCode _ Hadd).
  - apply (added_only_labelled ascii_fromCharCode _ Hadd).
Defined.

(** ** Connecting pins *)

Lemma find_target_Some (target : PinRef) prev e :
  List.find (λ w, String.eqb (targetNodeId w) (pin_nodeId target)
                  && (targetPinIndex w =? pin_pinIndex target)) prev = Some e →
  e ∈ prev ∧ pin_of e = (pin_nodeId target, pin_pinIndex target).
Proof.
  intros Hfind. apply find_some in Hfind as [Hin Hp].
  apply andb_true_iff in Hp as [Hn Hk].
  apply String.eqb_eq in Hn. apply Z.eqb_eq in Hk.
  split; [by apply list_elem_of_In|]. unfold pin_of. by rewrite Hn, Hk.
Qed.

Lemma find_target_None (target : PinRef) prev :
  List.find (λ w, String.eqb (targetNodeId w) (pin_nodeId target)
                  && (targetPinIndex w =? pin_pinIndex target)) prev = None →
  (pin_nodeId target, pin_pinIndex target) ∉ pin_of <$> prev.
Proof.
  intros Hfind Hin. apply list_elem_of_fmap in Hin as (w & Hp & Hin).
  eapply find_none in Hfind; [|by apply list_elem_of_In].
  unfold pin_of in Hp. injection Hp as Hn Hk.
  rewrite <- Hn, <- Hk, String.eqb_refl, Z.eqb_refl in Hfind. done.
Qed.

(** With distinct ids the replacement touches one position. *)
Lemma replace_unique (newWire e : Wire) prev :
  NoDup (wire_id <$> prev) → e ∈ prev →
  ∃ l1 l2, prev = (l1 ++ e :: l2)%list ∧
    (λ w, if String.eqb (wire_id w) (wire_id e) then newWire else w) <$> prev
    = (l1 ++ newWire :: l2)%list.
Proof.
  intros Hnd Hin. apply list_elem_of_split in Hin as (l1 & l2 & ->).
  exists l1, l2. split; [done|].
  rewrite fmap_app, fmap_cons in Hnd.
  apply NoDup_app in Hnd as (_ & Hl1 & Hnd). apply NoDup_cons in Hnd as [Hl2 _].
  rewrite fmap_app, fmap_cons, String.eqb_refl. f_equal; [|f_equal].
  - apply fmap_fixed. intros w Hw.
    destruct (String.eqb (wire_id w) (wire_id e)) eqn:Heq; [|done].
    apply String.eqb_eq in Heq. exfalso. apply (Hl1 (wire_id w)).
    + apply list_elem_of_fmap. eauto.
    + rewrite Heq. by left.
  - apply fmap_fixed. intros w Hw.
    destruct (String.eqb (wire_id w) (wire_id e)) eqn:Heq; [|done].
    apply String.eqb_eq in Heq. exfalso. apply Hl2.
    apply list_elem_of_fmap. eauto.
Qed.

Lemma connect_wires_cases source target newId prev :
  NoDup (wire_id <$> prev) →
  (∃ l1 e l2, prev = (l1 ++ e :: l2)%list ∧
     pin_of e = (pin_nodeId target, pin_pinIndex target) ∧
     connect_wires source target newId prev
     = (l1 ++ new_wire newId source target :: l2)%list) ∨
  (((pin_nodeId target, pin_pinIndex target) ∉ pin_of <$> prev) ∧
   connect_wires source target newId prev
   = (prev ++ [new_wire newId source target])%list).
Proof.
  intros Hnd. unfold connect_wires.
  destruct (List.find _ prev) as [e|] eqn:Hfind.
  - left. apply find_target_Some in Hfind as [Hin Hp].
    destruct (replace_unique (new_wire newId source target) e prev Hnd Hin)
      as (l1 & l2 & Hprev & Hres).
    exists l1, e, l2. by rewrite Hres.
  - right. split; [by apply find_target_None|done].
Qed.

Lemma connect_wires_invariant source target newId prev :
  pin_nodeId source ≠ pin_nodeId target →
  newId ∉ wire_id <$> prev →
  editor_invariant prev →
  editor_invariant (connect_wires source target newId prev).
Proof.
  intros Hself Hfresh (Hsd & Hids & Hnoself). unfold editor_invariant, single_driver in *.
  destruct (connect_wires_cases source target newId prev Hids)
    as [(l1 & e & l2 & -> & Hp & ->)|[Hfree ->]].
  - rewrite !fmap_app, !fmap_cons in *. split_and!.
    + by replace (pin_of (new_wire newId source target)) with (pin_of e).
    + apply NoDup_app in Hids as (Hl1 & Hdisj & Hl2).
      apply NoDup_cons in Hl2 as [_ Hl2].
      apply NoDup_app. split_and!; [done| |].
      * intros z Hz Hin. apply elem_of_cons in Hin as [->|Hin].
        -- apply Hfresh. apply elem_of_app. by left.
        -- apply (Hdisj z Hz). by right.
      * apply NoDup_cons. split; [|done]. cbn. intros Hin.
        apply Hfresh. apply elem_of_app. right. by right.
    + unfold no_self_wire in *. rewrite Forall_app, Forall_cons in *.
      destruct Hnoself as (? & _ & ?). done.
  - rewrite !fmap_app. split_and!.
    + apply NoDup_app. split_and!; [done| |apply NoDup_singleton].
      intros z Hz Hin. apply list_elem_of_singleton in Hin as ->. done.
    + apply NoDup_app. split_and!; [done| |apply NoDup_singleton].
      intros z Hz Hin. apply list_elem_of_singleton in Hin as ->. done.
    + apply Forall_app. split; [done|]. by repeat constructor.
Qed.

Lemma gesture_nodes (start : PinRef) nodeId pinIndex type_ :
  pin_nodeId start ≠ nodeId → pin_type start ≠ type_ →
  let here := end_pin nodeId pinIndex type_ in
  pin_nodeId (gesture_source start here)
  ≠ pin_nodeId (gesture_target start here).
Proof.
  intros Hn Ht. cbn zeta. unfold gesture_source, gesture_target.
  destruct start as [sn sp st]. cbn in *.
  repeat case_decide; cbn; try congruence.
  destruct st, type_; congruence.
Qed.

Lemma handlePinMouseUp_cases start nodeId pinIndex type_ newId prev :
  handlePinMouseUp start nodeId pinIndex type_ newId prev = prev ∨
  ∃ s, start = Some s ∧ pin_nodeId s ≠ nodeId ∧ pin_type s ≠ type_ ∧
       handlePinMouseUp start nodeId pinIndex type_ newId prev
       = connect_wires (gesture_source s (end_pin nodeId pinIndex type_))
           (gesture_target s (end_pin nodeId pinIndex type_)) newId prev.
Proof.
  unfold handlePinMouseUp. destruct start as [s|]; [|by left].
  destruct (String.eqb (pin_nodeId s) nodeId) eqn:Hn; [by left|].
  apply String.eqb_neq in Hn. case_decide; [by left|]. right. eauto.
Qed.

(** X13. Ending a wire gesture keeps the invariant of the wire list: when
    no pin has two wires, the wire ids are distinct, no wire leads from a node
    to itself and the clock gives an id that no wire has, the same holds
    afterwards, whether the gesture is ignored, adds a wire or replaces the
    wire of an occupied pin. *)
Theorem handlePinMouseUp_invariant (start : option PinRef) (nodeId : string)
    (pinIndex : Z) (type_ : PinType) (newId : string) (prev : list Wire) :
  editor_invariant prev → newId ∉ wire_id <$> prev →
  editor_invariant (handlePinMouseUp start nodeId pinIndex type_ newId prev).
Proof.
  intros Hinv Hfresh.
  destruct (handlePinMouseUp_cases start nodeId pinIndex type_ newId prev)
    as [->|(s & -> & Hn & Ht & ->)]; [done|].
  apply connect_wires_invariant; [|done..]. by apply gesture_nodes.
Qed.

Lemma handlePinMouseUp_invariant_witness :
  editor_invariant case2_wires ∧
  (("w9" : string) ∉ wire_id <$> case2_wires) ∧
  editor_invariant
    (handlePinMouseUp (Some (mkPin "b" 0 pin_output)) "g" 0 pin_input "w9"
       case2_wires).
Proof.
  assert (editor_invariant case2_wires) as Hinv.
  { split_and!; [compute_done|compute_done|]. by repeat constructor. }
  assert (("w9" : string) ∉ wire_id <$> case2_wires) as Hfresh
    by compute_done.
  split_and!; [exact Hinv|exact Hfresh|].
  apply (handlePinMouseUp_invariant (Some (mkPin "b" 0 pin_output)) "g" 0
           pin_input "w9" case2_wires Hinv Hfresh).
Defined.

(** ** What the evaluator reads after a connection *)






(** ** Deleting nodes and wires *)

Lemma acyclic_subset wires wires' :
  wires' ⊆ wires → acyclic wires → acyclic wires'.
Proof.
  intros Hsub Hac nodeId Hcycle. apply (Hac nodeId).
  eapply (tc_congruence (λ s, s)); [|exact Hcycle].
  intros s t (w & Hw & Hs & Ht). exists w. split; [by apply Hsub|done].
Qed.

Lemma editor_invariant_filter (P : Wire → Prop) `{∀ w, Decision (P w)} wires :
  editor_invariant wires → editor_invariant (filter P wires).
Proof.
  intros (Hsd & Hids & Hself). unfold editor_invariant, single_driver in *.
  split_and!.
  - apply (sublist_NoDup _ (pin_of <$> wires)); [done|].
    apply fmap_sublist, sublist_filter.
  - apply (sublist_NoDup _ (wire_id <$> wires)); [done|].
    apply fmap_sublist, sublist_filter.
  - unfold no_self_wire in *. rewrite Forall_forall in Hself |- *.
    intros w Hw. apply Hself. by apply list_elem_of_filter in Hw as [_ ?].
Qed.

(** X15. Deleting a node removes every node with that id and every wire that
    starts or ends at it, and nothing else: no remaining wire mentions the id,
    a wire list whose wires all join present nodes stays so, and the invariant
    of the wire list and the absence of cycles are kept. *)
Theorem deleteNode_clean (nodeId : string) (nodes : list CircuitNode)
    (wires : list Wire) :
  let state := deleteNode nodeId (nodes, wires) in
  (nodeId ∉ id <$> state.1) ∧
  Forall (λ w, sourceNodeId w ≠ nodeId ∧ targetNodeId w ≠ nodeId) state.2 ∧
  (∀ n, n ∈ state.1 ↔ n ∈ nodes ∧ id n ≠ nodeId) ∧
  (∀ w, w ∈ state.2 ↔
        w ∈ wires ∧ sourceNodeId w ≠ nodeId ∧ targetNodeId w ≠ nodeId) ∧
  (closed_wires nodes wires → closed_wires state.1 state.2) ∧
  (editor_invariant wires → editor_invariant state.2) ∧
  (acyclic wires → acyclic state.2).
Proof.
  cbn zeta. unfold deleteNode. cbn [fst snd]. split_and!.
  - intros Hin. apply list_elem_of_fmap in Hin as (n & -> & Hn).
    by apply list_elem_of_filter in Hn as [Hne _].
  - apply Forall_forall. intros w Hw. by apply list_elem_of_filter in Hw as [? _].
  - intros n. rewrite list_elem_of_filter. tauto.
  - intros w. rewrite list_elem_of_filter. tauto.
  - unfold closed_wires. rewrite !Forall_forall. intros Hclosed w Hw.
    apply list_elem_of_filter in Hw as [[Hs Ht] Hw].
    destruct (Hclosed w Hw) as [Hsrc Htgt].
    apply list_elem_of_fmap in Hsrc as (a & Ha & Hain).
    apply list_elem_of_fmap in Htgt as (b & Hb & Hbin).
    split; apply list_elem_of_fmap.
    + exists a. split; [done|]. apply list_elem_of_filter. split; [congruence|done].
    + exists b. split; [done|]. apply list_elem_of_filter. split; [congruence|done].
  - apply editor_invariant_filter.
  - apply acyclic_subset. intros w Hw. by apply list_elem_of_filter in Hw as [_ ?].
Qed.

(** X16. Every wire list that the editor reaches from a list satisfying the
    invariant, by wire gestures, node deletions and wire deletions in any
    order, satisfies it as well, provided each created wire gets an id that no
    present wire has: no pin has two wires, the ids are distinct and no wire
    leads from a node to itself. The empty circuit satisfies the invariant. *)
Theorem editor_run_invariant (actions : list WireAction) (wires : list Wire) :
  editor_invariant wires → fresh_ids actions wires →
  editor_invariant (run_actions actions wires) ∧ editor_invariant [].
Proof.
  intros Hinv Hfresh. split.
  2:{ split_and!; [apply NoDup_nil_2..|constructor]. }
  revert wires Hinv Hfresh.
  induction actions as [|a rest IH]; intros wires Hinv Hfresh; [done|].
  destruct Hfresh as [Ha Hrest]. cbn [run_actions foldl].
  apply IH; [|done]. destruct a as [start nodeId pinIndex type_ newId| |]; cbn.
  - destruct (handlePinMouseUp_cases start nodeId pinIndex type_ newId wires)
      as [->|(s & -> & Hn & Ht & ->)]; [done|].
    apply connect_wires_invariant; [|done..]. by apply gesture_nodes.
  - by apply editor_invariant_filter.
  - by apply editor_invariant_filter.
Qed.

Lemma editor_run_invariant_witness :
  let actions :=
    [Connect (Some (mkPin "a" 0 pin_output)) "g" 0 pin_input "w1";
     Connect (Some (mkPin "g" 1 pin_input)) "b" 0 pin_output "w2";
     Connect (Some (mkPin "b" 0 pin_output)) "g" 0 pin_input "w3";
     DeleteWire "w2"; DeleteNode "a"] in
  editor_invariant [] ∧ fresh_ids actions [] ∧
  editor_invariant (run_actions actions []).
Proof.
  cbn zeta.
  assert (editor_invariant []) as Hinv
    by (split_and!; [apply NoDup_nil_2..|constructor]).
  assert (fresh_ids
            [Connect (Some (mkPin "a" 0 pin_output)) "g" 0 pin_input "w1";
             Connect (Some (mkPin "g" 1 pin_input)) "b" 0 pin_output "w2";
             Connect (Some (mkPin "b" 0 pin_output)) "g" 0 pin_input "w3";
             DeleteWire "w2"; DeleteNode "a"] []) as Hfresh.
  { cbn. split_and!; try done; compute_done. }
  split_and!; [exact Hinv|exact Hfresh|].
  apply (editor_run_invariant _ [] Hinv Hfresh).
Defined.

(** ** The wire offset *)

(** X17. The horizontal offset of a wire is one of -10, -5, 0, 5, 10, 15 and
    20 for every source id, and the hash it is taken from stays a 32-bit
    integer after every character. *)
Theorem getWireOffset_range (codes : list Z) :
  - 2 ^ 31 ≤ foldl hash_step 0 codes < 2 ^ 31 ∧
  - 10 ≤ getWireOffset codes ≤ 20 ∧
  (getWireOffset codes + 10) mod 5 = 0.
Proof.
  pose proof (Z.mod_pos_bound (Z.abs (foldl hash_step 0 codes)) 7 ltac:(lia))
    as Hmod.
  split; [|split].
  - destruct codes as [|c l _] using rev_ind; [cbn; lia|].
    rewrite foldl_app. cbn [foldl]. apply toInt32_range.
  - unfold getWireOffset. cbn zeta. lia.
  - unfold getWireOffset. cbn zeta.
    replace (Z.abs (foldl hash_step 0 codes) mod 7 * 5 - 10 + 10)
      with (Z.abs (foldl hash_step 0 codes) mod 7 * 5) by lia.
    apply Z.mod_mul. lia.
Qed.

(** ** Import of a generated circuit *)

Lemma import_wires_lookup data i w :
  import_wires data !! i = Some w →
  ∃ d, data !! i = Some d ∧ wire_id w = "wire-gen-" ++ pretty i ∧
       sourceNodeId w = wd_sourceNodeId d ∧ sourcePinIndex w = 0 ∧
       targetNodeId w = wd_targetNodeId d ∧
       targetPinIndex w = wd_targetPinIndex d.
Proof.
  unfold import_wires. rewrite list_lookup_imap.
  destruct (data !! i) as [d|]; [|done]. cbn. intros [= <-]. by exists d.
Qed.

(** X18. The import of a generated circuit keeps the nodes and wires in
    number and order: node number [i] is the node the service returned with
    the value false, whatever value it carried, and wire number [i] has the
    id "wire-gen-i", source pin 0 and the source, target and target pin the
    service returned. So the wire ids are pairwise distinct, as for "wire-gen-0"
    to "wire-gen-10". *)
Theorem import_circuit_wellformed (nodes : list CircuitNode)
    (wires : list WireData) :
  length (import_nodes nodes) = length nodes ∧
  (∀ (i : nat) n, nodes !! i = Some n →
     import_nodes nodes !! i
     = Some {| id := id n; type := type n; x := x n; y := y n;
               label := label n; value := false |}) ∧
  Forall (λ n, value n = false) (import_nodes nodes) ∧
  same_structure nodes (import_nodes nodes) ∧
  length (import_wires wires) = length wires ∧
  (∀ (i : nat) d, wires !! i = Some d →
     import_wires wires !! i
     = Some {| wire_id := "wire-gen-" ++ pretty i;
               sourceNodeId := wd_sourceNodeId d;
               sourcePinIndex := 0;
               targetNodeId := wd_targetNodeId d;
               targetPinIndex := wd_targetPinIndex d |}) ∧
  NoDup (wire_id <$> import_wires wires) ∧
  (∀ d, wire_id <$> import_wires (replicate 11 d)
        = ["wire-gen-0"; "wire-gen-1"; "wire-gen-2"; "wire-gen-3";
           "wire-gen-4"; "wire-gen-5"; "wire-gen-6"; "wire-gen-7";
           "wire-gen-8"; "wire-gen-9"; "wire-gen-10"]).
Proof.
  split_and!.
  - unfold import_nodes. by rewrite length_fmap.
  - intros i n Hi. unfold import_nodes. by rewrite list_lookup_fmap, Hi.
  - unfold import_nodes. apply Forall_fmap, Forall_forall. done.
  - unfold import_nodes. apply Forall2_fmap_r, Forall_Forall2_diag, Forall_forall.
    done.
  - unfold import_wires. by rewrite length_imap.
  - intros i d Hi. unfold import_wires. by rewrite list_lookup_imap, Hi.
  - apply NoDup_alt. intros i j s Hi Hj.
    rewrite list_lookup_fmap in Hi, Hj.
    destruct (import_wires wires !! i) as [wi|] eqn:Hwi; [|done].
    destruct (import_wires wires !! j) as [wj|] eqn:Hwj; [|done].
    apply import_wires_lookup in Hwi as (_ & _ & Hidi & _).
    apply import_wires_lookup in Hwj as (_ & _ & Hidj & _).
    cbn in Hi, Hj. injection Hi as Hi. injection Hj as Hj.
    assert ("wire-gen-" ++ pretty i = "wire-gen-" ++ pretty j) as Heq
      by congruence.
    apply append_inj_l in Heq. by apply (inj pretty).
  - intros d. by vm_compute.
Qed.

(** ** The keys and the output values of a row *)

Section Rows.

Variable localeCompare : string → string → Z.

Lemma sorted_of_type_labels t nodes :
  (list_to_set (label <$> sorted_of_type localeCompare t nodes) : gset string)
  = list_to_set (label <$> filter (λ n, type n = t) nodes).
Proof.
  apply set_eq. intros l. rewrite !elem_of_list_to_set.
  by rewrite (sorted_of_type_perm localeCompare t nodes).
Qed.

Lemma generateTruthTable_elem nodes wires row :
  row ∈ generateTruthTable localeCompare nodes wires →
  ∃ i, row = table_row nodes wires
               (sorted_of_type localeCompare INPUT nodes)
               (sorted_of_type localeCompare OUTPUT nodes) i.
Proof.
  unfold generateTruthTable. destruct (length _ =? 0)%nat.
  { intros Hin. by apply elem_of_nil in Hin. }
  intros Hin. apply list_elem_of_fmap in Hin as (i & -> & _). by exists i.
Qed.

(** X20. A row is a pair of plain objects: the keys of its inputs are
    exactly the labels of the INPUT nodes other than ["__proto__"], and the
    keys of its outputs exactly the labels of the OUTPUT nodes other than
    ["__proto__"], an assignment to that key recording nothing; nodes that
    share a label share a key. *)
Theorem truth_table_row_keys (nodes : list CircuitNode) (wires : list Wire)
    (row : TruthTableRow) :
  row ∈ generateTruthTable localeCompare nodes wires →
  dom (inputs row)
  = list_to_set (label <$> filter (λ n, type n = INPUT) nodes)
    ∖ {["__proto__"]} ∧
  dom (outputs row)
  = list_to_set (label <$> filter (λ n, type n = OUTPUT) nodes)
    ∖ {["__proto__"]} ∧
  inputs row !! "__proto__" = None ∧ outputs row !! "__proto__" = None.
Proof.
  intros Hin. apply generateTruthTable_elem in Hin as [i ->].
  cbn [table_row inputs outputs].
  set (rowInputs := record_inputs _ _ _ _ _).
  set (rowOutputs := record_outputs _ _).
  assert (dom rowInputs
          = list_to_set (label <$> filter (λ n, type n = INPUT) nodes)
            ∖ {["__proto__"]}) as Hi.
  { unfold rowInputs. rewrite record_inputs_dom, dom_empty_L.
    rewrite sorted_of_type_labels. apply (right_id_L (∅ : gset string) (∪)). }
  assert (dom rowOutputs
          = list_to_set (label <$> filter (λ n, type n = OUTPUT) nodes)
            ∖ {["__proto__"]}) as Ho.
  { unfold rowOutputs. by rewrite record_outputs_dom, sorted_of_type_labels. }
  split_and!; [done..| |]; apply not_elem_of_dom.
  - rewrite Hi, elem_of_difference, elem_of_singleton. tauto.
  - rewrite Ho, elem_of_difference, elem_of_singleton. tauto.
Qed.

(** X21. When the OUTPUT nodes have distinct labels, each row records under
    the label of an OUTPUT node, unless that label is ["__proto__"], the
    value that the node found for its id has after the evaluation of the
    row's working copy; that node always exists, so the fallback to false is
    never used. *)
Theorem truth_table_output_value (nodes : list CircuitNode)
    (wires : list Wire) (i : nat) (out : CircuitNode) :
  let inps := sorted_of_type localeCompare INPUT nodes in
  (1 ≤ length inps ≤ 30)%nat → (i < 2 ^ length inps)%nat →
  NoDup (label <$> filter (λ n, type n = OUTPUT) nodes) →
  out ∈ nodes → type out = OUTPUT → label out ≠ "__proto__" →
  ∃ row v,
    generateTruthTable localeCompare nodes wires !! i = Some row ∧
    value_of (id out)
      (simulateCircuit (set_input_states nodes inps (Z.of_nat i)) wires)
    = Some v ∧
    outputs row !! label out = Some v.
Proof.
  intros inps Hn Hi Hnd Hout Ht Hl.
  pose proof (table_lookup localeCompare nodes wires i Hn Hi) as Hrow.
  destruct (row_output localeCompare nodes wires i _ out Hrow Hnd Hout Ht Hl)
    as (v & Hv & Hlook).
  by eexists _, v.
Qed.

End Rows.

Lemma truth_table_row_keys_witness :
  ∃ row, row ∈ generateTruthTable byte_compare case2_nodes case2_wires ∧
         dom (inputs row) = list_to_set ["B"; "A"] ∖ {["__proto__"]} ∧
         dom (outputs row) = list_to_set ["Y"] ∖ {["__proto__"]}.
Proof.
  assert (∃ row, generateTruthTable byte_compare case2_nodes case2_wires !! 0%nat
                 = Some row) as [row Hrow] by (eexists; reflexivity).
  pose proof (list_elem_of_lookup_2 _ _ _ Hrow) as Hin.
  exists row. split; [exact Hin|].
  destruct (truth_table_row_keys byte_compare case2_nodes case2_wires row Hin)
    as (Hi & Ho & _).
  split; [exact Hi|exact Ho].
Defined.

Lemma truth_table_output_value_witness :
  (1 ≤ length (sorted_of_type byte_compare INPUT case2_nodes) ≤ 30)%nat ∧
  (3 < 2 ^ length (sorted_of_type byte_compare INPUT case2_nodes))%nat ∧
  NoDup (label <$> filter (λ n, type n = OUTPUT) case2_nodes) ∧
  gate "y" OUTPUT "Y" false ∈ case2_nodes ∧
  ∃ row,
    generateTruthTable byte_compare case2_nodes case2_wires !! 3%nat
    = Some row ∧
    outputs row !! "Y" = Some true.
Proof.
  assert (1 ≤ length (sorted_of_type byte_compare INPUT case2_nodes) ≤ 30)%nat
    as Hn by (vm_compute; lia).
  assert (3 < 2 ^ length (sorted_of_type byte_compare INPUT case2_nodes))%nat
    as Hi by (vm_compute; lia).
  assert (NoDup (label <$> filter (λ n, type n = OUTPUT) case2_nodes)) as Hnd
    by compute_done.
  assert (gate "y" OUTPUT "Y" false ∈ case2_nodes) as Hout by (by left).
  assert (label (gate "y" OUTPUT "Y" false) ≠ "__proto__") as Hl by done.
  split_and!; [apply Hn..|exact Hi|exact Hnd|exact Hout|].
  destruct (truth_table_output_value byte_compare case2_nodes case2_wires 3
              (gate "y" OUTPUT "Y" false) Hn Hi Hnd Hout eq_refl Hl)
    as (row & v & Hrow & Hval & Hv).
  exists row. split; [exact Hrow|].
  vm_compute in Hval. injection Hval as <-. exact Hv.
Defined.
